(** * Verification of the strided gufunc kernels of [gufuncs_cloop.c]

    A shallow embedding of the four kernels of
    [src/rand_mfld_proj/gufuncs_cloop.c] ([DOUBLE_pdist_ratio],
    [DOUBLE_cdist_ratio], [DOUBLE_matmul], [DOUBLE_norm]), of the distance
    helper [DOUBLE_dist] they share and of the outer broadcasting loop that
    drives them.

    Conventions of the embedding:
    - [npy_intp] is [Z].  Signed overflow and out-of-object pointer
      arithmetic are undefined in C, so the model covers the executions in
      which no such overflow happens.
    - [npy_double] is IEEE-754 binary64 as specified by the standard
      library's [SpecFloat] (precision 53, [emax] 1024, round to nearest
      even, one NaN without payload).  Every expression is evaluated in
      binary64, operation by operation, as the source writes it.
    - A [char *] is a byte address in [Z]; the memory maps the address of a
      [npy_double] object to its value, so a store at [a] is seen by loads
      at [a] and by no other load (objects either coincide or are disjoint).
    - A C [for] loop whose counter is not assigned in its body is
      [for_loop lo hi body]. *)

From Stdlib Require Import ZArith List Lia Bool.
From Stdlib Require Import Floats.SpecFloat.
Import ListNotations.

#[local] Open Scope Z_scope.

Set Implicit Arguments.

(** ** Scalars *)

Definition npy_intp := Z.
Definition npy_double := spec_float.

Definition dbl_prec : Z := 53.
Definition dbl_emax : Z := 1024.

Definition d_add : npy_double -> npy_double -> npy_double := SFadd dbl_prec dbl_emax.
Definition d_sub : npy_double -> npy_double -> npy_double := SFsub dbl_prec dbl_emax.
Definition d_mul : npy_double -> npy_double -> npy_double := SFmul dbl_prec dbl_emax.
Definition d_div : npy_double -> npy_double -> npy_double := SFdiv dbl_prec dbl_emax.
Definition npy_sqrt : npy_double -> npy_double := SFsqrt dbl_prec dbl_emax.

(** The C comparisons [x < y] and [x > y] on doubles. *)
Definition d_lt (x y : npy_double) : bool := SFltb x y.
Definition d_gt (x y : npy_double) : bool :=
  match SFcompare x y with
  | Some Gt => true
  | _ => false
  end.

(** Modelled from the spec: the constants [d_zero] and [d_inf] are set by
    [init_constants] in [gufunc_common.h], which is not among the source
    files.  The specification describes them as the process-wide
    constants zero and positive infinity ("initial min is set to positive
    infinity, initial max to zero"). *)
Definition d_zero : npy_double := S754_zero false.

(** Modelled from the spec: [d_inf], set by [init_constants] of
    [gufunc_common.h] like [d_zero], is "the value of infinity used as
    initial minimum". *)
Definition d_inf : npy_double := S754_infinity false.

Definition d_one : npy_double := SFone dbl_prec dbl_emax.
Definition d_nan : npy_double := S754_nan.
Definition d_negzero : npy_double := S754_zero true.

(** The double nearest to an integer (exact up to [2^53]). *)
Definition d_of_Z (z : Z) : npy_double := binary_normalize dbl_prec dbl_emax z 0 false.

(** A double that a memory cell can hold: finite values are in canonical
    binary64 form. *)
Definition valid_double (x : npy_double) : bool := valid_binary dbl_prec dbl_emax x.

Definition is_finite (x : npy_double) : bool :=
  match x with
  | S754_zero _ | S754_finite _ _ _ => true
  | _ => false
  end.

Definition is_nan (x : npy_double) : bool :=
  match x with
  | S754_nan => true
  | _ => false
  end.

(** The sign bit is clear: zero, a positive number, positive infinity, or
    NaN. *)
Definition sign_clear (x : npy_double) : bool :=
  match x with
  | S754_zero s | S754_infinity s | S754_finite s _ _ => negb s
  | S754_nan => true
  end.

(** A finite number other than zero. *)
Definition is_finite_nonzero (x : npy_double) : bool :=
  match x with
  | S754_finite _ _ _ => true
  | _ => false
  end.

(** ** Memory *)

Definition addr := Z.
Definition memory := addr -> npy_double.

(** [*(npy_double * )p] as an rvalue, and [*(npy_double * )p = v]. *)
Definition load (mem : memory) (p : addr) : npy_double := mem p.
Definition store (mem : memory) (p : addr) (v : npy_double) : memory :=
  fun q => if Z.eq_dec q p then v else mem q.

(** A memory whose first cells, at the multiples of 8 from address 0, hold
    the values listed; it is used to run the kernels on concrete data. *)
Definition array_mem (cells : list npy_double) : memory :=
  fun a =>
    if (0 <=? a) && (a mod 8 =? 0) then nth (Z.to_nat (a / 8)) cells d_nan
    else d_nan.

(** ** Loops *)

Fixpoint iter_from (St : Type) (n : nat) (i : Z) (body : Z -> St -> St) (s : St) : St :=
  match n with
  | O => s
  | S n' => iter_from n' (i + 1) body (body i s)
  end.

(** [for (i = lo; i < hi; i++) body]. *)
Definition for_loop (St : Type) (lo hi : Z) (body : Z -> St -> St) (s : St) : St :=
  iter_from (Z.to_nat (hi - lo)) lo body s.

(** The indices [lo, lo+1, ..., hi-1] a loop runs through. *)
Definition zrange (lo hi : Z) : list Z :=
  map (fun k => lo + Z.of_nat k) (seq 0 (Z.to_nat (hi - lo))).

(** ** Structs used for array iteration *)

Record LINEARIZE_DATA_t := {
  len : npy_intp;
  strides : npy_intp;
  back_strides : npy_intp
}.

Definition init_linearize_vdata (len strides : npy_intp) : LINEARIZE_DATA_t :=
  {| len := len; strides := strides; back_strides := len * strides |}.

(** ** DOUBLE_dist *)

(** The locals of [DOUBLE_dist]: the two cursors and the accumulator the
    caller passes by address. *)
Record dist_state := {
  dist_X : addr;
  dist_Y : addr;
  dist_acc : npy_double
}.

Definition DOUBLE_dist_step (mem : memory) (x_in y_in : LINEARIZE_DATA_t)
    (s : dist_state) : dist_state :=
  let separation := d_sub (load mem (dist_X s)) (load mem (dist_Y s)) in
  {| dist_X := dist_X s + strides x_in;
     dist_Y := dist_Y s + strides y_in;
     dist_acc := d_add (dist_acc s) (d_mul separation separation) |}.

(** The whole body, cursors included: the loop over [x_in->len], then the
    two rewinds. *)
Definition DOUBLE_dist_run (mem : memory) (X Y : addr) (dist : npy_double)
    (x_in y_in : LINEARIZE_DATA_t) : dist_state :=
  let s := for_loop 0 (len x_in) (fun _ => DOUBLE_dist_step mem x_in y_in)
             {| dist_X := X; dist_Y := Y; dist_acc := dist |} in
  {| dist_X := dist_X s - back_strides x_in;
     dist_Y := dist_Y s - back_strides y_in;
     dist_acc := dist_acc s |}.

(** [X] and [Y] are parameters passed by value: what the caller observes is
    the new value of [*dist]. *)
Definition DOUBLE_dist (mem : memory) (X Y : addr) (dist : npy_double)
    (x_in y_in : LINEARIZE_DATA_t) : npy_double :=
  dist_acc (DOUBLE_dist_run mem X Y dist x_in y_in).

(** ** DOUBLE_pdist_ratio and DOUBLE_cdist_ratio *)

(** [if (ratio < dr_min) dr_min = ratio;] and
    [if (ratio > dr_max) dr_max = ratio;]. *)
Definition update_min (ratio dr_min : npy_double) : npy_double :=
  if d_lt ratio dr_min then ratio else dr_min.
Definition update_max (ratio dr_max : npy_double) : npy_double :=
  if d_gt ratio dr_max then ratio else dr_max.

(** A numerator cursor, a denominator cursor and the running extrema.  The
    same record serves the "from" loop ([ip_num_fr], [ip_den_fr]) and the
    "to" loop ([ip_num_to], [ip_den_to]). *)
Record ratio_state := {
  ip_num : addr;
  ip_den : addr;
  dr_min : npy_double;
  dr_max : npy_double
}.

(** The body of the [d2] loop, which both kernels share word for word: the
    two distances accumulated from [d_zero], their ratio, the two updates
    and the advance of the "to" cursors. *)
Definition dist_ratio_step (mem : memory)
    (num_fr_in num_to_in den_fr_in den_to_in : LINEARIZE_DATA_t)
    (stride_num_to_d stride_den_to_d : npy_intp)
    (ip_num_fr ip_den_fr : addr) (t : ratio_state) : ratio_state :=
  let numerator := DOUBLE_dist mem ip_num_fr (ip_num t) d_zero num_fr_in num_to_in in
  let denominator := DOUBLE_dist mem ip_den_fr (ip_den t) d_zero den_fr_in den_to_in in
  let ratio := d_div numerator denominator in
  {| ip_num := ip_num t + stride_num_to_d;
     ip_den := ip_den t + stride_den_to_d;
     dr_min := update_min ratio (dr_min t);
     dr_max := update_max ratio (dr_max t) |}.

Section PdistRatio.
Variable mem : memory.
Variables len_d len_m len_n : npy_intp.
Variables stride_num_d stride_m stride_den_d stride_n : npy_intp.

Definition pdist_num_in := init_linearize_vdata len_m stride_m.
Definition pdist_den_in := init_linearize_vdata len_n stride_n.

(** Body of the [d1] loop. *)
Definition pdist_from_step (d1 : Z) (s : ratio_state) : ratio_state :=
  let t := for_loop (d1 + 1) len_d
             (fun _ => dist_ratio_step mem pdist_num_in pdist_num_in
                         pdist_den_in pdist_den_in stride_num_d stride_den_d
                         (ip_num s) (ip_den s))
             {| ip_num := ip_num s + stride_num_d;
                ip_den := ip_den s + stride_den_d;
                dr_min := dr_min s;
                dr_max := dr_max s |} in
  {| ip_num := ip_num s + stride_num_d;
     ip_den := ip_den s + stride_den_d;
     dr_min := dr_min t;
     dr_max := dr_max t |}.

(** The two nested loops, from [dr_min = d_inf], [dr_max = d_zero]. *)
Definition pdist_ratio_loops (args0 args1 : addr) : ratio_state :=
  for_loop 0 (len_d - 1) pdist_from_step
    {| ip_num := args0; ip_den := args1; dr_min := d_inf; dr_max := d_zero |}.

(** What one iteration of the outer loop does to the memory:
    [args0] is the numerator array, [args1] the denominator array,
    [args2] and [args3] the two outputs. *)
Definition DOUBLE_pdist_ratio_body (args0 args1 args2 args3 : addr) : memory :=
  let s := pdist_ratio_loops args0 args1 in
  store (store mem args2 (npy_sqrt (dr_min s))) args3 (npy_sqrt (dr_max s)).
End PdistRatio.

Section CdistRatio.
Variable mem : memory.
Variables len_fr_d len_m len_to_d len_n : npy_intp.
Variables stride_num_fr_d stride_fr_m stride_num_to_d stride_to_m : npy_intp.
Variables stride_den_fr_d stride_fr_n stride_den_to_d stride_to_n : npy_intp.

Definition cdist_num_fr_in := init_linearize_vdata len_m stride_fr_m.
Definition cdist_num_to_in := init_linearize_vdata len_m stride_to_m.
Definition cdist_den_fr_in := init_linearize_vdata len_n stride_fr_n.
Definition cdist_den_to_in := init_linearize_vdata len_n stride_to_n.

(** Body of the [d1] loop; [args1] and [args3] are the starts of the "to"
    arrays, to which the "to" cursors are reset for every "from" point. *)
Definition cdist_from_step (args1 args3 : addr) (d1 : Z) (s : ratio_state) : ratio_state :=
  let t := for_loop 0 len_to_d
             (fun _ => dist_ratio_step mem cdist_num_fr_in cdist_num_to_in
                         cdist_den_fr_in cdist_den_to_in
                         stride_num_to_d stride_den_to_d
                         (ip_num s) (ip_den s))
             {| ip_num := args1;
                ip_den := args3;
                dr_min := dr_min s;
                dr_max := dr_max s |} in
  {| ip_num := ip_num s + stride_num_fr_d;
     ip_den := ip_den s + stride_den_fr_d;
     dr_min := dr_min t;
     dr_max := dr_max t |}.

Definition cdist_ratio_loops (args0 args1 args2 args3 : addr) : ratio_state :=
  for_loop 0 len_fr_d (cdist_from_step args1 args3)
    {| ip_num := args0; ip_den := args2; dr_min := d_inf; dr_max := d_zero |}.

(** [args0], [args1]: numerator "from" and "to"; [args2], [args3]:
    denominator "from" and "to"; [args4], [args5]: the two outputs. *)
Definition DOUBLE_cdist_ratio_body (args0 args1 args2 args3 args4 args5 : addr) : memory :=
  let s := cdist_ratio_loops args0 args1 args2 args3 in
  store (store mem args4 (npy_sqrt (dr_min s))) args5 (npy_sqrt (dr_max s)).
End CdistRatio.

(** ** DOUBLE_matmul *)

Record matmul_state := {
  ip_x : addr;
  ip_y : addr;
  op_z : addr;
  mm_mem : memory
}.

Section Matmul.
Variables len_m len_n len_p : npy_intp.
Variables stride_x_m stride_x_n stride_y_n stride_y_p stride_z_m stride_z_p : npy_intp.

Definition iback_x_n := len_n * stride_x_n.
Definition iback_y_n := len_n * stride_y_n.
Definition iback_y_p := len_p * stride_y_p.
Definition iback_z_p := len_p * stride_z_p.

(** Body of the [n] loop: [*op_z += *ip_x * *ip_y], then both input
    cursors advance. *)
Definition matmul_n_step (s : matmul_state) : matmul_state :=
  let mem := mm_mem s in
  {| ip_x := ip_x s + stride_x_n;
     ip_y := ip_y s + stride_y_n;
     op_z := op_z s;
     mm_mem := store mem (op_z s)
                 (d_add (load mem (op_z s))
                        (d_mul (load mem (ip_x s)) (load mem (ip_y s)))) |}.

(** Body of the [p] loop. *)
Definition matmul_p_step (s : matmul_state) : matmul_state :=
  let s1 := {| ip_x := ip_x s; ip_y := ip_y s; op_z := op_z s;
               mm_mem := store (mm_mem s) (op_z s) d_zero |} in
  let s2 := for_loop 0 len_n (fun _ => matmul_n_step) s1 in
  {| ip_x := ip_x s2 - iback_x_n;
     ip_y := ip_y s2 - iback_y_n + stride_y_p;
     op_z := op_z s2 + stride_z_p;
     mm_mem := mm_mem s2 |}.

(** Body of the [m] loop. *)
Definition matmul_m_step (s : matmul_state) : matmul_state :=
  let s1 := for_loop 0 len_p (fun _ => matmul_p_step) s in
  {| ip_x := ip_x s1 + stride_x_m;
     ip_y := ip_y s1 - iback_y_p;
     op_z := op_z s1 - iback_z_p + stride_z_m;
     mm_mem := mm_mem s1 |}.

Definition matmul_loops (mem : memory) (args0 args1 args2 : addr) : matmul_state :=
  for_loop 0 len_m (fun _ => matmul_m_step)
    {| ip_x := args0; ip_y := args1; op_z := args2; mm_mem := mem |}.

(** [args0] is [X], [args1] is [Y], [args2] is the output [Z]. *)
Definition DOUBLE_matmul_body (mem : memory) (args0 args1 args2 : addr) : memory :=
  mm_mem (matmul_loops mem args0 args1 args2).
End Matmul.

(** ** DOUBLE_norm *)

Record norm_state := {
  norm_ip_x : addr;
  normsq : npy_double
}.

Definition norm_step (mem : memory) (stride_n : npy_intp) (s : norm_state) : norm_state :=
  {| norm_ip_x := norm_ip_x s + stride_n;
     normsq := d_add (normsq s) (d_mul (load mem (norm_ip_x s)) (load mem (norm_ip_x s))) |}.

(** [args0] is the vector, [args1] the output. *)
Definition DOUBLE_norm_body (mem : memory) (len_n stride_n : npy_intp)
    (args0 args1 : addr) : memory :=
  let s := for_loop 0 len_n (fun _ => norm_step mem stride_n)
             {| norm_ip_x := args0; normsq := d_zero |} in
  store mem args1 (npy_sqrt (normsq s)).


(** ** The broadcasting outer loop *)

(** Modelled from the spec: the macros [INIT_OUTER_LOOP_k],
    [BEGIN_OUTER_LOOP_k] and [END_OUTER_LOOP_k] come from
    [gufunc_common.h], which is not among the source files.  The
    specification (section 4.3) describes the driver they implement: a
    batch descriptor is the ordered list of batch axes, each with its size
    and one byte stride per operand. *)
Record batch_axis := {
  ax_size : npy_intp;
  ax_strides : list npy_intp
}.

Definition BatchDescriptor := list batch_axis.

(** Modelled from the spec: the state of the odometer of section 4.3, the
    current index along every batch axis and the current base address of
    every operand. *)
Record odometer := {
  odo_index : list Z;
  odo_args : list addr
}.

(** Modelled from the spec: [args[k] += n * steps[k]] for every operand
    [k], the pointer update of the outer-loop macros of
    [gufunc_common.h]. *)
Fixpoint advance (args : list addr) (steps : list npy_intp) (n : Z) : list addr :=
  match args, steps with
  | a :: args', s :: steps' => (a + n * s) :: advance args' steps' n
  | _, _ => args
  end.

(** Modelled from the spec: one tick of the odometer of the outer-loop
    macros of [gufunc_common.h], "increment innermost axis; on wraparound,
    subtract back to start and carry into the next axis".  Axes are listed
    outermost first; the boolean is the carry out of the axes listed. *)
Fixpoint odo_incr (axes : BatchDescriptor) (idx : list Z) (args : list addr)
    : bool * list Z * list addr :=
  match axes, idx with
  | ax :: axes', i :: idx' =>
      let '(carry, idx'', args') := odo_incr axes' idx' args in
      if carry then
        let args1 := advance args' (ax_strides ax) 1 in
        if i + 1 <? ax_size ax then (false, (i + 1) :: idx'', args1)
        else (true, 0 :: idx'', advance args1 (ax_strides ax) (- ax_size ax))
      else (false, i :: idx'', args')
  | _, _ => (true, [], args)
  end.

(** Modelled from the spec: the loop of the outer-loop macros of
    [gufunc_common.h] once it is entered; the kernel body runs at the
    current odometer state, then the odometer ticks, until it carries out
    of the outermost axis.  [None] is "out of fuel". *)
Fixpoint outer_loop_from (St : Type) (fuel : nat) (axes : BatchDescriptor)
    (body : odometer -> St -> St) (o : odometer) (s : St) : option St :=
  match fuel with
  | O => None
  | S fuel' =>
      let s' := body o s in
      let '(carry, idx, args) := odo_incr axes (odo_index o) (odo_args o) in
      if carry then Some s'
      else outer_loop_from fuel' axes body {| odo_index := idx; odo_args := args |} s'
  end.

(** Modelled from the spec: the driver built by the outer-loop macros of
    [gufunc_common.h].  A batch with an empty axis runs nothing ("zero-size
    batch => zero invocations"); otherwise the odometer starts at index
    zero on every axis, at the operand addresses the caller supplied. *)
Definition outer_loop (St : Type) (fuel : nat) (axes : BatchDescriptor)
    (args : list addr) (body : odometer -> St -> St) (s : St) : option St :=
  if existsb (fun ax => ax_size ax <=? 0) axes then Some s
  else outer_loop_from fuel axes body
         {| odo_index := map (fun _ => 0) axes; odo_args := args |} s.

(** [args[k]] *)
Definition arg (args : list addr) (k : nat) : addr := nth k args 0.

(** Modelled from the spec: how the outer-loop macros of
    [gufunc_common.h] wrap the four kernels.  The bodies are the source's,
    as embedded above; the loop around them is the driver of section 4.3,
    which hands them the current operand addresses [args[0]], [args[1]],
    ... *)
Definition DOUBLE_pdist_ratio (fuel : nat) (axes : BatchDescriptor) (args : list addr)
    (len_d len_m len_n stride_num_d stride_m stride_den_d stride_n : npy_intp)
    (mem : memory) : option memory :=
  outer_loop fuel axes args
    (fun o mem =>
       let a := odo_args o in
       DOUBLE_pdist_ratio_body mem len_d len_m len_n
         stride_num_d stride_m stride_den_d stride_n
         (arg a 0) (arg a 1) (arg a 2) (arg a 3))
    mem.

(** Modelled from the spec: the same wrapping by the outer-loop macros of
    [gufunc_common.h], for the six operands of [cdist_ratio]. *)
Definition DOUBLE_cdist_ratio (fuel : nat) (axes : BatchDescriptor) (args : list addr)
    (len_fr_d len_m len_to_d len_n : npy_intp)
    (stride_num_fr_d stride_fr_m stride_num_to_d stride_to_m : npy_intp)
    (stride_den_fr_d stride_fr_n stride_den_to_d stride_to_n : npy_intp)
    (mem : memory) : option memory :=
  outer_loop fuel axes args
    (fun o mem =>
       let a := odo_args o in
       DOUBLE_cdist_ratio_body mem len_fr_d len_m len_to_d len_n
         stride_num_fr_d stride_fr_m stride_num_to_d stride_to_m
         stride_den_fr_d stride_fr_n stride_den_to_d stride_to_n
         (arg a 0) (arg a 1) (arg a 2) (arg a 3) (arg a 4) (arg a 5))
    mem.

(** Modelled from the spec: the same wrapping by the outer-loop macros of
    [gufunc_common.h], for the three operands of [matmul]. *)
Definition DOUBLE_matmul (fuel : nat) (axes : BatchDescriptor) (args : list addr)
    (len_m len_n len_p : npy_intp)
    (stride_x_m stride_x_n stride_y_n stride_y_p stride_z_m stride_z_p : npy_intp)
    (mem : memory) : option memory :=
  outer_loop fuel axes args
    (fun o mem =>
       let a := odo_args o in
       DOUBLE_matmul_body len_m len_n len_p
         stride_x_m stride_x_n stride_y_n stride_y_p stride_z_m stride_z_p
         mem (arg a 0) (arg a 1) (arg a 2))
    mem.

(** Modelled from the spec: the same wrapping by the outer-loop macros of
    [gufunc_common.h], for the two operands of [norm]. *)
Definition DOUBLE_norm (fuel : nat) (axes : BatchDescriptor) (args : list addr)
    (len_n stride_n : npy_intp) (mem : memory) : option memory :=
  outer_loop fuel axes args
    (fun o mem =>
       let a := odo_args o in
       DOUBLE_norm_body mem len_n stride_n (arg a 0) (arg a 1))
    mem.


(** * The specification's view of the data *)

(** Element [k] of the strided vector at [base]. *)
Definition elem1 (mem : memory) (base : addr) (stride : npy_intp) (k : Z) : npy_double :=
  load mem (base + k * stride).

(** Address and value of element [i,k] of the strided two-dimensional
    array at [base]. *)
Definition cell_addr (base : addr) (stride_r stride_c : npy_intp) (i k : Z) : addr :=
  base + i * stride_r + k * stride_c.

Definition elem2 (mem : memory) (base : addr) (stride_r stride_c : npy_intp)
    (i k : Z) : npy_double :=
  load mem (cell_addr base stride_r stride_c i k).

(** One term of a squared distance. *)
Definition sq_diff (a b : npy_double) : npy_double :=
  d_mul (d_sub a b) (d_sub a b).

(** The squared differences of the first [L] coordinates of [x] and [y],
    added one after the other, in index order, to [acc]. *)
Definition sq_dist_from (acc : npy_double) (x y : Z -> npy_double) (L : Z) : npy_double :=
  fold_left (fun a k => d_add a (sq_diff (x k) (y k))) (zrange 0 L) acc.

(** Squared Euclidean distance: the accumulation from zero. *)
Definition sq_dist (x y : Z -> npy_double) (L : Z) : npy_double :=
  sq_dist_from d_zero x y L.

(** The full cross product [0..P) x [0..R), row by row. *)
Definition cross (P R : Z) : list (Z * Z) :=
  flat_map (fun i => map (pair i) (zrange 0 R)) (zrange 0 P).

(** The unordered pairs [i < j] among [D] points. *)
Definition pairs_lt (D : Z) : list (Z * Z) :=
  filter (fun ij => fst ij <? snd ij) (cross D D).

(** The ordered pairs [i <> j] among [D] points. *)
Definition pairs_neq (D : Z) : list (Z * Z) :=
  filter (fun ij => negb (fst ij =? snd ij)) (cross D D).

(** A running extremum for the comparison [lt]: the value kept is replaced
    by the next one when the next one compares before it. *)
Definition keep_if (A : Type) (lt : A -> A -> bool) (r acc : A) : A :=
  if lt r acc then r else acc.

Definition running (A : Type) (lt : A -> A -> bool) (l : list A) (m0 : A) : A :=
  fold_left (fun acc r => keep_if lt r acc) l m0.

(** Running minimum from positive infinity and running maximum from zero,
    with the comparisons of the kernels. *)
Definition running_min (ratios : list npy_double) : npy_double :=
  fold_left (fun m r => update_min r m) ratios d_inf.
Definition running_max (ratios : list npy_double) : npy_double :=
  fold_left (fun m r => update_max r m) ratios d_zero.

Section RatioSpec.
Variable mem : memory.
Variables len_m len_n : npy_intp.
Variables num_fr num_to den_fr den_to : addr.
Variables stride_num_fr_d stride_fr_m stride_num_to_d stride_to_m : npy_intp.
Variables stride_den_fr_d stride_fr_n stride_den_to_d stride_to_n : npy_intp.

(** The ratio of squared distances between "from" point [i] and "to" point
    [j]: numerator space has dimension [len_m], denominator space
    [len_n]. *)
Definition sq_ratio (ij : Z * Z) : npy_double :=
  let (i, j) := ij in
  d_div
    (sq_dist (elem2 mem num_fr stride_num_fr_d stride_fr_m i)
             (elem2 mem num_to stride_num_to_d stride_to_m j) len_m)
    (sq_dist (elem2 mem den_fr stride_den_fr_d stride_fr_n i)
             (elem2 mem den_to stride_den_to_d stride_to_n j) len_n).
End RatioSpec.

(** The ratio of pair [(i,j)] within one set of points, as [pdist_ratio]
    sees it. *)
Definition pdist_sq_ratio (mem : memory) (len_m len_n : npy_intp) (num den : addr)
    (stride_num_d stride_m stride_den_d stride_n : npy_intp) (ij : Z * Z) : npy_double :=
  sq_ratio mem len_m len_n num num den den
    stride_num_d stride_m stride_num_d stride_m
    stride_den_d stride_n stride_den_d stride_n ij.

(** Cell [(m,p)] of the product: the accumulation from zero of
    [X[m,n] * Y[n,p]] for [n = 0 .. len_n - 1], in that order. *)
Definition matmul_cell (mem : memory) (len_n : npy_intp) (X Y : addr)
    (stride_x_m stride_x_n stride_y_n stride_y_p : npy_intp) (m p : Z) : npy_double :=
  fold_left
    (fun acc n => d_add acc (d_mul (elem2 mem X stride_x_m stride_x_n m n)
                                   (elem2 mem Y stride_y_n stride_y_p n p)))
    (zrange 0 len_n) d_zero.

(** Sum of the squares of the first [len_n] elements, from zero, in index
    order. *)
Definition sum_squares (x : Z -> npy_double) (len_n : Z) : npy_double :=
  fold_left (fun acc n => d_add acc (d_mul (x n) (x n))) (zrange 0 len_n) d_zero.

(** The Cartesian product of the index ranges of the batch axes in
    row-major order: the last axis varies fastest. *)
Fixpoint row_major (sizes : list Z) : list (list Z) :=
  match sizes with
  | [] => [[]]
  | n :: rest => flat_map (fun i => map (cons i) (row_major rest)) (zrange 0 n)
  end.

(** The index tuples from [idx] on, in row-major order. *)
Fixpoint row_major_from (sizes : list Z) (idx : list Z) : list (list Z) :=
  match sizes, idx with
  | n :: rest, i :: idx' =>
      map (cons i) (row_major_from rest idx')
      ++ flat_map (fun i' => map (cons i') (row_major rest)) (zrange (i + 1) n)
  | _, _ => [[]]
  end.

(** The operand addresses at an index tuple: the initial addresses plus,
    for every axis, index times stride. *)
Fixpoint address_at (axes : BatchDescriptor) (args : list addr) (idx : list Z) : list addr :=
  match axes, idx with
  | ax :: axes', i :: idx' => address_at axes' (advance args (ax_strides ax) i) idx'
  | _, _ => args
  end.

(** The offset of operand [k] at an index tuple: the sum over the axes of
    index times the operand's stride along the axis. *)
Fixpoint offset_at (axes : BatchDescriptor) (idx : list Z) (k : nat) : Z :=
  match axes, idx with
  | ax :: axes', i :: idx' => i * nth k (ax_strides ax) 0 + offset_at axes' idx' k
  | _, _ => 0
  end.

(** An index tuple of the batch: one index per axis, below its size. *)
Definition in_batch (axes : BatchDescriptor) (idx : list Z) : Prop :=
  Forall2 (fun ax i => 0 <= i < ax_size ax) axes idx.

(** The product of the batch-axis sizes. *)
Definition batch_count (axes : BatchDescriptor) : Z :=
  fold_right Z.mul 1 (map ax_size axes).


(** * Concrete data *)

(** Three points on a line, coordinates 0, 3 and 4 at addresses 0, 8 and
    16, and three more, coordinates 0, 1 and 2, at 24, 32 and 40. *)
Definition mem_points : memory := array_mem (map d_of_Z [0; 3; 4; 0; 1; 2]).

(** Two coincident points, both of coordinate 5, at addresses 0 and 8. *)
Definition mem_coincident : memory := array_mem [d_of_Z 5; d_of_Z 5].

(** The matrices [[1 2] [3 4]] at address 0 and [[5 6] [7 8]] at address
    32, row by row. *)
Definition mem_matrices : memory := array_mem (map d_of_Z [1; 2; 3; 4; 5; 6; 7; 8]).

(** The matrix [[1 2] [3 4]] at address 0 and the identity at address 32. *)
Definition mem_identity : memory := array_mem (map d_of_Z [1; 2; 3; 4; 1; 0; 0; 1]).

(** The 1x1 matrix [[-0.0]] at address 0 and the 1x1 identity at address 8. *)
Definition mem_negzero : memory := array_mem [d_negzero; d_one].

(** The 1x2 matrix [[inf 1]] at address 0 and the identity at address 16. *)
Definition mem_infinite : memory :=
  array_mem [d_inf; d_one; d_one; d_zero; d_zero; d_one].

(** Three sets of three points on a line: 0, 3, 4 at address 0; 0, 1, 2 at
    address 24; 0, 2, 4 at address 48. *)
Definition mem_batch : memory := array_mem (map d_of_Z [0; 3; 4; 0; 1; 2; 0; 2; 4]).

(** A batch of two [pdist_ratio] problems on [mem_batch]: each of the four
    operands moves to its next element from one problem to the next. *)
Definition batch_pdist : BatchDescriptor :=
  [ {| ax_size := 2; ax_strides := [24; 24; 8; 8] |} ].

(** The vector (3, 4) at address 0. *)
Definition mem_vector : memory := array_mem (map d_of_Z [3; 4]).

(** A batch of shape (2,3) over two operands, with the strides of two
    contiguous arrays of doubles. *)
Definition batch_2x3 : BatchDescriptor :=
  [ {| ax_size := 2; ax_strides := [24; 24] |};
    {| ax_size := 3; ax_strides := [8; 8] |} ].

(** A batch with an empty axis. *)
Definition batch_2x0 : BatchDescriptor :=
  [ {| ax_size := 2; ax_strides := [0; 0] |};
    {| ax_size := 0; ax_strides := [8; 8] |} ].

(** * The helpers of [gufunc_fortran.h] *)

Module gufunc_fortran.

(** [fortran_int] is [int]: an integer of 32 bits.  The two functions
    below only compare and select, so they are modelled on [Z]. *)
Definition fortran_int := Z.

Definition in_fortran_int (x : Z) : Prop := - 2 ^ 31 <= x < 2 ^ 31.

Definition fortran_int_min (x y : fortran_int) : fortran_int :=
  if x <? y then x else y.

Definition fortran_int_max (x y : fortran_int) : fortran_int :=
  if x >? y then x else y.

(** How to linearize a matrix in a local buffer. *)
Record LINEARIZE_DATA_t := {
  rows : npy_intp;
  columns : npy_intp;
  row_strides : npy_intp;
  column_strides : npy_intp;
  output_lead_dim : npy_intp
}.

Definition init_linearize_data_ex (rows columns row_strides column_strides
    output_lead_dim : npy_intp) : LINEARIZE_DATA_t :=
  {| rows := rows;
     columns := columns;
     row_strides := row_strides;
     column_strides := column_strides;
     output_lead_dim := output_lead_dim |}.

Definition init_linearize_data (rows columns row_strides column_strides : npy_intp)
    : LINEARIZE_DATA_t :=
  init_linearize_data_ex rows columns row_strides column_strides columns.

(** How to linearize a vector in a local buffer. *)
Record LINEARIZE_VDATA_t := {
  len : npy_intp;
  strides : npy_intp
}.

Definition init_linearize_vdata (len strides : npy_intp) : LINEARIZE_VDATA_t :=
  {| len := len; strides := strides |}.

End gufunc_fortran.
(** * Loops and ranges *)

Lemma iter_from_fold (St : Type) (body : Z -> St -> St) (n : nat) :
  forall (i : Z) (s : St),
    iter_from n i body s
    = fold_left (fun s k => body k s) (map (fun k => i + Z.of_nat k) (seq 0 n)) s.
Proof.
  induction n as [|n IH]; intros i s; [reflexivity|].
  cbn [iter_from seq map fold_left].
  rewrite IH, <- seq_shift, map_map.
  replace (i + Z.of_nat 0) with i by lia.
  f_equal. apply map_ext. intros k. lia.
Qed.

Lemma for_loop_fold (St : Type) (lo hi : Z) (body : Z -> St -> St) (s : St) :
  for_loop lo hi body s = fold_left (fun s k => body k s) (zrange lo hi) s.
Proof. apply iter_from_fold. Qed.

Lemma zrange_nil (lo hi : Z) : hi <= lo -> zrange lo hi = [].
Proof.
  intros H. unfold zrange. replace (Z.to_nat (hi - lo)) with O by lia. reflexivity.
Qed.

Lemma zrange_cons (lo hi : Z) : lo < hi -> zrange lo hi = lo :: zrange (lo + 1) hi.
Proof.
  intros H. unfold zrange.
  replace (Z.to_nat (hi - lo)) with (S (Z.to_nat (hi - (lo + 1)))) by lia.
  cbn [seq map]. rewrite <- seq_shift, map_map.
  f_equal; [lia|]. apply map_ext. intros k. lia.
Qed.

Lemma zrange_snoc (lo hi : Z) : lo <= hi -> zrange lo (hi + 1) = zrange lo hi ++ [hi].
Proof.
  intros H. unfold zrange.
  replace (Z.to_nat (hi + 1 - lo)) with (Z.to_nat (hi - lo) + 1)%nat by lia.
  rewrite seq_app, map_app. cbn [seq map]. do 2 f_equal. lia.
Qed.

Lemma zrange_In (lo hi k : Z) : In k (zrange lo hi) <-> lo <= k < hi.
Proof.
  unfold zrange. rewrite in_map_iff. split.
  - intros (n & <- & Hn). apply in_seq in Hn. lia.
  - intros H. exists (Z.to_nat (k - lo)). split; [lia|]. apply in_seq. lia.
Qed.

Lemma zrange_length (lo hi : Z) : length (zrange lo hi) = Z.to_nat (hi - lo).
Proof. unfold zrange. now rewrite length_map, length_seq. Qed.

Lemma NoDup_map_on (A B : Type) (f : A -> B) (l : list A) :
  (forall x y, In x l -> In y l -> f x = f y -> x = y) ->
  NoDup l -> NoDup (map f l).
Proof.
  intros Hinj Hnd. induction Hnd as [|a l Hnotin Hnd IH]; cbn; constructor.
  - rewrite in_map_iff. intros (b & Hb & Hin).
    apply Hnotin. rewrite (Hinj a b); auto; [now left|now right].
  - apply IH. intros x y Hx Hy. apply Hinj; now right.
Qed.

Lemma zrange_NoDup (lo hi : Z) : NoDup (zrange lo hi).
Proof.
  unfold zrange. apply NoDup_map_on; [|apply seq_NoDup].
  intros a b _ _. lia.
Qed.

Lemma zrange_split (lo mid hi : Z) :
  lo <= mid <= hi -> zrange lo hi = zrange lo mid ++ zrange mid hi.
Proof.
  intros H. remember (Z.to_nat (mid - lo)) as n eqn:Hn.
  revert lo Hn H. induction n as [|n IH]; intros lo Hn H.
  - assert (mid = lo) by lia. subst mid.
    now rewrite (zrange_nil (lo:=lo) (hi:=lo)) by lia.
  - rewrite (zrange_cons (lo:=lo) (hi:=hi)), (zrange_cons (lo:=lo) (hi:=mid)) by lia.
    cbn [app]. f_equal. apply IH; lia.
Qed.

(** A loop invariant: what holds before the loop and is kept by every
    iteration in range holds when the loop is left. *)
Lemma for_loop_invariant (St : Type) (P : Z -> St -> Prop) (lo hi : Z)
    (body : Z -> St -> St) (s : St) :
  P lo s ->
  (forall i t, lo <= i < hi -> P i t -> P (i + 1) (body i t)) ->
  P (Z.max lo hi) (for_loop lo hi body s).
Proof.
  intros H0 Hstep. unfold for_loop.
  destruct (Z_le_gt_dec hi lo) as [Hle|Hgt].
  - replace (Z.to_nat (hi - lo)) with O by lia. cbn.
    now replace (Z.max lo hi) with lo by lia.
  - replace (Z.max lo hi) with (lo + Z.of_nat (Z.to_nat (hi - lo))) by lia.
    assert (Hb : (Z.of_nat (Z.to_nat (hi - lo)) <= hi - lo)) by lia.
    revert Hb. generalize (Z.to_nat (hi - lo)) as n.
    intros n. revert s H0. clear Hgt.
    assert (G : forall n i s, lo <= i -> i + Z.of_nat n <= hi -> P i s ->
                P (i + Z.of_nat n) (iter_from n i body s)).
    { clear n. induction n as [|n IH]; intros i s Hi Hn Hp.
      - cbn. now replace (i + 0) with i by lia.
      - cbn [iter_from].
        replace (i + Z.of_nat (S n)) with ((i + 1) + Z.of_nat n) by lia.
        apply IH; [lia|lia|]. apply Hstep; [lia|assumption]. }
    intros s H0 Hb. apply G; [lia|lia|assumption].
Qed.

Lemma zrange_max (lo hi : Z) : zrange lo (Z.max lo hi) = zrange lo hi.
Proof.
  destruct (Z_le_gt_dec hi lo) as [H|H].
  - rewrite !zrange_nil by lia. reflexivity.
  - now replace (Z.max lo hi) with hi by lia.
Qed.

Lemma fold_left_map_fuse (A B C : Type) (g : A -> C -> A) (f : B -> C) (l : list B) :
  forall a, fold_left g (map f l) a = fold_left (fun a x => g a (f x)) l a.
Proof. induction l as [|x l IH]; intros a; cbn; [reflexivity|apply IH]. Qed.

Lemma fold_left_snoc (A B : Type) (g : A -> B -> A) (l : list B) (x : B) (a : A) :
  fold_left g (l ++ [x]) a = g (fold_left g l a) x.
Proof. now rewrite fold_left_app. Qed.

Lemma filter_flat_map (A B : Type) (p : B -> bool) (g : A -> list B) (l : list A) :
  filter p (flat_map g l) = flat_map (fun a => filter p (g a)) l.
Proof.
  induction l as [|a l IH]; cbn; [reflexivity|].
  now rewrite filter_app, IH.
Qed.

Lemma filter_all (A : Type) (p : A -> bool) (l : list A) :
  (forall x, In x l -> p x = true) -> filter p l = l.
Proof.
  induction l as [|a l IH]; cbn; intros H; [reflexivity|].
  rewrite (H a) by now left. f_equal. apply IH. intros x Hx. apply H. now right.
Qed.

Lemma filter_none (A : Type) (p : A -> bool) (l : list A) :
  (forall x, In x l -> p x = false) -> filter p l = [].
Proof.
  induction l as [|a l IH]; cbn; intros H; [reflexivity|].
  rewrite (H a) by now left. apply IH. intros x Hx. apply H. now right.
Qed.

(** * The strided vector accessor *)

(** After the loop of [DOUBLE_dist] both cursors have moved [len] elements
    on and the accumulator holds the accumulated squared differences. *)
Lemma DOUBLE_dist_loop_spec (mem : memory) (X Y : addr) (dist : npy_double)
    (x_in y_in : LINEARIZE_DATA_t) :
  let s := for_loop 0 (len x_in) (fun _ => DOUBLE_dist_step mem x_in y_in)
             {| dist_X := X; dist_Y := Y; dist_acc := dist |} in
  dist_X s = X + Z.max 0 (len x_in) * strides x_in
  /\ dist_Y s = Y + Z.max 0 (len x_in) * strides y_in
  /\ dist_acc s = sq_dist_from dist (elem1 mem X (strides x_in))
                    (elem1 mem Y (strides y_in)) (len x_in).
Proof.
  cbv zeta.
  pose (P := fun i s => dist_X s = X + i * strides x_in
                        /\ dist_Y s = Y + i * strides y_in
                        /\ dist_acc s = sq_dist_from dist (elem1 mem X (strides x_in))
                                          (elem1 mem Y (strides y_in)) i).
  assert (H : P (Z.max 0 (len x_in))
                (for_loop 0 (len x_in) (fun _ => DOUBLE_dist_step mem x_in y_in)
                   {| dist_X := X; dist_Y := Y; dist_acc := dist |})).
  { apply for_loop_invariant; unfold P.
    - cbn. repeat split; lia.
    - intros i t Hi (HX & HY & Hacc). cbn. repeat split; try lia.
      unfold sq_dist_from. rewrite zrange_snoc, fold_left_snoc by lia.
      unfold sq_dist_from in Hacc. rewrite <- Hacc.
      unfold sq_diff, elem1, load. now rewrite HX, HY. }
  destruct H as (HX & HY & Hacc). repeat split; try assumption.
  rewrite Hacc. unfold sq_dist_from. now rewrite zrange_max.
Qed.

(** Advancing a cursor [len] times and rewinding it by [back_strides]
    brings it back to where it started (section 4.1 of the
    specification). *)
Lemma DOUBLE_dist_rewinds (mem : memory) (X Y : addr) (dist : npy_double)
    (len_x stride_x len_y stride_y : npy_intp) :
  0 <= len_x -> len_y = len_x ->
  let s := DOUBLE_dist_run mem X Y dist (init_linearize_vdata len_x stride_x)
             (init_linearize_vdata len_y stride_y) in
  dist_X s = X /\ dist_Y s = Y.
Proof.
  intros Hlen ->. cbv zeta. unfold DOUBLE_dist_run.
  destruct (DOUBLE_dist_loop_spec mem X Y dist (init_linearize_vdata len_x stride_x)
              (init_linearize_vdata len_x stride_y)) as (HX & HY & _).
  cbn [dist_X dist_Y]. rewrite HX, HY. cbn [len strides back_strides init_linearize_vdata].
  rewrite Z.max_r by lia. split; lia.
Qed.

Lemma DOUBLE_dist_spec (mem : memory) (X Y : addr) (dist : npy_double)
    (x_in y_in : LINEARIZE_DATA_t) :
  DOUBLE_dist mem X Y dist x_in y_in
  = sq_dist_from dist (elem1 mem X (strides x_in)) (elem1 mem Y (strides y_in)) (len x_in).
Proof.
  unfold DOUBLE_dist, DOUBLE_dist_run. cbn [dist_acc].
  apply DOUBLE_dist_loop_spec.
Qed.

(** * The ratio loops *)

Section ToLoop.
Variable mem : memory.
Variables len_m len_n : npy_intp.
Variables num_fr num_to den_fr den_to : addr.
Variables stride_num_fr_d stride_fr_m stride_num_to_d stride_to_m : npy_intp.
Variables stride_den_fr_d stride_fr_n stride_den_to_d stride_to_n : npy_intp.

Let ratio := sq_ratio mem len_m len_n num_fr num_to den_fr den_to
               stride_num_fr_d stride_fr_m stride_num_to_d stride_to_m
               stride_den_fr_d stride_fr_n stride_den_to_d stride_to_n.

Let step (i : Z) :=
  dist_ratio_step mem
    (init_linearize_vdata len_m stride_fr_m) (init_linearize_vdata len_m stride_to_m)
    (init_linearize_vdata len_n stride_fr_n) (init_linearize_vdata len_n stride_to_n)
    stride_num_to_d stride_den_to_d
    (num_fr + i * stride_num_fr_d) (den_fr + i * stride_den_fr_d).

(** One pass of the [d2] loop: with the "from" cursors at point [i] and the
    "to" cursors at point [j], the ratio compared is the one of pair
    [(i,j)]. *)
Lemma dist_ratio_step_spec (i j : Z) (t : ratio_state) :
  ip_num t = num_to + j * stride_num_to_d ->
  ip_den t = den_to + j * stride_den_to_d ->
  step i t
  = {| ip_num := num_to + (j + 1) * stride_num_to_d;
       ip_den := den_to + (j + 1) * stride_den_to_d;
       dr_min := update_min (ratio (i, j)) (dr_min t);
       dr_max := update_max (ratio (i, j)) (dr_max t) |}.
Proof.
  intros Hn Hd. unfold step, dist_ratio_step. rewrite !DOUBLE_dist_spec.
  cbn [len strides init_linearize_vdata]. rewrite Hn, Hd.
  f_equal; lia.
Qed.

Lemma to_loop_spec (i lo hi : Z) (t0 : ratio_state) :
  ip_num t0 = num_to + lo * stride_num_to_d ->
  ip_den t0 = den_to + lo * stride_den_to_d ->
  let t := for_loop lo hi (fun _ => step i) t0 in
  dr_min t = fold_left (fun m r => update_min r m)
               (map ratio (map (pair i) (zrange lo hi))) (dr_min t0)
  /\ dr_max t = fold_left (fun m r => update_max r m)
                  (map ratio (map (pair i) (zrange lo hi))) (dr_max t0).
Proof.
  intros Hn Hd. cbv zeta.
  pose (P := fun j t =>
               ip_num t = num_to + j * stride_num_to_d
               /\ ip_den t = den_to + j * stride_den_to_d
               /\ dr_min t = fold_left (fun m r => update_min r m)
                               (map ratio (map (pair i) (zrange lo j))) (dr_min t0)
               /\ dr_max t = fold_left (fun m r => update_max r m)
                               (map ratio (map (pair i) (zrange lo j))) (dr_max t0)).
  assert (H : P (Z.max lo hi) (for_loop lo hi (fun _ => step i) t0)).
  { apply for_loop_invariant; unfold P.
    - rewrite zrange_nil by lia. cbn. auto.
    - intros j t Hj (Hnj & Hdj & Hmin & Hmax).
      rewrite (dist_ratio_step_spec i j t Hnj Hdj). cbn [ip_num ip_den dr_min dr_max].
      rewrite zrange_snoc by lia. rewrite !map_app. cbn [map].
      rewrite !fold_left_snoc, <- Hmin, <- Hmax. auto. }
  destruct H as (_ & _ & Hmin & Hmax). rewrite zrange_max in Hmin, Hmax. auto.
Qed.
End ToLoop.

Lemma flat_map_ext_on (A B : Type) (f g : A -> list B) (l : list A) :
  (forall a, In a l -> f a = g a) -> flat_map f l = flat_map g l.
Proof.
  induction l as [|a l IH]; cbn; intros H; [reflexivity|].
  rewrite (H a) by now left. f_equal. apply IH. intros x Hx. apply H. now right.
Qed.

(** The pairs in the order the two loops of [pdist_ratio] visit them. *)
Lemma pairs_lt_loops (D : Z) :
  pairs_lt D = flat_map (fun i => map (pair i) (zrange (i + 1) D)) (zrange 0 (D - 1)).
Proof.
  unfold pairs_lt, cross. rewrite filter_flat_map.
  assert (Hrow : forall i, 0 <= i < D ->
            filter (fun ij => fst ij <? snd ij) (map (pair i) (zrange 0 D))
            = map (pair i) (zrange (i + 1) D)).
  { intros i Hi. rewrite (zrange_split (lo:=0) (mid:=i + 1) (hi:=D)) by lia.
    rewrite map_app, filter_app, filter_none, filter_all; [reflexivity| |].
    - intros [a b] Hin. apply in_map_iff in Hin as (j & [= <- <-] & Hj).
      apply zrange_In in Hj. cbn. lia.
    - intros [a b] Hin. apply in_map_iff in Hin as (j & [= <- <-] & Hj).
      apply zrange_In in Hj. cbn. lia. }
  destruct (Z_le_gt_dec D 0) as [HD|HD].
  - rewrite !zrange_nil by lia. reflexivity.
  - replace D with ((D - 1) + 1) at 1 by lia.
    rewrite zrange_snoc, flat_map_app by lia. cbn [flat_map].
    rewrite (Hrow (D - 1)) by lia.
    replace (D - 1 + 1) with D by lia.
    rewrite (zrange_nil (lo:=D) (hi:=D)) by lia. cbn [map]. rewrite !app_nil_r.
    apply flat_map_ext_on.
    intros i Hi. apply zrange_In in Hi. apply Hrow. lia.
Qed.

Lemma cross_In (P R i j : Z) : In (i, j) (cross P R) <-> 0 <= i < P /\ 0 <= j < R.
Proof.
  unfold cross. rewrite in_flat_map. split.
  - intros (a & Ha & Hin). apply in_map_iff in Hin as (b & [= <- <-] & Hb).
    apply zrange_In in Ha. apply zrange_In in Hb. lia.
  - intros (Hi & Hj). exists i. split; [apply zrange_In; lia|].
    apply in_map. apply zrange_In. lia.
Qed.

Lemma NoDup_flat_map (A B : Type) (g : A -> list B) (l : list A) :
  NoDup l ->
  (forall a, In a l -> NoDup (g a)) ->
  (forall a a' b, In a l -> In a' l -> In b (g a) -> In b (g a') -> a = a') ->
  NoDup (flat_map g l).
Proof.
  intros Hnd. induction Hnd as [|a l Hnotin Hnd IH]; intros Hg Hdisj; cbn.
  - constructor.
  - apply NoDup_app.
    + apply Hg. now left.
    + apply IH.
      * intros x Hx. apply Hg. now right.
      * intros x x' b Hx Hx'. apply Hdisj; now right.
    + intros b Hb Hbl. apply in_flat_map in Hbl as (a' & Ha' & Hb').
      assert (a' = a) by (apply (Hdisj a' a b); auto; [now right|now left]).
      subst a'. contradiction.
Qed.

Lemma cross_NoDup (P R : Z) : NoDup (cross P R).
Proof.
  unfold cross. apply NoDup_flat_map.
  - apply zrange_NoDup.
  - intros i _. apply NoDup_map_on; [|apply zrange_NoDup]. now intros x y _ _ [= ->].
  - intros i i' [a b] _ _ H H'.
    apply in_map_iff in H as (j & [= <- <-] & _).
    apply in_map_iff in H' as (j' & [= <- _] & _). reflexivity.
Qed.

Lemma cross_length (P R : Z) :
  0 <= P -> 0 <= R -> Z.of_nat (length (cross P R)) = P * R.
Proof.
  intros HP HR. unfold cross.
  assert (G : forall l : list Z,
             Z.of_nat (length (flat_map (fun i => map (pair i) (zrange 0 R)) l))
             = Z.of_nat (length l) * R).
  { induction l as [|a l IH]; cbn [flat_map length]; [lia|].
    rewrite length_app, length_map, zrange_length. lia. }
  rewrite G, zrange_length. lia.
Qed.

Lemma pairs_lt_In (D i j : Z) : In (i, j) (pairs_lt D) <-> 0 <= i < j /\ j < D.
Proof.
  unfold pairs_lt. rewrite filter_In, cross_In. cbn. lia.
Qed.

Lemma pairs_lt_NoDup (D : Z) : NoDup (pairs_lt D).
Proof. apply NoDup_filter, cross_NoDup. Qed.

(** There are [D (D - 1) / 2] unordered pairs among [D] points. *)
Lemma pairs_lt_length (D : Z) :
  0 <= D -> 2 * Z.of_nat (length (pairs_lt D)) = D * (D - 1).
Proof.
  intros HD. rewrite pairs_lt_loops.
  assert (G : forall n lo, lo = D - 1 - Z.of_nat n -> 0 <= lo ->
             2 * Z.of_nat (length (flat_map (fun i => map (pair i) (zrange (i + 1) D))
                                     (zrange lo (D - 1))))
             = Z.of_nat n * (Z.of_nat n + 1)).
  { induction n as [|n IH]; intros lo Hlo Hpos.
    - rewrite zrange_nil by lia. cbn. lia.
    - rewrite zrange_cons by lia. cbn [flat_map].
      rewrite length_app, length_map, zrange_length, Nat2Z.inj_add.
      rewrite Z.mul_add_distr_l, (IH (lo + 1)) by lia. nia. }
  destruct (Z.eq_dec D 0) as [->|Hne].
  - cbn. lia.
  - rewrite (G (Z.to_nat (D - 1)) 0) by lia. nia.
Qed.

Lemma pairs_neq_In (D i j : Z) :
  In (i, j) (pairs_neq D) <-> 0 <= i < D /\ 0 <= j < D /\ i <> j.
Proof.
  unfold pairs_neq. rewrite filter_In, cross_In. cbn.
  rewrite negb_true_iff, Z.eqb_neq. tauto.
Qed.

Section PdistLoops.
Variable mem : memory.
Variables len_d len_m len_n : npy_intp.
Variables stride_num_d stride_m stride_den_d stride_n : npy_intp.
Variables args0 args1 : addr.

Let ratio := pdist_sq_ratio mem len_m len_n args0 args1
               stride_num_d stride_m stride_den_d stride_n.

Lemma pdist_ratio_loops_spec :
  let s := pdist_ratio_loops mem len_d len_m len_n
             stride_num_d stride_m stride_den_d stride_n args0 args1 in
  dr_min s = running_min (map ratio (pairs_lt len_d))
  /\ dr_max s = running_max (map ratio (pairs_lt len_d)).
Proof.
  cbv zeta. rewrite pairs_lt_loops. unfold running_min, running_max, pdist_ratio_loops.
  set (row := fun i => map (pair i) (zrange (i + 1) len_d)).
  pose (P := fun i s =>
               ip_num s = args0 + i * stride_num_d
               /\ ip_den s = args1 + i * stride_den_d
               /\ dr_min s = fold_left (fun m r => update_min r m)
                               (map ratio (flat_map row (zrange 0 i))) d_inf
               /\ dr_max s = fold_left (fun m r => update_max r m)
                               (map ratio (flat_map row (zrange 0 i))) d_zero).
  match goal with |- dr_min ?s = _ /\ _ => assert (H : P (Z.max 0 (len_d - 1)) s) end.
  { apply for_loop_invariant; unfold P.
    - cbn. repeat split; lia.
    - intros i s Hi (Hn & Hd & Hmin & Hmax).
      unfold pdist_from_step, pdist_num_in, pdist_den_in.
      cbn [ip_num ip_den dr_min dr_max]. rewrite Hn, Hd.
      match goal with |- context [for_loop (i + 1) len_d ?b ?t0] =>
        destruct (to_loop_spec mem len_m len_n args0 args0 args1 args1
                    stride_num_d stride_m stride_num_d stride_m
                    stride_den_d stride_n stride_den_d stride_n
                    i (i + 1) len_d t0) as (Hmin' & Hmax')
      end; [cbn; lia|cbn; lia|].
      rewrite Hmin', Hmax'. cbn [dr_min dr_max].
      rewrite zrange_snoc, flat_map_app by lia. cbn [flat_map].
      rewrite app_nil_r, !map_app, !fold_left_app, <- Hmin, <- Hmax.
      repeat split; try lia; reflexivity. }
  destruct H as (_ & _ & Hmin & Hmax). rewrite zrange_max in Hmin, Hmax. auto.
Qed.
End PdistLoops.

Section CdistLoops.
Variable mem : memory.
Variables len_fr_d len_m len_to_d len_n : npy_intp.
Variables stride_num_fr_d stride_fr_m stride_num_to_d stride_to_m : npy_intp.
Variables stride_den_fr_d stride_fr_n stride_den_to_d stride_to_n : npy_intp.
Variables args0 args1 args2 args3 : addr.

Let ratio := sq_ratio mem len_m len_n args0 args1 args2 args3
               stride_num_fr_d stride_fr_m stride_num_to_d stride_to_m
               stride_den_fr_d stride_fr_n stride_den_to_d stride_to_n.

Lemma cdist_ratio_loops_spec :
  let s := cdist_ratio_loops mem len_fr_d len_m len_to_d len_n
             stride_num_fr_d stride_fr_m stride_num_to_d stride_to_m
             stride_den_fr_d stride_fr_n stride_den_to_d stride_to_n
             args0 args1 args2 args3 in
  dr_min s = running_min (map ratio (cross len_fr_d len_to_d))
  /\ dr_max s = running_max (map ratio (cross len_fr_d len_to_d)).
Proof.
  cbv zeta. unfold running_min, running_max, cdist_ratio_loops, cross.
  set (row := fun i => map (pair i) (zrange 0 len_to_d)).
  pose (P := fun i s =>
               ip_num s = args0 + i * stride_num_fr_d
               /\ ip_den s = args2 + i * stride_den_fr_d
               /\ dr_min s = fold_left (fun m r => update_min r m)
                               (map ratio (flat_map row (zrange 0 i))) d_inf
               /\ dr_max s = fold_left (fun m r => update_max r m)
                               (map ratio (flat_map row (zrange 0 i))) d_zero).
  match goal with |- dr_min ?s = _ /\ _ => assert (H : P (Z.max 0 len_fr_d) s) end.
  { apply for_loop_invariant; unfold P.
    - cbn. repeat split; lia.
    - intros i s Hi (Hn & Hd & Hmin & Hmax).
      unfold cdist_from_step, cdist_num_fr_in, cdist_num_to_in,
        cdist_den_fr_in, cdist_den_to_in.
      cbn [ip_num ip_den dr_min dr_max]. rewrite Hn, Hd.
      match goal with |- context [for_loop 0 len_to_d ?b ?t0] =>
        destruct (to_loop_spec mem len_m len_n args0 args1 args2 args3
                    stride_num_fr_d stride_fr_m stride_num_to_d stride_to_m
                    stride_den_fr_d stride_fr_n stride_den_to_d stride_to_n
                    i 0 len_to_d t0) as (Hmin' & Hmax')
      end; [cbn; lia|cbn; lia|].
      rewrite Hmin', Hmax'. cbn [dr_min dr_max].
      rewrite zrange_snoc, flat_map_app by lia. cbn [flat_map].
      rewrite app_nil_r, !map_app, !fold_left_app, <- Hmin, <- Hmax.
      repeat split; try lia; reflexivity. }
  destruct H as (_ & _ & Hmin & Hmax). rewrite zrange_max in Hmin, Hmax. auto.
Qed.
End CdistLoops.

Lemma pairs_lt_few (D : Z) : D < 2 -> pairs_lt D = [].
Proof. intros H. rewrite pairs_lt_loops, zrange_nil by lia. reflexivity. Qed.

Lemma cross_empty (P R : Z) : P <= 0 \/ R <= 0 -> cross P R = [].
Proof.
  unfold cross. intros [H|H].
  - rewrite (zrange_nil (lo:=0) (hi:=P)) by lia. reflexivity.
  - rewrite (zrange_nil (lo:=0) (hi:=R)) by lia. cbn [map].
    induction (zrange 0 P); cbn; auto.
Qed.



(** * norm *)

Lemma norm_loop_spec (mem : memory) (len_n stride_n : npy_intp) (args0 : addr) :
  normsq (for_loop 0 len_n (fun _ => norm_step mem stride_n)
            {| norm_ip_x := args0; normsq := d_zero |})
  = sum_squares (elem1 mem args0 stride_n) len_n.
Proof.
  pose (P := fun i s =>
               norm_ip_x s = args0 + i * stride_n
               /\ normsq s = sum_squares (elem1 mem args0 stride_n) i).
  match goal with |- normsq ?s = _ => assert (H : P (Z.max 0 len_n) s) end.
  { apply for_loop_invariant; unfold P.
    - cbn. split; [lia|reflexivity].
    - intros i s Hi (Hx & Hsq). cbn [norm_step norm_ip_x normsq]. split; [lia|].
      unfold sum_squares. rewrite zrange_snoc, fold_left_snoc by lia.
      unfold sum_squares in Hsq. rewrite <- Hsq. unfold elem1. now rewrite Hx. }
  destruct H as (_ & ->). unfold sum_squares. now rewrite zrange_max.
Qed.


(** * matmul *)

Lemma load_store_same (mem : memory) (p : addr) (v : npy_double) :
  load (store mem p v) p = v.
Proof. unfold load, store. now destruct (Z.eq_dec p p). Qed.

Lemma load_store_other (mem : memory) (p q : addr) (v : npy_double) :
  q <> p -> load (store mem p v) q = load mem q.
Proof. intros H. unfold load, store. now destruct (Z.eq_dec q p). Qed.

Section MatmulProof.
Variables len_m len_n len_p : npy_intp.
Variables stride_x_m stride_x_n stride_y_n stride_y_p stride_z_m stride_z_p : npy_intp.
Variable mem0 : memory.
Variables X Y Zb : addr.

Let x_addr := cell_addr X stride_x_m stride_x_n.
Let y_addr := cell_addr Y stride_y_n stride_y_p.
Let z_addr := cell_addr Zb stride_z_m stride_z_p.
Let cell := matmul_cell mem0 len_n X Y stride_x_m stride_x_n stride_y_n stride_y_p.

Hypothesis len_n_nonneg : 0 <= len_n.
Hypothesis len_p_nonneg : 0 <= len_p.

(** The output cells are distinct objects, and none of them is a cell of
    an input. *)
Hypothesis z_cells_distinct :
  forall m p m' p',
    0 <= m < len_m -> 0 <= p < len_p -> 0 <= m' < len_m -> 0 <= p' < len_p ->
    z_addr m p = z_addr m' p' -> m = m' /\ p = p'.
Hypothesis z_not_x :
  forall m p m' n,
    0 <= m < len_m -> 0 <= p < len_p -> 0 <= m' < len_m -> 0 <= n < len_n ->
    z_addr m p <> x_addr m' n.
Hypothesis z_not_y :
  forall m p n p',
    0 <= m < len_m -> 0 <= p < len_p -> 0 <= n < len_n -> 0 <= p' < len_p ->
    z_addr m p <> y_addr n p'.

(** The cells before [(m,p)] in row-major order hold their product; the
    rest of the memory is as it was. *)
Let Inv (m p : Z) (mem : memory) : Prop :=
  (forall m' p', 0 <= m' < len_m -> 0 <= p' < len_p ->
                 m' < m \/ (m' = m /\ p' < p) ->
                 load mem (z_addr m' p') = cell m' p')
  /\ (forall a, (forall m' p', 0 <= m' < len_m -> 0 <= p' < len_p ->
                               m' < m \/ (m' = m /\ p' < p) -> a <> z_addr m' p') ->
                load mem a = load mem0 a).

Let partial (m p n : Z) : npy_double :=
  fold_left
    (fun acc k => d_add acc (d_mul (elem2 mem0 X stride_x_m stride_x_n m k)
                                   (elem2 mem0 Y stride_y_n stride_y_p k p)))
    (zrange 0 n) d_zero.

Lemma Inv_inputs (m p : Z) (mem : memory) :
  Inv m p mem ->
  (forall m' n, 0 <= m' < len_m -> 0 <= n < len_n ->
                load mem (x_addr m' n) = load mem0 (x_addr m' n))
  /\ (forall n p', 0 <= n < len_n -> 0 <= p' < len_p ->
                   load mem (y_addr n p') = load mem0 (y_addr n p')).
Proof.
  intros (_ & Hframe). split.
  - intros m' n Hm' Hn. apply Hframe. intros m2 p2 Hm2 Hp2 _ Heq.
    now apply (z_not_x Hm2 Hp2 Hm' Hn).
  - intros n p' Hn Hp'. apply Hframe. intros m2 p2 Hm2 Hp2 _ Heq.
    now apply (z_not_y Hm2 Hp2 Hn Hp').
Qed.

Lemma matmul_n_loop_spec (m p : Z) (mem : memory) :
  0 <= m < len_m -> 0 <= p < len_p -> Inv m p mem ->
  let s := for_loop 0 len_n (fun _ => matmul_n_step stride_x_n stride_y_n)
             {| ip_x := x_addr m 0; ip_y := y_addr 0 p; op_z := z_addr m p;
                mm_mem := store mem (z_addr m p) d_zero |} in
  ip_x s = x_addr m len_n /\ ip_y s = y_addr len_n p /\ op_z s = z_addr m p
  /\ forall a, mm_mem s a = store mem (z_addr m p) (cell m p) a.
Proof.
  intros Hm Hp HInv. destruct (Inv_inputs HInv) as (Hx & Hy). cbv zeta.
  pose (P := fun n s =>
               ip_x s = x_addr m n /\ ip_y s = y_addr n p /\ op_z s = z_addr m p
               /\ forall a, mm_mem s a = store mem (z_addr m p) (partial m p n) a).
  match goal with |- ip_x ?s = _ /\ _ => assert (H : P (Z.max 0 len_n) s) end.
  { apply for_loop_invariant; unfold P.
    - cbn. auto.
    - intros n s Hn (Hipx & Hipy & Hopz & Hmem).
      unfold matmul_n_step. cbn [ip_x ip_y op_z mm_mem].
      rewrite Hipx, Hipy, Hopz.
      repeat split; try (unfold x_addr, y_addr, cell_addr; lia).
      intros a. unfold partial. rewrite zrange_snoc, fold_left_snoc by lia.
      fold (partial m p n). unfold load at 1 2 3. rewrite !Hmem.
      fold (load (store mem (z_addr m p) (partial m p n)) (z_addr m p)).
      fold (load (store mem (z_addr m p) (partial m p n)) (x_addr m n)).
      fold (load (store mem (z_addr m p) (partial m p n)) (y_addr n p)).
      rewrite load_store_same.
      rewrite (load_store_other mem (p:=z_addr m p) (q:=x_addr m n))
        by (intros Heq; now apply (z_not_x Hm Hp Hm Hn)).
      rewrite (load_store_other mem (p:=z_addr m p) (q:=y_addr n p))
        by (intros Heq; now apply (z_not_y Hm Hp Hn Hp)).
      rewrite Hx, Hy by assumption.
      unfold store. destruct (Z.eq_dec a (z_addr m p)); [reflexivity|].
      rewrite Hmem. unfold store. now destruct (Z.eq_dec a (z_addr m p)). }
  destruct H as (Hipx & Hipy & Hopz & Hmem). rewrite Z.max_r in * by lia.
  auto.
Qed.

Lemma matmul_p_step_spec (m p : Z) (s : matmul_state) :
  0 <= m < len_m -> 0 <= p < len_p ->
  ip_x s = x_addr m 0 -> ip_y s = y_addr 0 p -> op_z s = z_addr m p ->
  Inv m p (mm_mem s) ->
  let s' := matmul_p_step len_n stride_x_n stride_y_n stride_y_p stride_z_p s in
  ip_x s' = x_addr m 0 /\ ip_y s' = y_addr 0 (p + 1) /\ op_z s' = z_addr m (p + 1)
  /\ Inv m (p + 1) (mm_mem s').
Proof.
  intros Hm Hp Hipx Hipy Hopz HInv. cbv zeta. unfold matmul_p_step.
  rewrite Hipx, Hipy, Hopz.
  destruct (matmul_n_loop_spec Hm Hp HInv) as (Hx' & Hy' & Hz' & Hmem).
  cbv zeta in Hx', Hy', Hz', Hmem.
  cbn [ip_x ip_y op_z mm_mem]. rewrite Hx', Hy', Hz'.
  unfold iback_x_n, iback_y_n.
  repeat split; try (unfold x_addr, y_addr, z_addr, cell_addr; lia).
  - intros m' p' Hm' Hp' Hlt. unfold load. rewrite Hmem. unfold store.
    destruct (Z.eq_dec (z_addr m' p') (z_addr m p)) as [Heq|Hne].
    + destruct (z_cells_distinct Hm' Hp' Hm Hp Heq) as (-> & ->). reflexivity.
    + apply (proj1 HInv); try assumption.
      destruct Hlt as [Hlt|(-> & Hlt)]; [now left|].
      destruct (Z.eq_dec p' p) as [->|Hpp]; [contradiction|]. right. lia.
  - intros a Ha. unfold load. rewrite Hmem. unfold store.
    destruct (Z.eq_dec a (z_addr m p)) as [->|Hne].
    + exfalso. apply (Ha m p Hm Hp); [right; lia|reflexivity].
    + apply (proj2 HInv). intros m' p' Hm' Hp' Hlt. apply Ha; try assumption. lia.
Qed.

Lemma matmul_m_step_spec (m : Z) (s : matmul_state) :
  0 <= m < len_m ->
  ip_x s = x_addr m 0 -> ip_y s = y_addr 0 0 -> op_z s = z_addr m 0 ->
  Inv m 0 (mm_mem s) ->
  let s' := matmul_m_step len_n len_p stride_x_m stride_x_n stride_y_n stride_y_p
              stride_z_m stride_z_p s in
  ip_x s' = x_addr (m + 1) 0 /\ ip_y s' = y_addr 0 0 /\ op_z s' = z_addr (m + 1) 0
  /\ Inv (m + 1) 0 (mm_mem s').
Proof.
  intros Hm Hipx Hipy Hopz HInv. cbv zeta. unfold matmul_m_step.
  pose (P := fun p t =>
               ip_x t = x_addr m 0 /\ ip_y t = y_addr 0 p /\ op_z t = z_addr m p
               /\ Inv m p (mm_mem t)).
  match goal with |- context [for_loop 0 len_p ?b s] =>
    assert (H : P (Z.max 0 len_p) (for_loop 0 len_p b s)) end.
  { apply for_loop_invariant; unfold P.
    - auto.
    - intros p t Hp (Hx' & Hy' & Hz' & HInv').
      now apply matmul_p_step_spec. }
  destruct H as (Hx' & Hy' & Hz' & HInv'). rewrite Z.max_r in * by lia.
  cbn [ip_x ip_y op_z mm_mem]. rewrite Hx', Hy', Hz'.
  unfold iback_y_p, iback_z_p.
  repeat split; try (unfold x_addr, y_addr, z_addr, cell_addr; lia).
  - intros m' p' Hm' Hp' Hlt. apply (proj1 HInv'); try assumption. lia.
  - intros a Ha. apply (proj2 HInv'). intros m' p' Hm' Hp' Hlt.
    apply Ha; try assumption. lia.
Qed.

Lemma matmul_loops_spec :
  Inv (Z.max 0 len_m) 0
    (DOUBLE_matmul_body len_m len_n len_p stride_x_m stride_x_n stride_y_n stride_y_p
       stride_z_m stride_z_p mem0 X Y Zb).
Proof.
  unfold DOUBLE_matmul_body, matmul_loops.
  pose (P := fun m t =>
               ip_x t = x_addr m 0 /\ ip_y t = y_addr 0 0 /\ op_z t = z_addr m 0
               /\ Inv m 0 (mm_mem t)).
  match goal with |- Inv _ _ (mm_mem ?t) => assert (H : P (Z.max 0 len_m) t) end.
  { apply for_loop_invariant; unfold P.
    - cbn [ip_x ip_y op_z mm_mem].
      repeat split; unfold x_addr, y_addr, z_addr, cell_addr; lia.
    - intros m t Hm (Hx' & Hy' & Hz' & HInv').
      now apply matmul_m_step_spec. }
  apply H.
Qed.
End MatmulProof.


(** * Facts of binary64 arithmetic *)

Lemma div_eucl_shift (m : positive) (k : Z) :
  0 <= k -> Z.div_eucl (Z.shiftl (Zpos m) k) (Zpos m) = (2 ^ k, 0).
Proof.
  intros Hk. rewrite Z.shiftl_mul_pow2 by assumption.
  pose proof (Z.div_eucl_eq (Z.pos m * 2 ^ k) (Z.pos m)) as H.
  assert (Hq : (Z.pos m * 2 ^ k) / Z.pos m = 2 ^ k) by (rewrite Z.mul_comm; apply Z.div_mul; lia).
  assert (Hr : (Z.pos m * 2 ^ k) mod Z.pos m = 0) by (rewrite Z.mul_comm; apply Z.mod_mul; lia).
  unfold Z.div, Z.modulo in Hq, Hr.
  destruct (Z.div_eucl (Z.pos m * 2 ^ k) (Z.pos m)) as [q r]. cbn in Hq, Hr. now subst.
Qed.

(** A finite non-zero number divided by itself is exactly one. *)
Lemma d_div_self (s : bool) (m : positive) (e : Z) :
  d_div (S754_finite s m e) (S754_finite s m e) = d_one.
Proof.
  unfold d_div, SFdiv, SFdiv_core_binary.
  replace (Zdigits2 (Z.pos m) + e - (Zdigits2 (Z.pos m) + e)) with 0 by lia.
  replace (e - e) with 0 by lia.
  change (Z.min (fexp dbl_prec dbl_emax 0) 0) with (-53).
  change (0 - -53) with 53.
  cbv iota beta.
  rewrite div_eucl_shift by lia.
  rewrite xorb_nilpotent.
  assert (Hloc : new_location (Z.pos m) 0 = loc_Exact).
  { unfold new_location. destruct (Z.even (Z.pos m)); reflexivity. }
  rewrite Hloc. vm_compute. reflexivity.
Qed.

(** A binary64 number times one is itself. *)
Lemma d_mul_one (s : bool) (m : positive) (e : Z) :
  valid_double (S754_finite s m e) = true ->
  d_mul (S754_finite s m e) d_one = S754_finite s m e.
Proof.
  unfold valid_double, valid_binary, bounded, canonical_mantissa.
  intros H. apply andb_prop in H as (Hc & He).
  apply Z.eqb_eq in Hc. 
  unfold d_mul, d_one. change (SFone dbl_prec dbl_emax) with (S754_finite false 4503599627370496 (-52)).
  unfold SFmul. rewrite xorb_false_r, Pos.mul_comm.
  cbn [Pos.mul].
  unfold binary_round_aux, shr_fexp.
  cbn [Zdigits2 digits2_pos].
  rewrite !Pos2Z.inj_succ.
  match goal with |- context [fexp _ _ ?a] => replace a with (Z.pos (digits2_pos m) + e) by lia end.
  rewrite Hc.
  replace (e - (e + -52)) with 52 by lia.
  cbn [shr_record_of_loc shr].
  match goal with |- context [iter_pos shr_1 52 ?r] =>
    replace (iter_pos shr_1 52 r) with {| shr_m := Z.pos m; shr_r := false; shr_s := false |}
      by (vm_compute; reflexivity) end.
  cbn [shr_m loc_of_shr_record round_nearest_even Zdigits2].
  replace (e + -52 + 52) with e by lia.
  rewrite Hc, Z.sub_diag. cbn [shr shr_m]. rewrite He. reflexivity.
Qed.

(** Rounding keeps the sign it is given. *)
Lemma binary_round_aux_cases (s : bool) (m e : Z) (l : location) :
  let r := binary_round_aux dbl_prec dbl_emax s m e l in
  r = S754_nan \/ r = S754_zero s \/ r = S754_infinity s
  \/ exists m' e', r = S754_finite s m' e'.
Proof.
  cbv zeta. unfold binary_round_aux.
  destruct (shr_fexp dbl_prec dbl_emax m e l) as [mrs' e'].
  destruct (shr_fexp dbl_prec dbl_emax _ e' loc_Exact) as [mrs'' e''].
  destruct (shr_m mrs'') as [|p|p]; auto.
  destruct (e'' <=? dbl_emax - dbl_prec); eauto 8.
Qed.

Lemma binary_round_aux_opp (s : bool) (m e : Z) (l : location) :
  binary_round_aux dbl_prec dbl_emax (negb s) m e l
  = SFopp (binary_round_aux dbl_prec dbl_emax s m e l).
Proof.
  unfold binary_round_aux.
  destruct (shr_fexp dbl_prec dbl_emax m e l) as [mrs' e'].
  destruct (shr_fexp dbl_prec dbl_emax _ e' loc_Exact) as [mrs'' e''].
  destruct (shr_m mrs'') as [|p|p]; auto.
  destruct (e'' <=? dbl_emax - dbl_prec); reflexivity.
Qed.

Lemma binary_normalize_opp (z e : Z) :
  z <> 0 ->
  binary_normalize dbl_prec dbl_emax (- z) e false
  = SFopp (binary_normalize dbl_prec dbl_emax z e false).
Proof.
  intros Hz. destruct z as [|p|p]; [contradiction| |]; cbn [Z.opp binary_normalize];
    unfold binary_round;
    destruct (shl_align p e _) as [mz ez].
  - exact (binary_round_aux_opp false _ _ _).
  - exact (binary_round_aux_opp true _ _ _).
Qed.

Lemma d_mul_opp_opp (u : npy_double) : d_mul (SFopp u) (SFopp u) = d_mul u u.
Proof. destruct u as [s|s| |s m e]; cbn; try reflexivity; now destruct s. Qed.

(** [b - a] is the opposite of [a - b], unless both are positive zero. *)
Lemma d_sub_swap (a b : npy_double) :
  d_sub b a = SFopp (d_sub a b) \/ (d_sub a b = d_zero /\ d_sub b a = d_zero).
Proof.
  destruct a as [sa|sa| |sa ma ea], b as [sb|sb| |sb mb eb];
    try (left; reflexivity);
    try (destruct sa, sb; cbn; auto; fail).
  unfold d_sub, SFsub. rewrite (Z.min_comm eb ea).
  set (A := cond_Zopp sa _). set (B := cond_Zopp sb _).
  destruct (Z.eq_dec (A - B) 0) as [H0|H0].
  - right. replace (B - A) with 0 by lia. rewrite H0. auto.
  - left. replace (B - A) with (- (A - B)) by lia. now apply binary_normalize_opp.
Qed.

(** A squared difference does not depend on the order of its operands. *)
Lemma sq_diff_sym (a b : npy_double) : sq_diff a b = sq_diff b a.
Proof.
  unfold sq_diff. destruct (d_sub_swap a b) as [->|(-> & ->)]; [|reflexivity].
  now rewrite d_mul_opp_opp.
Qed.

Lemma d_sub_self (a : npy_double) : d_sub a a = d_zero \/ d_sub a a = d_nan.
Proof.
  destruct a as [s|s| |s m e]; try (destruct s; cbn; auto; fail); auto.
  left. unfold d_sub, SFsub. now rewrite Z.sub_diag.
Qed.

Lemma sq_diff_self (a : npy_double) : sq_diff a a = d_zero \/ sq_diff a a = d_nan.
Proof. unfold sq_diff. destruct (d_sub_self a) as [->| ->]; auto. Qed.

(** Squares, their sums and the quotients of such sums have a clear sign
    bit: they are never negative, and never negative zero. *)
Lemma sq_diff_sign a b : sign_clear (sq_diff a b) = true.
Proof.
  unfold sq_diff. destruct (d_sub a b) as [s|s| |s m e];
    try reflexivity; try (now destruct s).
  unfold d_mul, SFmul. rewrite xorb_nilpotent.
  destruct (binary_round_aux_cases false (Z.pos (m * m)) (e + e) loc_Exact)
    as [H|[H|[H|(m' & e' & H)]]]; cbv zeta in H; now rewrite H.
Qed.

Lemma d_add_sign a b : sign_clear a = true -> sign_clear b = true -> sign_clear (d_add a b) = true.
Proof.
  destruct a as [sa|sa| |sa ma ea], b as [sb|sb| |sb mb eb];
    try (destruct sa; try discriminate); try (destruct sb; try discriminate);
    intros _ _; try reflexivity.
  unfold d_add, SFadd. cbn [cond_Zopp Z.add binary_normalize]. unfold binary_round.
  destruct (shl_align _ _ _) as [mz ez].
  destruct (binary_round_aux_cases false (Z.pos mz) ez loc_Exact)
    as [H|[H|[H|(m' & e' & H)]]]; cbv zeta in H; now rewrite H.
Qed.

Lemma d_div_sign a b : sign_clear a = true -> sign_clear b = true -> sign_clear (d_div a b) = true.
Proof.
  destruct a as [sa|sa| |sa ma ea], b as [sb|sb| |sb mb eb];
    try (destruct sa; try discriminate); try (destruct sb; try discriminate);
    intros _ _; try reflexivity.
  unfold d_div, SFdiv.
  destruct (SFdiv_core_binary _ _ _ _ _ _) as [[mz ez] lz]. cbn [xorb].
  destruct (binary_round_aux_cases false mz ez lz)
    as [H|[H|[H|(m' & e' & H)]]]; cbv zeta in H; now rewrite H.
Qed.

(** The comparison of doubles: [x > y] is [y < x]; NaN compares with
    nothing; on values with a clear sign bit [<] is a strict total order. *)
Lemma SFcompare_antisym (x y : npy_double) :
  SFcompare y x = option_map CompOpp (SFcompare x y).
Proof.
  destruct x as [sx|sx| |sx mx ex], y as [sy|sy| |sy my ey]; try reflexivity;
    try (destruct sx; reflexivity); try (destruct sy; reflexivity);
    try (destruct sx, sy; reflexivity).
  cbn. f_equal.
  rewrite (Z.compare_antisym ex ey).
  change (Pos.compare_cont Eq my mx) with (Pos.compare my mx).
  change (Pos.compare_cont Eq mx my) with (Pos.compare mx my).
  rewrite (Pos.compare_antisym mx my).
  destruct sx, sy; try reflexivity;
    destruct (ex ?= ey); cbn; try reflexivity;
    now destruct (mx ?= my)%positive.
Qed.

Lemma d_gt_lt (x y : npy_double) : d_gt x y = d_lt y x.
Proof.
  unfold d_gt, d_lt, SFltb. rewrite (SFcompare_antisym x y).
  destruct (SFcompare x y) as [[| |]|]; reflexivity.
Qed.

Lemma d_lt_nan_l (y : npy_double) : d_lt d_nan y = false.
Proof. reflexivity. Qed.

Lemma d_lt_nan_r (x : npy_double) : d_lt x d_nan = false.
Proof. now destruct x. Qed.

Lemma d_lt_finite (m1 m2 : positive) (e1 e2 : Z) :
  d_lt (S754_finite false m1 e1) (S754_finite false m2 e2) = true
  <-> e1 < e2 \/ (e1 = e2 /\ (m1 < m2)%positive).
Proof.
  unfold d_lt, SFltb, SFcompare.
  change (Pos.compare_cont Eq m1 m2) with (Pos.compare m1 m2).
  destruct (Z.compare_spec e1 e2) as [He|He|He].
  - destruct (Pos.compare_spec m1 m2) as [Hm|Hm|Hm]; split; intros H;
      try discriminate; try reflexivity; try lia.
  - split; intros _; [lia|reflexivity].
  - split; intros H; [discriminate|lia].
Qed.

Lemma d_lt_trans (x y z : npy_double) :
  sign_clear x = true -> sign_clear y = true -> sign_clear z = true ->
  d_lt x y = true -> d_lt y z = true -> d_lt x z = true.
Proof.
  destruct x as [sx|sx| |sx mx ex], y as [sy|sy| |sy my ey], z as [sz|sz| |sz mz ez];
    cbn [sign_clear]; intros Hx Hy Hz;
    try (apply negb_true_iff in Hx; subst);
    try (apply negb_true_iff in Hy; subst);
    try (apply negb_true_iff in Hz; subst);
    try (intros; discriminate); try (intros; reflexivity).
  rewrite !d_lt_finite. lia.
Qed.

Lemma d_lt_total (x y : npy_double) :
  sign_clear x = true -> sign_clear y = true ->
  is_nan x = false -> is_nan y = false ->
  d_lt x y = false -> d_lt y x = false -> x = y.
Proof.
  destruct x as [sx|sx| |sx mx ex], y as [sy|sy| |sy my ey];
    cbn [sign_clear is_nan]; intros Hx Hy;
    try (apply negb_true_iff in Hx; subst);
    try (apply negb_true_iff in Hy; subst);
    try (intros; discriminate); try (intros; reflexivity).
  intros _ _ H1 H2.
  assert (G1 : ~ (ex < ey \/ (ex = ey /\ (mx < my)%positive)))
    by (rewrite <- d_lt_finite; congruence).
  assert (G2 : ~ (ey < ex \/ (ey = ex /\ (my < mx)%positive)))
    by (rewrite <- d_lt_finite; congruence).
  assert (ex = ey) by lia. subst ey.
  assert (mx = my) by lia. now subst.
Qed.

(** * Running extrema do not depend on the order of the comparisons *)

Section RunningExtremum.
Variable A : Type.
Variable lt : A -> A -> bool.
Variable dom : A -> Prop.
Variable bad : A -> bool.

Hypothesis lt_bad : forall x y, bad x = true -> lt x y = false.
Hypothesis lt_irrefl : forall x, lt x x = false.
Hypothesis lt_trans :
  forall x y z, dom x -> dom y -> dom z ->
                lt x y = true -> lt y z = true -> lt x z = true.
Hypothesis lt_total :
  forall x y, dom x -> dom y -> bad x = false -> bad y = false ->
              lt x y = false -> lt y x = false -> x = y.

Lemma lt_cotrans (x y z : A) :
  dom x -> dom y -> dom z -> bad y = false -> bad z = false ->
  lt x z = true -> lt x y = false -> lt y z = false -> False.
Proof.
  intros Hx Hy Hz Hby Hbz Hxz Hxy Hyz.
  destruct (lt z y) eqn:Hzy.
  - rewrite (lt_trans Hx Hz Hy Hxz Hzy) in Hxy. discriminate.
  - assert (y = z) by (apply lt_total; assumption). subst z. congruence.
Qed.

(** What the running extremum is: one of the values seen (or the initial
    one), before which none of them compares. *)
Lemma running_char (l : list A) :
  forall m0, dom m0 -> bad m0 = false -> Forall dom l ->
    let m := running lt l m0 in
    dom m /\ bad m = false /\ (m = m0 \/ In m l)
    /\ lt m0 m = false /\ (forall x, In x l -> lt x m = false).
Proof.
  induction l as [|x l IH]; intros m0 Hd Hb Hl; cbv zeta.
  - cbn. repeat split; auto.
  - inversion Hl as [|? ? Hx Hl']; subst.
    unfold running. cbn [fold_left]. fold (running lt l (keep_if lt x m0)).
    set (m1 := keep_if lt x m0).
    assert (Hm1 : dom m1 /\ bad m1 = false).
    { unfold m1, keep_if. destruct (lt x m0) eqn:E; [|auto]. split; [assumption|].
      destruct (bad x) eqn:Hbx; [|reflexivity]. now rewrite (lt_bad m0 Hbx) in E. }
    destruct Hm1 as (Hd1 & Hb1).
    destruct (IH m1 Hd1 Hb1 Hl') as (Hdm & Hbm & Hin & Hle & Hall).
    cbv zeta in Hdm, Hbm, Hin, Hle, Hall.
    set (m := running lt l m1) in *.
    assert (Hx_m : lt x m = false /\ lt m0 m = false).
    { unfold m1, keep_if in *. destruct (lt x m0) eqn:E.
      - split; [assumption|].
        destruct (lt m0 m) eqn:E'; [|reflexivity].
        now rewrite (lt_trans Hx Hd Hdm E E') in Hle.
      - split; [|assumption].
        destruct (lt x m) eqn:E'; [|reflexivity].
        exfalso. exact (lt_cotrans Hx Hd Hdm Hb Hbm E' E Hle). }
    destruct Hx_m as (Hxm & Hm0).
    repeat split; try assumption.
    + destruct Hin as [Hin|Hin]; [|right; now right].
      unfold m1, keep_if in Hin. destruct (lt x m0); [right; left; congruence|now left].
    + intros y [<-|Hy]; [assumption|now apply Hall].
Qed.

(** Two lists with the same comparable values have the same running
    extremum. *)
Lemma running_same_values (l1 l2 : list A) (m0 : A) :
  dom m0 -> bad m0 = false -> Forall dom l1 -> Forall dom l2 ->
  (forall x, bad x = false -> (In x l1 <-> In x l2)) ->
  running lt l1 m0 = running lt l2 m0.
Proof.
  intros Hd Hb H1 H2 Hsame.
  destruct (running_char Hd Hb H1) as (Hd1 & Hb1 & Hin1 & Hle1 & Hall1).
  destruct (running_char Hd Hb H2) as (Hd2 & Hb2 & Hin2 & Hle2 & Hall2).
  cbv zeta in *.
  apply lt_total; try assumption.
  - destruct Hin1 as [->|Hin1]; [assumption|].
    apply Hall2. now apply Hsame.
  - destruct Hin2 as [->|Hin2]; [assumption|].
    apply Hall1. now apply Hsame.
Qed.
End RunningExtremum.

Lemma d_lt_irrefl (x : npy_double) : d_lt x x = false.
Proof.
  destruct x as [s|s| |s m e]; try reflexivity; try (now destruct s).
  unfold d_lt, SFltb, SFcompare.
  change (Pos.compare_cont Eq m m) with (Pos.compare m m).
  rewrite Z.compare_refl, Pos.compare_refl. now destruct s.
Qed.

Lemma d_gt_nan_l (y : npy_double) : d_gt d_nan y = false.
Proof. reflexivity. Qed.

Lemma update_nan (acc : npy_double) :
  update_min d_nan acc = acc /\ update_max d_nan acc = acc.
Proof. split; reflexivity. Qed.

Lemma running_min_same_values (l1 l2 : list npy_double) :
  Forall (fun x => sign_clear x = true) l1 ->
  Forall (fun x => sign_clear x = true) l2 ->
  (forall x, is_nan x = false -> (In x l1 <-> In x l2)) ->
  running_min l1 = running_min l2.
Proof.
  intros H1 H2 Hsame.
  apply (@running_same_values _ d_lt (fun x => sign_clear x = true) is_nan);
    try assumption; try reflexivity.
  - intros x y Hx. destruct x; try discriminate. reflexivity.
  - apply d_lt_irrefl.
  - apply d_lt_trans.
  - apply d_lt_total.
Qed.

Lemma running_max_same_values (l1 l2 : list npy_double) :
  Forall (fun x => sign_clear x = true) l1 ->
  Forall (fun x => sign_clear x = true) l2 ->
  (forall x, is_nan x = false -> (In x l1 <-> In x l2)) ->
  running_max l1 = running_max l2.
Proof.
  intros H1 H2 Hsame.
  apply (@running_same_values _ d_gt (fun x => sign_clear x = true) is_nan);
    try assumption; try reflexivity.
  - intros x y Hx. destruct x; try discriminate. reflexivity.
  - intros x. rewrite d_gt_lt. apply d_lt_irrefl.
  - intros x y z Hx Hy Hz. rewrite !d_gt_lt. intros Hxy Hyz.
    now apply (@d_lt_trans z y x).
  - intros x y Hx Hy Hbx Hby. rewrite !d_gt_lt. intros Hxy Hyx.
    now apply d_lt_total.
Qed.

(** The running minimum is positive infinity or one of the values, and no
    value compares below it; likewise for the running maximum, from zero. *)
Lemma running_min_char (l : list npy_double) :
  Forall (fun x => sign_clear x = true) l ->
  (running_min l = d_inf \/ In (running_min l) l)
  /\ is_nan (running_min l) = false
  /\ (forall x, In x l -> d_lt x (running_min l) = false).
Proof.
  intros Hl.
  destruct (@running_char _ d_lt (fun x => sign_clear x = true) is_nan) with
    (l:=l) (m0:=d_inf) as (_ & Hnan & Hin & _ & Hall); try assumption; try reflexivity.
  - intros x y Hx. destruct x; try discriminate. reflexivity.
  - apply d_lt_irrefl.
  - apply d_lt_trans.
  - apply d_lt_total.
  - auto.
Qed.

Lemma running_max_char (l : list npy_double) :
  Forall (fun x => sign_clear x = true) l ->
  (running_max l = d_zero \/ In (running_max l) l)
  /\ is_nan (running_max l) = false
  /\ (forall x, In x l -> d_gt x (running_max l) = false).
Proof.
  intros Hl.
  destruct (@running_char _ d_gt (fun x => sign_clear x = true) is_nan) with
    (l:=l) (m0:=d_zero) as (_ & Hnan & Hin & _ & Hall); try assumption; try reflexivity.
  - intros x y Hx. destruct x; try discriminate. reflexivity.
  - intros x. rewrite d_gt_lt. apply d_lt_irrefl.
  - intros x y z Hx Hy Hz. rewrite !d_gt_lt. intros Hxy Hyz.
    now apply (@d_lt_trans z y x).
  - intros x y Hx Hy Hbx Hby. rewrite !d_gt_lt. intros Hxy Hyx.
    now apply d_lt_total.
  - auto.
Qed.

(** * Squared distances and their ratios *)

Lemma fold_left_ext_on (A B : Type) (f g : A -> B -> A) (l : list B) :
  (forall a x, In x l -> f a x = g a x) ->
  forall a, fold_left f l a = fold_left g l a.
Proof.
  induction l as [|x l IH]; intros H a; cbn; [reflexivity|].
  rewrite (H a x) by now left. apply IH. intros a' y Hy. apply H. now right.
Qed.

Lemma fold_left_preserves (A B : Type) (P : A -> Prop) (f : A -> B -> A) (l : list B) :
  (forall a x, P a -> P (f a x)) -> forall a, P a -> P (fold_left f l a).
Proof.
  intros H. induction l as [|x l IH]; intros a Ha; cbn; [assumption|].
  apply IH. now apply H.
Qed.

Lemma sq_dist_from_ext (acc : npy_double) (x y x' y' : Z -> npy_double) (L : Z) :
  (forall k, 0 <= k < L -> x k = x' k) ->
  (forall k, 0 <= k < L -> y k = y' k) ->
  sq_dist_from acc x y L = sq_dist_from acc x' y' L.
Proof.
  intros Hx Hy. unfold sq_dist_from. apply fold_left_ext_on.
  intros a k Hk. apply zrange_In in Hk. now rewrite Hx, Hy.
Qed.

Lemma sq_dist_sym (x y : Z -> npy_double) (L : Z) : sq_dist x y L = sq_dist y x L.
Proof.
  unfold sq_dist, sq_dist_from. apply fold_left_ext_on.
  intros a k _. now rewrite sq_diff_sym.
Qed.

Lemma sq_dist_sign (x y : Z -> npy_double) (L : Z) : sign_clear (sq_dist x y L) = true.
Proof.
  unfold sq_dist, sq_dist_from.
  apply (fold_left_preserves (fun a => sign_clear a = true)); [|reflexivity].
  intros a k Ha. apply d_add_sign; [assumption|apply sq_diff_sign].
Qed.

(** The squared distance of a point to itself is zero, or NaN when a
    coordinate is infinite or NaN. *)
Lemma sq_dist_self (x : Z -> npy_double) (L : Z) :
  sq_dist x x L = d_zero \/ sq_dist x x L = d_nan.
Proof.
  unfold sq_dist, sq_dist_from.
  apply (fold_left_preserves (fun a => a = d_zero \/ a = d_nan)); [|now left].
  intros a k [-> | ->]; destruct (sq_diff_self (x k)) as [-> | ->]; auto.
Qed.

Lemma sq_dist_self_finite (x : Z -> npy_double) (L : Z) :
  (forall k, 0 <= k < L -> is_finite (x k) = true) -> sq_dist x x L = d_zero.
Proof.
  intros Hfin. unfold sq_dist, sq_dist_from.
  assert (G : forall l, (forall k, In k l -> is_finite (x k) = true) ->
            fold_left (fun a k => d_add a (sq_diff (x k) (x k))) l d_zero = d_zero).
  { induction l as [|k l IH]; intros H; cbn [fold_left]; [reflexivity|].
    assert (Hk : sq_diff (x k) (x k) = d_zero).
    { specialize (H k (or_introl eq_refl)). unfold sq_diff.
      destruct (x k) as [s|s| |s m e]; try discriminate.
      - now destruct s.
      - unfold d_sub, SFsub. now rewrite Z.sub_diag. }
    rewrite Hk. cbn. apply IH. intros k' Hk'. apply H. now right. }
  apply G. intros k Hk. apply Hfin. now apply zrange_In in Hk.
Qed.

Section OneSet.
Variable mem : memory.
Variables len_m len_n : npy_intp.
Variables num den : addr.
Variables stride_num_d stride_m stride_den_d stride_n : npy_intp.

Let ratio := pdist_sq_ratio mem len_m len_n num den
               stride_num_d stride_m stride_den_d stride_n.

Lemma pdist_sq_ratio_sign (ij : Z * Z) : sign_clear (ratio ij) = true.
Proof.
  destruct ij as [i j]. unfold ratio, pdist_sq_ratio, sq_ratio.
  apply d_div_sign; apply sq_dist_sign.
Qed.

Lemma pdist_sq_ratio_sym (i j : Z) : ratio (i, j) = ratio (j, i).
Proof.
  unfold ratio, pdist_sq_ratio, sq_ratio. f_equal; apply sq_dist_sym.
Qed.

Lemma pdist_sq_ratio_self (i : Z) : ratio (i, i) = d_nan.
Proof.
  unfold ratio, pdist_sq_ratio, sq_ratio.
  destruct (sq_dist_self (elem2 mem num stride_num_d stride_m i) len_m) as [-> | ->];
    destruct (sq_dist_self (elem2 mem den stride_den_d stride_n i) len_n) as [-> | ->];
    reflexivity.
Qed.

Lemma ratios_sign (l : list (Z * Z)) :
  Forall (fun x => sign_clear x = true) (map ratio l).
Proof.
  apply Forall_forall. intros x Hx. apply in_map_iff in Hx as (ij & <- & _).
  apply pdist_sq_ratio_sign.
Qed.

(** The ratios that are not NaN are the same over the full cross product,
    over the ordered pairs [i <> j] and over the unordered pairs [i < j]. *)
Lemma cross_pairs_same_ratios (D : Z) (x : npy_double) :
  is_nan x = false ->
  (In x (map ratio (cross D D)) <-> In x (map ratio (pairs_lt D)))
  /\ (In x (map ratio (pairs_neq D)) <-> In x (map ratio (pairs_lt D))).
Proof.
  intros Hx.
  assert (Hlt : In x (map ratio (pairs_lt D)) -> In x (map ratio (pairs_neq D))).
  { rewrite !in_map_iff. intros ([i j] & Hr & Hin). exists (i, j). split; [assumption|].
    apply pairs_lt_In in Hin. apply pairs_neq_In. lia. }
  assert (Hneq : In x (map ratio (pairs_neq D)) -> In x (map ratio (cross D D))).
  { rewrite !in_map_iff. intros ([i j] & Hr & Hin). exists (i, j). split; [assumption|].
    apply pairs_neq_In in Hin. apply cross_In. lia. }
  assert (Hcross : In x (map ratio (cross D D)) -> In x (map ratio (pairs_lt D))).
  { rewrite !in_map_iff. intros ([i j] & Hr & Hin). apply cross_In in Hin.
    destruct (Z.lt_trichotomy i j) as [Hij|[Hij|Hij]].
    - exists (i, j). split; [assumption|]. apply pairs_lt_In. lia.
    - subst j. rewrite pdist_sq_ratio_self in Hr. subst x. discriminate.
    - exists (j, i). split; [now rewrite pdist_sq_ratio_sym|]. apply pairs_lt_In. lia. }
  split; split; auto.
Qed.

Lemma cross_extrema_are_pair_extrema (D : Z) :
  running_min (map ratio (cross D D)) = running_min (map ratio (pairs_lt D))
  /\ running_max (map ratio (cross D D)) = running_max (map ratio (pairs_lt D))
  /\ running_min (map ratio (pairs_neq D)) = running_min (map ratio (pairs_lt D))
  /\ running_max (map ratio (pairs_neq D)) = running_max (map ratio (pairs_lt D)).
Proof.
  repeat split;
    (apply running_min_same_values || apply running_max_same_values);
    try apply ratios_sign; intros x Hx; now apply cross_pairs_same_ratios.
Qed.
End OneSet.

(** * cdist_ratio *)

Lemma map_ext_on (A B : Type) (f g : A -> B) (l : list A) :
  (forall a, In a l -> f a = g a) -> map f l = map g l.
Proof.
  induction l as [|a l IH]; cbn; intros H; [reflexivity|].
  rewrite (H a) by now left. f_equal. apply IH. intros x Hx. apply H. now right.
Qed.

(** When the "to" arrays hold the values of the "from" arrays, the ratios
    of [cdist_ratio] are those of [pdist_ratio] on the "from" set. *)
Lemma sq_ratio_one_set (mem : memory) (len_d len_m len_n : npy_intp)
    (stride_num_fr_d stride_fr_m stride_num_to_d stride_to_m : npy_intp)
    (stride_den_fr_d stride_fr_n stride_den_to_d stride_to_n : npy_intp)
    (args0 args1 args2 args3 : addr) :
  (forall i k, 0 <= i < len_d -> 0 <= k < len_m ->
               elem2 mem args1 stride_num_to_d stride_to_m i k
               = elem2 mem args0 stride_num_fr_d stride_fr_m i k) ->
  (forall i k, 0 <= i < len_d -> 0 <= k < len_n ->
               elem2 mem args3 stride_den_to_d stride_to_n i k
               = elem2 mem args2 stride_den_fr_d stride_fr_n i k) ->
  map (sq_ratio mem len_m len_n args0 args1 args2 args3
         stride_num_fr_d stride_fr_m stride_num_to_d stride_to_m
         stride_den_fr_d stride_fr_n stride_den_to_d stride_to_n)
      (cross len_d len_d)
  = map (pdist_sq_ratio mem len_m len_n args0 args2
           stride_num_fr_d stride_fr_m stride_den_fr_d stride_fr_n)
        (cross len_d len_d).
Proof.
  intros Hnum Hden. apply map_ext_on. intros [i j] Hin. apply cross_In in Hin.
  unfold pdist_sq_ratio, sq_ratio, sq_dist. f_equal; apply sq_dist_from_ext; auto.
  - intros k Hk. apply Hnum; lia.
  - intros k Hk. apply Hden; lia.
Qed.


(** * pdist_ratio on identical numerator and denominator spaces *)

Lemma d_div_self_cases (s : npy_double) :
  d_div s s = if is_finite_nonzero s then d_one else d_nan.
Proof.
  destruct s as [b|b| |b m e]; try reflexivity. apply d_div_self.
Qed.

Lemma running_min_ones (l : list npy_double) :
  (forall x, In x l -> x = d_one \/ x = d_nan) ->
  running_min l = if existsb (fun x => negb (is_nan x)) l then d_one else d_inf.
Proof.
  unfold running_min.
  assert (G : forall l acc,
             (forall x, In x l -> x = d_one \/ x = d_nan) ->
             acc = d_inf \/ acc = d_one ->
             fold_left (fun m r => update_min r m) l acc
             = if existsb (fun x => negb (is_nan x)) l then d_one else acc).
  { clear l. induction l as [|x l IH]; intros acc Hl Hacc; cbn [fold_left existsb];
      [reflexivity|].
    destruct (Hl x (or_introl eq_refl)) as [-> | ->].
    - replace (update_min d_one acc) with d_one
        by (destruct Hacc as [-> | ->]; reflexivity).
      rewrite IH; [|intros y Hy; apply Hl; now right|now right].
      cbn. now destruct (existsb _ l).
    - cbn. apply IH; [intros y Hy; apply Hl; now right|assumption]. }
  intros H. apply G; auto.
Qed.

Lemma running_max_ones (l : list npy_double) :
  (forall x, In x l -> x = d_one \/ x = d_nan) ->
  running_max l = if existsb (fun x => negb (is_nan x)) l then d_one else d_zero.
Proof.
  unfold running_max.
  assert (G : forall l acc,
             (forall x, In x l -> x = d_one \/ x = d_nan) ->
             acc = d_zero \/ acc = d_one ->
             fold_left (fun m r => update_max r m) l acc
             = if existsb (fun x => negb (is_nan x)) l then d_one else acc).
  { clear l. induction l as [|x l IH]; intros acc Hl Hacc; cbn [fold_left existsb];
      [reflexivity|].
    destruct (Hl x (or_introl eq_refl)) as [-> | ->].
    - replace (update_max d_one acc) with d_one
        by (destruct Hacc as [-> | ->]; reflexivity).
      rewrite IH; [|intros y Hy; apply Hl; now right|now right].
      cbn. now destruct (existsb _ l).
    - cbn. apply IH; [intros y Hy; apply Hl; now right|assumption]. }
  intros H. apply G; auto.
Qed.

Lemma existsb_map (A B : Type) (f : A -> B) (p : B -> bool) (l : list A) :
  existsb p (map f l) = existsb (fun a => p (f a)) l.
Proof. induction l as [|a l IH]; cbn; [reflexivity|now rewrite IH]. Qed.

Lemma existsb_ext_on (A : Type) (p q : A -> bool) (l : list A) :
  (forall a, In a l -> p a = q a) -> existsb p l = existsb q l.
Proof.
  induction l as [|a l IH]; cbn; intros H; [reflexivity|].
  rewrite (H a) by now left. f_equal. apply IH. intros x Hx. apply H. now right.
Qed.

Section IdenticalSpaces.
Variable mem : memory.
Variables len_d len_m : npy_intp.
Variables stride_num_d stride_m stride_den_d stride_n : npy_intp.
Variables args0 args1 : addr.

Hypothesis same_values :
  forall i k, 0 <= i < len_d -> 0 <= k < len_m ->
              elem2 mem args1 stride_den_d stride_n i k
              = elem2 mem args0 stride_num_d stride_m i k.

Let ratio := pdist_sq_ratio mem len_m len_m args0 args1
               stride_num_d stride_m stride_den_d stride_n.
Let sqd (ij : Z * Z) : npy_double :=
  sq_dist (elem2 mem args0 stride_num_d stride_m (fst ij))
          (elem2 mem args0 stride_num_d stride_m (snd ij)) len_m.

Lemma identical_ratio (ij : Z * Z) :
  In ij (pairs_lt len_d) ->
  ratio ij = if is_finite_nonzero (sqd ij) then d_one else d_nan.
Proof.
  destruct ij as [i j]. intros Hin. apply pairs_lt_In in Hin.
  unfold ratio, pdist_sq_ratio, sq_ratio, sqd. cbn [fst snd].
  replace (sq_dist (elem2 mem args1 stride_den_d stride_n i)
             (elem2 mem args1 stride_den_d stride_n j) len_m)
    with (sq_dist (elem2 mem args0 stride_num_d stride_m i)
            (elem2 mem args0 stride_num_d stride_m j) len_m).
  - apply d_div_self_cases.
  - unfold sq_dist. apply sq_dist_from_ext; intros k Hk; symmetry;
      apply same_values; lia.
Qed.

Lemma identical_extrema :
  let good := existsb (fun ij => is_finite_nonzero (sqd ij)) (pairs_lt len_d) in
  running_min (map ratio (pairs_lt len_d)) = (if good then d_one else d_inf)
  /\ running_max (map ratio (pairs_lt len_d)) = (if good then d_one else d_zero).
Proof.
  cbv zeta.
  assert (Hall : forall x, In x (map ratio (pairs_lt len_d)) -> x = d_one \/ x = d_nan).
  { intros x Hx. apply in_map_iff in Hx as (ij & <- & Hin).
    rewrite identical_ratio by assumption. destruct (is_finite_nonzero (sqd ij)); auto. }
  assert (Hex : existsb (fun x => negb (is_nan x)) (map ratio (pairs_lt len_d))
                = existsb (fun ij => is_finite_nonzero (sqd ij)) (pairs_lt len_d)).
  { rewrite existsb_map. apply existsb_ext_on. intros ij Hin.
    rewrite identical_ratio by assumption. now destruct (is_finite_nonzero (sqd ij)). }
  rewrite running_min_ones, running_max_ones, Hex by assumption. auto.
Qed.
End IdenticalSpaces.


(** * matmul by the identity matrix *)

(** Adding to positive zero keeps every finite number but negative zero,
    which becomes positive zero. *)
Lemma d_add_zero_l (x : npy_double) :
  x <> d_negzero -> d_add d_zero x = x.
Proof. destruct x as [[|]|[|]| |s m e]; intros H; try reflexivity. now elim H. Qed.

Lemma d_mul_zero_r (x : npy_double) :
  is_finite x = true -> exists s, d_mul x d_zero = S754_zero s.
Proof.
  destruct x as [s|s| |s m e]; try discriminate; intros _; cbn; eauto.
Qed.

Lemma d_mul_one_r (x : npy_double) :
  is_finite x = true -> valid_double x = true -> d_mul x d_one = x.
Proof.
  destruct x as [s|s| |s m e]; try discriminate; intros _ Hv.
  - now destruct s.
  - now apply d_mul_one.
Qed.

(** Zero terms leave the accumulator [0.0 + x] of a finite [x] as it is. *)
Lemma d_add_zero_term (x : npy_double) (s : bool) :
  is_finite x = true -> d_add (d_add d_zero x) (S754_zero s) = d_add d_zero x.
Proof.
  destruct x as [[|]|[|]| |sx m e]; try discriminate; intros _; now destruct s.
Qed.

Lemma fold_zero_terms (term : Z -> npy_double) (x : npy_double) (l : list Z) :
  is_finite x = true ->
  (forall n, In n l -> exists s, term n = S754_zero s) ->
  fold_left (fun acc n => d_add acc (term n)) l (d_add d_zero x) = d_add d_zero x.
Proof.
  intros Hx. induction l as [|n l IH]; intros Hl; cbn [fold_left]; [reflexivity|].
  destruct (Hl n (or_introl eq_refl)) as (s & ->).
  rewrite d_add_zero_term by assumption. apply IH. intros k Hk. apply Hl. now right.
Qed.

Lemma matmul_cell_identity (mem : memory) (len_n : npy_intp) (X Y : addr)
    (stride_x_m stride_x_n stride_y_n stride_y_p : npy_intp) (m p : Z) :
  0 <= p < len_n ->
  (forall n, 0 <= n < len_n ->
             is_finite (elem2 mem X stride_x_m stride_x_n m n) = true
             /\ valid_double (elem2 mem X stride_x_m stride_x_n m n) = true) ->
  (forall n, 0 <= n < len_n ->
             elem2 mem Y stride_y_n stride_y_p n p = if n =? p then d_one else d_zero) ->
  matmul_cell mem len_n X Y stride_x_m stride_x_n stride_y_n stride_y_p m p
  = d_add d_zero (elem2 mem X stride_x_m stride_x_n m p).
Proof.
  intros Hp HX HY. unfold matmul_cell.
  set (term := fun n => d_mul (elem2 mem X stride_x_m stride_x_n m n)
                              (elem2 mem Y stride_y_n stride_y_p n p)).
  change (fold_left (fun acc n => d_add acc (term n)) (zrange 0 len_n) d_zero
          = d_add d_zero (elem2 mem X stride_x_m stride_x_n m p)).
  assert (Hzero : forall n, 0 <= n < len_n -> n <> p -> exists s, term n = S754_zero s).
  { intros n Hn Hne. unfold term. rewrite HY by assumption.
    replace (n =? p) with false by (symmetry; now apply Z.eqb_neq).
    apply d_mul_zero_r. now apply HX. }
  assert (Hone : term p = elem2 mem X stride_x_m stride_x_n m p).
  { unfold term. rewrite HY, Z.eqb_refl by assumption.
    apply d_mul_one_r; now apply HX. }
  rewrite (zrange_split (lo:=0) (mid:=p) (hi:=len_n)) by lia.
  rewrite (zrange_cons (lo:=p) (hi:=len_n)) by lia.
  rewrite fold_left_app. cbn [fold_left].
  replace d_zero with (d_add d_zero d_zero) at 1 by reflexivity.
  rewrite fold_zero_terms; [|reflexivity|].
  - change (d_add d_zero d_zero) with d_zero. rewrite Hone.
    apply fold_zero_terms; [now apply HX|].
    intros n Hn. apply zrange_In in Hn. apply Hzero; lia.
  - intros n Hn. apply zrange_In in Hn. apply Hzero; lia.
Qed.


(** * The broadcasting outer loop *)

Lemma advance_0 (args : list addr) : forall steps, advance args steps 0 = args.
Proof.
  induction args as [|a args IH]; intros [|s steps]; cbn; try reflexivity.
  rewrite IH. f_equal. lia.
Qed.

Lemma advance_advance (args : list addr) :
  forall steps n k, advance (advance args steps n) steps k = advance args steps (n + k).
Proof.
  induction args as [|a args IH]; intros [|s steps] n k; cbn; try reflexivity.
  rewrite IH. f_equal. lia.
Qed.

Lemma advance_length (args : list addr) :
  forall steps n, length (advance args steps n) = length args.
Proof.
  induction args as [|a args IH]; intros [|s steps] n; cbn; try reflexivity.
  now rewrite IH.
Qed.

Lemma advance_nth (args : list addr) :
  forall steps n k,
    (k < length args)%nat -> (k < length steps)%nat ->
    nth k (advance args steps n) 0 = nth k args 0 + n * nth k steps 0.
Proof.
  induction args as [|a args IH]; intros [|s steps] n k Ha Hs; cbn in *; try lia.
  destruct k as [|k]; [reflexivity|]. apply IH; lia.
Qed.

(** The address of operand [k] at an index tuple is its initial address
    plus the sum over the axes of index times stride. *)
Lemma address_at_nth (axes : BatchDescriptor) (k : nat) :
  forall (args : list addr) (idx : list Z),
    (k < length args)%nat ->
    Forall (fun ax => (k < length (ax_strides ax))%nat) axes ->
    arg (address_at axes args idx) k = arg args k + offset_at axes idx k.
Proof.
  unfold arg.
  induction axes as [|ax axes IH]; intros args idx Hk Hax; cbn; [lia|].
  destruct idx as [|i idx]; [lia|].
  inversion Hax as [|? ? Hs Hax']; subst.
  rewrite IH by (rewrite ?advance_length; assumption).
  rewrite advance_nth by assumption. lia.
Qed.

Lemma address_at_zeros (axes : BatchDescriptor) :
  forall args, address_at axes args (map (fun _ => 0) axes) = args.
Proof.
  induction axes as [|ax axes IH]; intros args; cbn; [reflexivity|].
  now rewrite advance_0, IH.
Qed.

Lemma in_batch_zeros (axes : BatchDescriptor) :
  existsb (fun ax => ax_size ax <=? 0) axes = false ->
  in_batch axes (map (fun _ => 0) axes).
Proof.
  induction axes as [|ax axes IH]; cbn; intros H; constructor.
  - apply orb_false_iff in H as (H & _). apply Z.leb_gt in H. lia.
  - apply IH. now apply orb_false_iff in H.
Qed.

Lemma in_batch_positive (axes : BatchDescriptor) (idx : list Z) :
  in_batch axes idx -> existsb (fun ax => ax_size ax <=? 0) axes = false.
Proof.
  induction 1 as [|ax i axes idx Hi _ IH]; cbn; [reflexivity|].
  rewrite IH, orb_false_r. apply Z.leb_gt. lia.
Qed.

Lemma row_major_from_zeros (axes : BatchDescriptor) :
  existsb (fun ax => ax_size ax <=? 0) axes = false ->
  row_major_from (map ax_size axes) (map (fun _ => 0) axes)
  = row_major (map ax_size axes).
Proof.
  induction axes as [|ax axes IH]; cbn; intros H; [reflexivity|].
  apply orb_false_iff in H as (Hax & H). apply Z.leb_gt in Hax.
  rewrite IH by assumption.
  rewrite (zrange_cons (lo:=0) (hi:=ax_size ax)) by lia. reflexivity.
Qed.

(** One tick of the odometer from a valid index: either it carries out,
    the index was the last one and the operand addresses are back at the
    start; or it moves to the next index in row-major order, with the
    operand addresses of that index. *)
Lemma odo_incr_spec (axes : BatchDescriptor) :
  forall (idx : list Z) (base : list addr),
    in_batch axes idx ->
    match odo_incr axes idx (address_at axes base idx) with
    | (true, idx', args') =>
        idx' = map (fun _ => 0) axes /\ args' = base
        /\ row_major_from (map ax_size axes) idx = [idx]
    | (false, idx', args') =>
        in_batch axes idx' /\ args' = address_at axes base idx'
        /\ row_major_from (map ax_size axes) idx
           = idx :: row_major_from (map ax_size axes) idx'
    end.
Proof.
  induction axes as [|ax axes IH]; intros idx base Hin.
  - inversion Hin; subst. cbn. auto.
  - inversion Hin as [|? i ? idx' Hi Hin']; subst.
    cbn [odo_incr address_at map row_major_from].
    specialize (IH idx' (advance base (ax_strides ax) i) Hin').
    destruct (odo_incr axes idx' (address_at axes (advance base (ax_strides ax) i) idx'))
      as [[carry idx''] args'].
    destruct carry.
    + destruct IH as (-> & -> & Hrm). rewrite Hrm, advance_advance.
      destruct (Z.ltb_spec (i + 1) (ax_size ax)) as [Hlt|Hge].
      * split; [|split].
        -- constructor; [lia|]. apply in_batch_zeros. eapply in_batch_positive; eauto.
        -- cbn [address_at]. now rewrite address_at_zeros.
        -- rewrite (zrange_cons (lo:=i + 1) (hi:=ax_size ax)) by lia.
           cbn [flat_map map app].
           rewrite row_major_from_zeros by (eapply in_batch_positive; eauto).
           reflexivity.
      * split; [reflexivity|split].
        -- rewrite advance_advance.
           replace (i + 1 + - ax_size ax) with 0 by lia. apply advance_0.
        -- rewrite zrange_nil by lia. reflexivity.
    + destruct IH as (Hin'' & -> & Hrm). rewrite Hrm.
      split; [|split]; [constructor; assumption|reflexivity|reflexivity].
Qed.

Lemma outer_loop_from_spec (St : Type) (axes : BatchDescriptor) (base : list addr)
    (body : odometer -> St -> St) (fuel : nat) :
  forall (idx : list Z) (s : St),
    in_batch axes idx ->
    (length (row_major_from (map ax_size axes) idx) <= fuel)%nat ->
    outer_loop_from fuel axes body
      {| odo_index := idx; odo_args := address_at axes base idx |} s
    = Some (fold_left
              (fun s idx => body {| odo_index := idx;
                                    odo_args := address_at axes base idx |} s)
              (row_major_from (map ax_size axes) idx) s).
Proof.
  induction fuel as [|fuel IH]; intros idx s Hin Hfuel.
  - exfalso. pose proof (odo_incr_spec base Hin) as H.
    destruct (odo_incr axes idx (address_at axes base idx)) as [[[|] idx'] args'];
      destruct H as (_ & _ & Hrm); rewrite Hrm in Hfuel; cbn in Hfuel; lia.
  - cbn [outer_loop_from odo_index odo_args].
    pose proof (odo_incr_spec base Hin) as H.
    destruct (odo_incr axes idx (address_at axes base idx)) as [[[|] idx'] args'].
    + destruct H as (_ & _ & Hrm). rewrite Hrm. reflexivity.
    + destruct H as (Hin' & -> & Hrm). rewrite Hrm in *. cbn [fold_left].
      apply IH; [assumption|]. cbn in Hfuel. lia.
Qed.

Lemma row_major_empty (axes : BatchDescriptor) :
  existsb (fun ax => ax_size ax <=? 0) axes = true ->
  row_major (map ax_size axes) = [].
Proof.
  induction axes as [|ax axes IH]; cbn; intros H; [discriminate|].
  apply orb_true_iff in H as [H|H].
  - apply Z.leb_le in H. rewrite zrange_nil by lia. reflexivity.
  - rewrite IH by assumption. cbn. induction (zrange 0 (ax_size ax)); cbn; auto.
Qed.

(** The driver runs the body once at every index of the batch, in
    row-major order, at the operand addresses of that index. *)
Lemma outer_loop_spec (St : Type) (fuel : nat) (axes : BatchDescriptor)
    (args : list addr) (body : odometer -> St -> St) (s : St) :
  (length (row_major (map ax_size axes)) <= fuel)%nat ->
  outer_loop fuel axes args body s
  = Some (fold_left
            (fun s idx => body {| odo_index := idx;
                                  odo_args := address_at axes args idx |} s)
            (row_major (map ax_size axes)) s).
Proof.
  intros Hfuel. unfold outer_loop.
  destruct (existsb (fun ax => ax_size ax <=? 0) axes) eqn:E.
  - rewrite row_major_empty by assumption. reflexivity.
  - rewrite <- row_major_from_zeros in * by assumption.
    rewrite <- (address_at_zeros axes args) at 1.
    apply outer_loop_from_spec; [now apply in_batch_zeros|assumption].
Qed.

Lemma outer_loop_zero (St : Type) (fuel : nat) (axes : BatchDescriptor)
    (args : list addr) (body : odometer -> St -> St) (s : St) :
  existsb (fun ax => ax_size ax =? 0) axes = true ->
  outer_loop fuel axes args body s = Some s.
Proof.
  intros H. unfold outer_loop.
  replace (existsb (fun ax => ax_size ax <=? 0) axes) with true; [reflexivity|].
  symmetry. apply existsb_exists. apply existsb_exists in H as (ax & Hin & Hz).
  exists ax. split; [assumption|]. apply Z.eqb_eq in Hz. apply Z.leb_le. lia.
Qed.

Lemma row_major_In (axes : BatchDescriptor) :
  forall idx, In idx (row_major (map ax_size axes)) <-> in_batch axes idx.
Proof.
  induction axes as [|ax axes IH]; intros idx; cbn [map row_major].
  - split.
    + intros [<-|[]]. constructor.
    + intros H. inversion H. now left.
  - rewrite in_flat_map. split.
    + intros (i & Hi & Hin). apply in_map_iff in Hin as (tl & <- & Htl).
      apply zrange_In in Hi. constructor; [assumption|now apply IH].
    + intros H. inversion H as [|? i ? tl Hi Htl]; subst.
      exists i. split; [now apply zrange_In|]. apply in_map. now apply IH.
Qed.

Lemma row_major_NoDup (sizes : list Z) : NoDup (row_major sizes).
Proof.
  induction sizes as [|n sizes IH]; cbn [row_major].
  - constructor; [intros []|constructor].
  - apply NoDup_flat_map.
    + apply zrange_NoDup.
    + intros i _. apply NoDup_map_on; [|assumption]. now intros x y _ _ [= ->].
    + intros i i' idx _ _ H H'.
      apply in_map_iff in H as (tl & <- & _).
      apply in_map_iff in H' as (tl' & [= <- _] & _). reflexivity.
Qed.

Lemma row_major_length (axes : BatchDescriptor) :
  Forall (fun ax => 0 <= ax_size ax) axes ->
  Z.of_nat (length (row_major (map ax_size axes))) = batch_count axes.
Proof.
  unfold batch_count.
  induction 1 as [|ax axes Hax _ IH]; cbn [map row_major fold_right]; [reflexivity|].
  rewrite <- IH.
  assert (G : forall l : list Z,
             Z.of_nat (length (flat_map (fun i => map (cons i)
                                 (row_major (map ax_size axes))) l))
             = Z.of_nat (length l)
               * Z.of_nat (length (row_major (map ax_size axes)))).
  { induction l as [|a l IHl]; cbn [flat_map length]; [lia|].
    rewrite length_app, length_map. lia. }
  rewrite G, zrange_length. lia.
Qed.

Lemma fold_left_record (A : Type) (l : list A) :
  forall t, fold_left (fun t x => t ++ [x]) l t = t ++ l.
Proof.
  induction l as [|x l IH]; intros t; cbn; [now rewrite app_nil_r|].
  rewrite IH, <- app_assoc. reflexivity.
Qed.

Lemma fold_left_count (A : Type) (l : list A) :
  forall n, fold_left (fun n _ => S n) l n = (n + length l)%nat.
Proof.
  induction l as [|x l IH]; intros n; cbn; [lia|]. rewrite IH. lia.
Qed.

Lemma outer_loop_trace (fuel : nat) (axes : BatchDescriptor) (args : list addr) :
  (length (row_major (map ax_size axes)) <= fuel)%nat ->
  outer_loop fuel axes args (fun o visited => visited ++ [odo_index o]) []
  = Some (row_major (map ax_size axes)).
Proof.
  intros Hfuel. rewrite outer_loop_spec by assumption. cbn [odo_index].
  now rewrite fold_left_record.
Qed.

(** * The claims of the specification *)

(** C1: for every input, [pdist_ratio] takes, for every unordered pair
    [i < j] of the [len_d] points, the squared distance in numerator space
    (dimension [len_m]) and in denominator space (dimension [len_n]),
    forms their ratio, keeps the running minimum from positive infinity and
    the running maximum from zero over all pairs, and writes the square
    root of the minimum to the first output and the square root of the
    maximum to the second.  The pairs are exactly the [i < j] below
    [len_d], each once, [len_d (len_d - 1) / 2] of them; the minimum kept
    is positive infinity or one of the ratios and no ratio compares below
    it, the maximum kept is zero or one of the ratios and no ratio compares
    above it. *)
Theorem pdist_ratio_tracks_pairwise_extrema :
  forall (mem : memory) (len_d len_m len_n : npy_intp)
         (stride_num_d stride_m stride_den_d stride_n : npy_intp)
         (args0 args1 args2 args3 : addr),
    let ratios :=
      map (pdist_sq_ratio mem len_m len_n args0 args1
             stride_num_d stride_m stride_den_d stride_n)
          (pairs_lt len_d) in
    DOUBLE_pdist_ratio_body mem len_d len_m len_n
      stride_num_d stride_m stride_den_d stride_n args0 args1 args2 args3
    = store (store mem args2 (npy_sqrt (running_min ratios)))
        args3 (npy_sqrt (running_max ratios))
    /\ (forall i j, In (i, j) (pairs_lt len_d) <-> 0 <= i < j /\ j < len_d)
    /\ NoDup (pairs_lt len_d)
    /\ 2 * Z.of_nat (length (pairs_lt len_d)) = Z.max 0 len_d * (Z.max 0 len_d - 1)
    /\ ((running_min ratios = d_inf \/ In (running_min ratios) ratios)
        /\ forall r, In r ratios -> d_lt r (running_min ratios) = false)
    /\ ((running_max ratios = d_zero \/ In (running_max ratios) ratios)
        /\ forall r, In r ratios -> d_gt r (running_max ratios) = false).
Proof.
  intros. split; [|split; [|split; [|split; [|split]]]].
  - unfold DOUBLE_pdist_ratio_body.
    destruct (pdist_ratio_loops_spec mem len_d len_m len_n
                stride_num_d stride_m stride_den_d stride_n args0 args1) as (-> & ->).
    reflexivity.
  - intros i j. apply pairs_lt_In.
  - apply pairs_lt_NoDup.
  - destruct (Z_le_gt_dec 0 len_d) as [H|H].
    + rewrite Z.max_r by lia. now apply pairs_lt_length.
    + rewrite pairs_lt_few, Z.max_l by lia. reflexivity.
  - destruct (running_min_char (l:=ratios)) as (Hin & _ & Hall);
      [apply ratios_sign|auto].
  - destruct (running_max_char (l:=ratios)) as (Hin & _ & Hall);
      [apply ratios_sign|auto].
Qed.

(** C2: when the cells of the output are distinct objects, none of which
    is a cell of [X] or [Y], [matmul] leaves in every output cell [(m,p)]
    the accumulation that starts from zero and adds [X[m,n] * Y[n,p]] for
    [n = 0 .. len_n - 1] in that order, whatever the cell held before, and
    changes nothing but the output cells. *)
Theorem matmul_accumulates_in_order :
  forall (len_m len_n len_p : npy_intp)
         (stride_x_m stride_x_n stride_y_n stride_y_p stride_z_m stride_z_p : npy_intp)
         (mem : memory) (X Y Zb : addr),
    0 <= len_n ->
    0 <= len_p ->
    (forall m p m' p',
        0 <= m < len_m -> 0 <= p < len_p -> 0 <= m' < len_m -> 0 <= p' < len_p ->
        cell_addr Zb stride_z_m stride_z_p m p = cell_addr Zb stride_z_m stride_z_p m' p' ->
        m = m' /\ p = p') ->
    (forall m p m' n,
        0 <= m < len_m -> 0 <= p < len_p -> 0 <= m' < len_m -> 0 <= n < len_n ->
        cell_addr Zb stride_z_m stride_z_p m p <> cell_addr X stride_x_m stride_x_n m' n) ->
    (forall m p n p',
        0 <= m < len_m -> 0 <= p < len_p -> 0 <= n < len_n -> 0 <= p' < len_p ->
        cell_addr Zb stride_z_m stride_z_p m p <> cell_addr Y stride_y_n stride_y_p n p') ->
    let mem' :=
      DOUBLE_matmul_body len_m len_n len_p stride_x_m stride_x_n stride_y_n stride_y_p
        stride_z_m stride_z_p mem X Y Zb in
    (forall m p,
        0 <= m < len_m -> 0 <= p < len_p ->
        elem2 mem' Zb stride_z_m stride_z_p m p
        = matmul_cell mem len_n X Y stride_x_m stride_x_n stride_y_n stride_y_p m p)
    /\ (forall a,
           (forall m p, 0 <= m < len_m -> 0 <= p < len_p ->
                        a <> cell_addr Zb stride_z_m stride_z_p m p) ->
           load mem' a = load mem a).
Proof.
  intros until Zb. intros Hn Hp Hzz Hzx Hzy mem'.
  destruct (@matmul_loops_spec len_m len_n len_p stride_x_m stride_x_n
              stride_y_n stride_y_p stride_z_m stride_z_p mem X Y Zb Hn Hp Hzz Hzx Hzy)
    as (Hcells & Hframe).
  split.
  - intros m p Hm Hp'. apply Hcells; try assumption. lia.
  - intros a Ha. apply Hframe. intros m p Hm Hp' _. now apply Ha.
Qed.

(** C3: [cdist_ratio] runs the comparisons over the full cross product of
    the "from" and "to" points, self-pairs included.  When the "to" points
    are the "from" points, the ratio of every self-pair is NaN (0/0 when
    the coordinates of the point are finite); NaN compares false in both
    comparisons, which leaves the running extrema as they were, and the
    kernel writes what [pdist_ratio] writes for that set: the extrema over
    the pairs [i <> j], equal to those over the pairs [i < j]. *)
Theorem cdist_ratio_full_cross_product :
  forall (mem : memory) (len_fr_d len_to_d len_d len_m len_n : npy_intp)
         (stride_num_fr_d stride_fr_m stride_num_to_d stride_to_m : npy_intp)
         (stride_den_fr_d stride_fr_n stride_den_to_d stride_to_n : npy_intp)
         (args0 args1 args2 args3 args4 args5 : addr),
    (forall i k, 0 <= i < len_d -> 0 <= k < len_m ->
                 elem2 mem args1 stride_num_to_d stride_to_m i k
                 = elem2 mem args0 stride_num_fr_d stride_fr_m i k) ->
    (forall i k, 0 <= i < len_d -> 0 <= k < len_n ->
                 elem2 mem args3 stride_den_to_d stride_to_n i k
                 = elem2 mem args2 stride_den_fr_d stride_fr_n i k) ->
    let cratio :=
      sq_ratio mem len_m len_n args0 args1 args2 args3
        stride_num_fr_d stride_fr_m stride_num_to_d stride_to_m
        stride_den_fr_d stride_fr_n stride_den_to_d stride_to_n in
    let ratio :=
      pdist_sq_ratio mem len_m len_n args0 args2
        stride_num_fr_d stride_fr_m stride_den_fr_d stride_fr_n in
    let cdist len_fr_d len_to_d :=
      DOUBLE_cdist_ratio_body mem len_fr_d len_m len_to_d len_n
        stride_num_fr_d stride_fr_m stride_num_to_d stride_to_m
        stride_den_fr_d stride_fr_n stride_den_to_d stride_to_n
        args0 args1 args2 args3 args4 args5 in
    cdist len_fr_d len_to_d
    = store (store mem args4
               (npy_sqrt (running_min (map cratio (cross len_fr_d len_to_d)))))
        args5 (npy_sqrt (running_max (map cratio (cross len_fr_d len_to_d))))
    /\ ((forall i j, In (i, j) (cross len_fr_d len_to_d)
                     <-> 0 <= i < len_fr_d /\ 0 <= j < len_to_d)
        /\ NoDup (cross len_fr_d len_to_d))
    /\ (forall i, 0 <= i < len_d -> cratio (i, i) = d_nan)
    /\ (forall i, 0 <= i < len_d ->
                  (forall k, 0 <= k < len_m ->
                             is_finite (elem2 mem args0 stride_num_fr_d stride_fr_m i k) = true) ->
                  (forall k, 0 <= k < len_n ->
                             is_finite (elem2 mem args2 stride_den_fr_d stride_fr_n i k) = true) ->
                  cratio (i, i) = d_div d_zero d_zero)
    /\ (forall acc, update_min d_nan acc = acc /\ update_max d_nan acc = acc)
    /\ cdist len_d len_d
       = store (store mem args4
                  (npy_sqrt (running_min (map ratio (pairs_neq len_d)))))
           args5 (npy_sqrt (running_max (map ratio (pairs_neq len_d))))
    /\ cdist len_d len_d
       = DOUBLE_pdist_ratio_body mem len_d len_m len_n
           stride_num_fr_d stride_fr_m stride_den_fr_d stride_fr_n
           args0 args2 args4 args5.
Proof.
  intros until args5. intros Hnum Hden cratio ratio cdist.
  assert (Hcd : forall P R,
             cdist P R
             = store (store mem args4 (npy_sqrt (running_min (map cratio (cross P R)))))
                 args5 (npy_sqrt (running_max (map cratio (cross P R))))).
  { intros P R. unfold cdist, DOUBLE_cdist_ratio_body.
    destruct (cdist_ratio_loops_spec mem P len_m R len_n
                stride_num_fr_d stride_fr_m stride_num_to_d stride_to_m
                stride_den_fr_d stride_fr_n stride_den_to_d stride_to_n
                args0 args1 args2 args3) as (-> & ->).
    reflexivity. }
  assert (Hself : forall i, 0 <= i < len_d -> cratio (i, i) = ratio (i, i)).
  { intros i Hi. unfold cratio, ratio, pdist_sq_ratio, sq_ratio, sq_dist.
    f_equal; apply sq_dist_from_ext; auto. }
  assert (Hmap := @sq_ratio_one_set mem len_d len_m len_n
                    stride_num_fr_d stride_fr_m stride_num_to_d stride_to_m
                    stride_den_fr_d stride_fr_n stride_den_to_d stride_to_n
                    args0 args1 args2 args3 Hnum Hden).
  fold cratio in Hmap. fold ratio in Hmap.
  destruct (cross_extrema_are_pair_extrema mem len_m len_n args0 args2
              stride_num_fr_d stride_fr_m stride_den_fr_d stride_fr_n len_d)
    as (Hmin & Hmax & Hmin' & Hmax').
  fold ratio in Hmin, Hmax, Hmin', Hmax'.
  split; [|split; [|split; [|split; [|split; [|split]]]]].
  - apply Hcd.
  - split; [intros i j; apply cross_In|apply cross_NoDup].
  - intros i Hi. rewrite Hself by assumption. apply pdist_sq_ratio_self.
  - intros i Hi Hfm Hfn. rewrite Hself by assumption.
    unfold ratio, pdist_sq_ratio, sq_ratio.
    now rewrite !sq_dist_self_finite.
  - apply update_nan.
  - rewrite Hcd, Hmap, Hmin, Hmax, Hmin', Hmax'. reflexivity.
  - rewrite Hcd, Hmap, Hmin, Hmax. unfold DOUBLE_pdist_ratio_body.
    destruct (pdist_ratio_loops_spec mem len_d len_m len_n
                stride_num_fr_d stride_fr_m stride_den_fr_d stride_fr_n args0 args2)
      as (-> & ->).
    reflexivity.
Qed.

(** C4: with fewer than two points [pdist_ratio] compares no pair, and
    with no "from" point or no "to" point [cdist_ratio] compares none:
    the outputs are the square roots of the initial extrema, positive
    infinity and zero. *)
Theorem dist_ratio_degenerate :
  forall (mem : memory) (len_d len_m len_n : npy_intp)
         (stride_num_d stride_m stride_den_d stride_n : npy_intp)
         (args0 args1 args2 args3 : addr)
         (len_fr_d len_to_d len_cm len_cn : npy_intp)
         (stride_num_fr_d stride_fr_m stride_num_to_d stride_to_m : npy_intp)
         (stride_den_fr_d stride_fr_n stride_den_to_d stride_to_n : npy_intp)
         (cargs0 cargs1 cargs2 cargs3 cargs4 cargs5 : addr),
    len_d < 2 ->
    len_fr_d = 0 \/ len_to_d = 0 ->
    DOUBLE_pdist_ratio_body mem len_d len_m len_n
      stride_num_d stride_m stride_den_d stride_n args0 args1 args2 args3
    = store (store mem args2 d_inf) args3 d_zero
    /\ DOUBLE_cdist_ratio_body mem len_fr_d len_cm len_to_d len_cn
         stride_num_fr_d stride_fr_m stride_num_to_d stride_to_m
         stride_den_fr_d stride_fr_n stride_den_to_d stride_to_n
         cargs0 cargs1 cargs2 cargs3 cargs4 cargs5
       = store (store mem cargs4 d_inf) cargs5 d_zero.
Proof.
  intros until cargs5. intros Hd Hc. split.
  - unfold DOUBLE_pdist_ratio_body.
    destruct (pdist_ratio_loops_spec mem len_d len_m len_n
                stride_num_d stride_m stride_den_d stride_n args0 args1) as (-> & ->).
    rewrite pairs_lt_few by assumption. reflexivity.
  - unfold DOUBLE_cdist_ratio_body.
    destruct (cdist_ratio_loops_spec mem len_fr_d len_cm len_to_d len_cn
                stride_num_fr_d stride_fr_m stride_num_to_d stride_to_m
                stride_den_fr_d stride_fr_n stride_den_to_d stride_to_n
                cargs0 cargs1 cargs2 cargs3) as (-> & ->).
    rewrite cross_empty by lia. reflexivity.
Qed.

(** C5, as the code has it: on identical numerator and denominator spaces
    the ratio of a pair is 1 when its squared distance is a finite number
    other than zero, and NaN otherwise (coincident points give 0/0, an
    overflowed distance gives inf/inf); NaN is skipped by both
    comparisons.  So [pdist_ratio] returns [drmin = drmax = 1.0] when some
    pair [i < j] has a finite non-zero squared distance, and leaves positive
    infinity and zero when none has. *)
Theorem pdist_ratio_identical_spaces :
  forall (mem : memory) (len_d len_m len_n : npy_intp)
         (stride_num_d stride_m stride_den_d stride_n : npy_intp)
         (args0 args1 args2 args3 : addr),
    len_n = len_m ->
    (forall i k, 0 <= i < len_d -> 0 <= k < len_m ->
                 elem2 mem args1 stride_den_d stride_n i k
                 = elem2 mem args0 stride_num_d stride_m i k) ->
    let sqd ij :=
      sq_dist (elem2 mem args0 stride_num_d stride_m (fst ij))
              (elem2 mem args0 stride_num_d stride_m (snd ij)) len_m in
    DOUBLE_pdist_ratio_body mem len_d len_m len_n
      stride_num_d stride_m stride_den_d stride_n args0 args1 args2 args3
    = if existsb (fun ij => is_finite_nonzero (sqd ij)) (pairs_lt len_d)
      then store (store mem args2 d_one) args3 d_one
      else store (store mem args2 d_inf) args3 d_zero.
Proof.
  intros until args3. intros -> Hsame sqd.
  unfold DOUBLE_pdist_ratio_body.
  destruct (pdist_ratio_loops_spec mem len_d len_m len_m
              stride_num_d stride_m stride_den_d stride_n args0 args1) as (-> & ->).
  destruct (@identical_extrema mem len_d len_m stride_num_d stride_m
              stride_den_d stride_n args0 args1 Hsame) as (-> & ->).
  fold sqd. destruct (existsb _ (pairs_lt len_d)); reflexivity.
Qed.

(** C6, as the code has it: for a matrix [X] whose entries are finite
    binary64 numbers and the identity matrix (ones on the diagonal,
    positive zeros elsewhere), [matmul] leaves in every output cell
    [0.0 + X[m,p]]: the entry itself, bit for bit, unless the entry is
    negative zero, for which the cell holds positive zero. *)
Theorem matmul_identity_finite :
  forall (len_m len_n : npy_intp)
         (stride_x_m stride_x_n stride_y_n stride_y_p stride_z_m stride_z_p : npy_intp)
         (mem : memory) (X Y Zb : addr),
    0 <= len_n ->
    (forall m p m' p',
        0 <= m < len_m -> 0 <= p < len_n -> 0 <= m' < len_m -> 0 <= p' < len_n ->
        cell_addr Zb stride_z_m stride_z_p m p = cell_addr Zb stride_z_m stride_z_p m' p' ->
        m = m' /\ p = p') ->
    (forall m p m' n,
        0 <= m < len_m -> 0 <= p < len_n -> 0 <= m' < len_m -> 0 <= n < len_n ->
        cell_addr Zb stride_z_m stride_z_p m p <> cell_addr X stride_x_m stride_x_n m' n) ->
    (forall m p n p',
        0 <= m < len_m -> 0 <= p < len_n -> 0 <= n < len_n -> 0 <= p' < len_n ->
        cell_addr Zb stride_z_m stride_z_p m p <> cell_addr Y stride_y_n stride_y_p n p') ->
    (forall m n, 0 <= m < len_m -> 0 <= n < len_n ->
                 is_finite (elem2 mem X stride_x_m stride_x_n m n) = true
                 /\ valid_double (elem2 mem X stride_x_m stride_x_n m n) = true) ->
    (forall n p, 0 <= n < len_n -> 0 <= p < len_n ->
                 elem2 mem Y stride_y_n stride_y_p n p = if n =? p then d_one else d_zero) ->
    let mem' :=
      DOUBLE_matmul_body len_m len_n len_n stride_x_m stride_x_n stride_y_n stride_y_p
        stride_z_m stride_z_p mem X Y Zb in
    forall m p,
      0 <= m < len_m -> 0 <= p < len_n ->
      elem2 mem' Zb stride_z_m stride_z_p m p
      = d_add d_zero (elem2 mem X stride_x_m stride_x_n m p)
      /\ (elem2 mem X stride_x_m stride_x_n m p <> d_negzero ->
          elem2 mem' Zb stride_z_m stride_z_p m p
          = elem2 mem X stride_x_m stride_x_n m p).
Proof.
  intros until Zb. intros Hn Hzz Hzx Hzy HX HY mem' m p Hm Hp.
  destruct (@matmul_loops_spec len_m len_n len_n stride_x_m stride_x_n
              stride_y_n stride_y_p stride_z_m stride_z_p mem X Y Zb Hn Hn Hzz Hzx Hzy)
    as (Hcells & _).
  assert (Hcell : elem2 mem' Zb stride_z_m stride_z_p m p
                  = d_add d_zero (elem2 mem X stride_x_m stride_x_n m p)).
  { unfold elem2 at 1. unfold mem'. rewrite Hcells by lia.
    apply matmul_cell_identity; auto. }
  split; [assumption|].
  intros Hnz. rewrite Hcell. now apply d_add_zero_l.
Qed.

(** C7: [norm] writes the square root of the sum of the squares of the
    [len_n] elements, accumulated from zero in index order; for the empty
    vector it writes exactly zero. *)
Theorem norm_is_sqrt_of_sum_squares :
  forall (mem : memory) (len_n stride_n : npy_intp) (args0 args1 : addr),
    DOUBLE_norm_body mem len_n stride_n args0 args1
    = store mem args1 (npy_sqrt (sum_squares (elem1 mem args0 stride_n) len_n))
    /\ DOUBLE_norm_body mem 0 stride_n args0 args1 = store mem args1 d_zero.
Proof.
  intros. unfold DOUBLE_norm_body. rewrite !norm_loop_spec. split; reflexivity.
Qed.

(** C8: the driver runs the kernel body once at every index tuple of the
    batch, in row-major order (the last axis varies fastest), at the
    operand addresses of that tuple, the initial address plus the sum of
    index times stride.  The tuples visited are exactly those of the
    Cartesian product of the index ranges, each once; for the batch shape
    (2,3) they are (0,0),(0,1),(0,2),(1,0),(1,1),(1,2). *)
Theorem outer_loop_row_major :
  forall (fuel : nat) (axes : BatchDescriptor) (args : list addr),
    (length (row_major (map ax_size axes)) <= fuel)%nat ->
    outer_loop fuel axes args (fun o visited => visited ++ [odo_index o]) []
    = Some (row_major (map ax_size axes))
    /\ (forall (St : Type) (body : odometer -> St -> St) (s : St),
           outer_loop fuel axes args body s
           = Some (fold_left
                     (fun s idx => body {| odo_index := idx;
                                           odo_args := address_at axes args idx |} s)
                     (row_major (map ax_size axes)) s))
    /\ (forall idx, In idx (row_major (map ax_size axes)) <-> in_batch axes idx)
    /\ NoDup (row_major (map ax_size axes))
    /\ (forall (k : nat) (idx : list Z),
           (k < length args)%nat ->
           Forall (fun ax => (k < length (ax_strides ax))%nat) axes ->
           arg (address_at axes args idx) k = arg args k + offset_at axes idx k)
    /\ (forall steps0 steps1 args',
           outer_loop 6 [ {| ax_size := 2; ax_strides := steps0 |};
                          {| ax_size := 3; ax_strides := steps1 |} ] args'
             (fun o visited => visited ++ [odo_index o]) []
           = Some [[0; 0]; [0; 1]; [0; 2]; [1; 0]; [1; 1]; [1; 2]]).
Proof.
  intros fuel axes args Hfuel.
  split; [|split; [|split; [|split; [|split]]]].
  - now apply outer_loop_trace.
  - intros St body s. now apply outer_loop_spec.
  - apply row_major_In.
  - apply row_major_NoDup.
  - intros k idx. apply address_at_nth.
  - intros steps0 steps1 args'. rewrite outer_loop_trace; [reflexivity|].
    vm_compute. lia.
Qed.

(** C9: the kernel body runs as many times as the product of the
    batch-axis sizes, and the driver returns normally; when an axis has
    size zero the body is not run at all and the state the kernels work on,
    the memory, is returned as it was, for each of the four kernels. *)
Theorem outer_loop_count :
  forall (fuel : nat) (axes : BatchDescriptor) (args : list addr),
    Forall (fun ax => 0 <= ax_size ax) axes ->
    (Z.to_nat (batch_count axes) <= fuel)%nat ->
    outer_loop fuel axes args (fun _ count => S count) O
    = Some (Z.to_nat (batch_count axes))
    /\ (forall (St : Type) (body : odometer -> St -> St) (s : St),
           exists s', outer_loop fuel axes args body s = Some s')
    /\ (existsb (fun ax => ax_size ax =? 0) axes = true ->
        batch_count axes = 0
        /\ (forall (St : Type) (body : odometer -> St -> St) (s : St) (fuel' : nat),
               outer_loop fuel' axes args body s = Some s)
        /\ (forall mem fuel' len_d len_m len_n s1 s2 s3 s4,
               DOUBLE_pdist_ratio fuel' axes args len_d len_m len_n s1 s2 s3 s4 mem
               = Some mem)
        /\ (forall mem fuel' len_fr_d len_m len_to_d len_n s1 s2 s3 s4 s5 s6 s7 s8,
               DOUBLE_cdist_ratio fuel' axes args len_fr_d len_m len_to_d len_n
                 s1 s2 s3 s4 s5 s6 s7 s8 mem
               = Some mem)
        /\ (forall mem fuel' len_m len_n len_p s1 s2 s3 s4 s5 s6,
               DOUBLE_matmul fuel' axes args len_m len_n len_p s1 s2 s3 s4 s5 s6 mem
               = Some mem)
        /\ (forall mem fuel' len_n s1,
               DOUBLE_norm fuel' axes args len_n s1 mem = Some mem)).
Proof.
  intros fuel axes args Hpos Hfuel.
  assert (Hlen : length (row_major (map ax_size axes)) = Z.to_nat (batch_count axes)).
  { rewrite <- (row_major_length Hpos). lia. }
  split; [|split].
  - rewrite outer_loop_spec by lia. now rewrite fold_left_count, Hlen.
  - intros St body s. rewrite outer_loop_spec by lia. eauto.
  - intros Hzero. split; [|repeat split; intros; now apply outer_loop_zero].
    rewrite <- (row_major_length Hpos), row_major_empty; [reflexivity|].
    apply existsb_exists. apply existsb_exists in Hzero as (ax & Hin & Hz).
    exists ax. split; [assumption|]. apply Z.eqb_eq in Hz. apply Z.leb_le. lia.
Qed.

(** C10: [DOUBLE_dist] leaves in the accumulator its initial value with
    the squared differences of the [len] coordinates added to it one after
    the other, in index order: it adds into the accumulator and does not
    overwrite it (with no coordinate the accumulator comes back as it was,
    and started at 1 between the points 0 and 3 it ends at 10, not 9).  The
    result is the squared distance when the accumulator starts at zero,
    which is how the [d2] loop of [pdist_ratio] and of [cdist_ratio] calls
    it, for the numerator and for the denominator. *)
Theorem DOUBLE_dist_accumulates :
  (forall (mem : memory) (X Y : addr) (dist : npy_double) (x_in y_in : LINEARIZE_DATA_t),
      DOUBLE_dist mem X Y dist x_in y_in
      = sq_dist_from dist (elem1 mem X (strides x_in)) (elem1 mem Y (strides y_in))
          (len x_in))
  /\ (forall (mem : memory) (X Y : addr) (dist : npy_double) (stride_x stride_y : npy_intp),
         DOUBLE_dist mem X Y dist (init_linearize_vdata 0 stride_x)
           (init_linearize_vdata 0 stride_y) = dist)
  /\ (DOUBLE_dist mem_points 0 8 (d_of_Z 1)
         (init_linearize_vdata 1 8) (init_linearize_vdata 1 8) = d_of_Z 10
      /\ sq_dist (elem1 mem_points 0 8) (elem1 mem_points 8 8) 1 = d_of_Z 9)
  /\ (forall (mem : memory) (X Y : addr) (x_in y_in : LINEARIZE_DATA_t),
         DOUBLE_dist mem X Y d_zero x_in y_in
         = sq_dist (elem1 mem X (strides x_in)) (elem1 mem Y (strides y_in)) (len x_in))
  /\ (forall (mem : memory) (num_fr_in num_to_in den_fr_in den_to_in : LINEARIZE_DATA_t)
             (stride_num stride_den : npy_intp) (ip_num_fr ip_den_fr : addr)
             (t : ratio_state),
         let ratio :=
           d_div (sq_dist (elem1 mem ip_num_fr (strides num_fr_in))
                    (elem1 mem (ip_num t) (strides num_to_in)) (len num_fr_in))
                 (sq_dist (elem1 mem ip_den_fr (strides den_fr_in))
                    (elem1 mem (ip_den t) (strides den_to_in)) (len den_fr_in)) in
         dist_ratio_step mem num_fr_in num_to_in den_fr_in den_to_in
           stride_num stride_den ip_num_fr ip_den_fr t
         = {| ip_num := ip_num t + stride_num;
              ip_den := ip_den t + stride_den;
              dr_min := update_min ratio (dr_min t);
              dr_max := update_max ratio (dr_max t) |}).
Proof.
  split; [|split; [|split; [|split]]].
  - intros. apply DOUBLE_dist_spec.
  - intros. rewrite DOUBLE_dist_spec. reflexivity.
  - split; vm_compute; reflexivity.
  - intros. apply DOUBLE_dist_spec.
  - intros. unfold dist_ratio_step. rewrite !DOUBLE_dist_spec. reflexivity.
Qed.

(** * The kernels on concrete data *)

Example pdist_ratio_points :
  let mem' := DOUBLE_pdist_ratio_body mem_points 3 1 1 8 8 8 8 0 24 48 56 in
  load mem' 48 = d_of_Z 1 /\ load mem' 56 = d_of_Z 3.
Proof. vm_compute. split; reflexivity. Qed.

Example cdist_ratio_points :
  let mem' := DOUBLE_cdist_ratio_body mem_points 3 1 3 1 8 8 8 8 8 8 8 8 0 0 24 24 48 56 in
  load mem' 48 = d_of_Z 1 /\ load mem' 56 = d_of_Z 3.
Proof. vm_compute. split; reflexivity. Qed.

Example matmul_matrices :
  let mem' := DOUBLE_matmul_body 2 2 2 16 8 16 8 16 8 mem_matrices 0 32 64 in
  map (load mem') [64; 72; 80; 88] = map d_of_Z [19; 22; 43; 50].
Proof. vm_compute. reflexivity. Qed.

Example norm_3_4 :
  load (DOUBLE_norm_body mem_vector 2 8 0 16) 16 = d_of_Z 5.
Proof. vm_compute. reflexivity. Qed.

Example dist_adds_to_accumulator :
  DOUBLE_dist mem_points 0 8 (d_of_Z 1)
    (init_linearize_vdata 1 8) (init_linearize_vdata 1 8) = d_of_Z 10
  /\ DOUBLE_dist mem_points 0 8 d_zero
       (init_linearize_vdata 1 8) (init_linearize_vdata 1 8) = d_of_Z 9.
Proof. vm_compute. split; reflexivity. Qed.

(** Two problems in one call: the sets at 0 and 24, then those at 24 and
    48; ratios of distances 1 and 3 for the first, 1/2 twice for the
    second. *)
Example pdist_ratio_batch :
  match DOUBLE_pdist_ratio 2 batch_pdist [0; 24; 72; 88] 3 1 1 8 8 8 8 mem_batch with
  | Some mem' =>
      map (load mem') [72; 88; 80; 96]
      = [d_of_Z 1; d_of_Z 3; d_div (d_of_Z 1) (d_of_Z 2); d_div (d_of_Z 1) (d_of_Z 2)]
  | None => False
  end.
Proof. vm_compute. reflexivity. Qed.

Example odometer_addresses :
  outer_loop 6 batch_2x3 [0; 1000] (fun o visited => visited ++ [odo_args o]) []
  = Some [[0; 1000]; [8; 1008]; [16; 1016]; [24; 1024]; [32; 1032]; [40; 1040]].
Proof. vm_compute. reflexivity. Qed.

Example odometer_out_of_fuel :
  outer_loop 5 batch_2x3 [0; 1000] (fun o visited => visited ++ [odo_index o]) [] = None.
Proof. vm_compute. reflexivity. Qed.

(** * Instances *)

Lemma dist_ratio_degenerate_witness :
  1 < 2 /\ (0 = 0 \/ 3 = 0)
  /\ DOUBLE_pdist_ratio_body mem_points 1 1 1 8 8 8 8 0 24 48 56
     = store (store mem_points 48 d_inf) 56 d_zero
  /\ DOUBLE_cdist_ratio_body mem_points 0 1 3 1 8 8 8 8 8 8 8 8 0 0 24 24 48 56
     = store (store mem_points 48 d_inf) 56 d_zero.
Proof.
  split; [lia|]. split; [left; reflexivity|].
  apply (@dist_ratio_degenerate mem_points 1 1 1 8 8 8 8 0 24 48 56
           0 3 1 1 8 8 8 8 8 8 8 8 0 0 24 24 48 56);
    [lia|left; reflexivity].
Defined.

Lemma matmul_accumulates_in_order_witness :
  0 <= 2
  /\ (let mem' := DOUBLE_matmul_body 2 2 2 16 8 16 8 16 8 mem_matrices 0 32 64 in
      (forall m p, 0 <= m < 2 -> 0 <= p < 2 ->
                   elem2 mem' 64 16 8 m p = matmul_cell mem_matrices 2 0 32 16 8 16 8 m p)
      /\ (forall a, (forall m p, 0 <= m < 2 -> 0 <= p < 2 -> a <> cell_addr 64 16 8 m p) ->
                    load mem' a = load mem_matrices a)).
Proof.
  split; [lia|].
  apply (@matmul_accumulates_in_order 2 2 2 16 8 16 8 16 8 mem_matrices 0 32 64);
    unfold cell_addr; intros; lia.
Defined.

Lemma cdist_ratio_full_cross_product_witness :
  (forall i k, 0 <= i < 3 -> 0 <= k < 1 ->
               elem2 mem_points 0 8 8 i k = elem2 mem_points 0 8 8 i k)
  /\ DOUBLE_cdist_ratio_body mem_points 3 1 3 1 8 8 8 8 8 8 8 8 0 0 24 24 48 56
     = DOUBLE_pdist_ratio_body mem_points 3 1 1 8 8 8 8 0 24 48 56.
Proof.
  split; [reflexivity|].
  apply (@cdist_ratio_full_cross_product mem_points 3 3 3 1 1 8 8 8 8 8 8 8 8
           0 0 24 24 48 56); reflexivity.
Defined.

Lemma pdist_ratio_identical_spaces_witness :
  1 = 1
  /\ DOUBLE_pdist_ratio_body mem_points 3 1 1 8 8 8 8 0 0 48 56
     = if existsb
            (fun ij => is_finite_nonzero
                         (sq_dist (elem2 mem_points 0 8 8 (fst ij))
                                  (elem2 mem_points 0 8 8 (snd ij)) 1))
            (pairs_lt 3)
       then store (store mem_points 48 d_one) 56 d_one
       else store (store mem_points 48 d_inf) 56 d_zero.
Proof.
  split; [reflexivity|].
  apply (@pdist_ratio_identical_spaces mem_points 3 1 1 8 8 8 8 0 0 48 56);
    reflexivity.
Defined.

Lemma index_below_2 (i : Z) : 0 <= i < 2 -> i = 0 \/ i = 1.
Proof. lia. Qed.

Lemma matmul_identity_finite_witness :
  0 <= 2
  /\ (forall m p, 0 <= m < 2 -> 0 <= p < 2 ->
        let mem' := DOUBLE_matmul_body 2 2 2 16 8 16 8 16 8 mem_identity 0 32 64 in
        elem2 mem' 64 16 8 m p = d_add d_zero (elem2 mem_identity 0 16 8 m p)
        /\ (elem2 mem_identity 0 16 8 m p <> d_negzero ->
            elem2 mem' 64 16 8 m p = elem2 mem_identity 0 16 8 m p)).
Proof.
  split; [lia|].
  apply (@matmul_identity_finite 2 2 16 8 16 8 16 8 mem_identity 0 32 64);
    try (unfold cell_addr; intros; lia).
  - intros m n Hm Hn.
    destruct (index_below_2 Hm) as [-> | ->], (index_below_2 Hn) as [-> | ->];
      split; reflexivity.
  - intros n p Hn Hp.
    destruct (index_below_2 Hn) as [-> | ->], (index_below_2 Hp) as [-> | ->];
      reflexivity.
Defined.

Lemma outer_loop_row_major_witness :
  (length (row_major (map ax_size batch_2x3)) <= 6)%nat
  /\ outer_loop 6 batch_2x3 [0; 1000] (fun o visited => visited ++ [odo_index o]) []
     = Some (row_major (map ax_size batch_2x3)).
Proof.
  assert (H : (length (row_major (map ax_size batch_2x3)) <= 6)%nat)
    by (vm_compute; lia).
  split; [exact H|].
  apply (proj1 (@outer_loop_row_major 6 batch_2x3 [0; 1000] H)).
Defined.

Lemma outer_loop_count_witness :
  Forall (fun ax => 0 <= ax_size ax) batch_2x3
  /\ (Z.to_nat (batch_count batch_2x3) <= 6)%nat
  /\ outer_loop 6 batch_2x3 [0; 1000] (fun _ count => S count) O
     = Some (Z.to_nat (batch_count batch_2x3))
  /\ existsb (fun ax => ax_size ax =? 0) batch_2x0 = true
  /\ DOUBLE_matmul 0 batch_2x0 [0; 32; 64] 2 2 2 16 8 16 8 16 8 mem_matrices
     = Some mem_matrices.
Proof.
  assert (H3 : Forall (fun ax => 0 <= ax_size ax) batch_2x3)
    by (repeat constructor; cbn; lia).
  assert (F3 : (Z.to_nat (batch_count batch_2x3) <= 6)%nat) by (vm_compute; lia).
  assert (H0 : Forall (fun ax => 0 <= ax_size ax) batch_2x0)
    by (repeat constructor; cbn; lia).
  assert (F0 : (Z.to_nat (batch_count batch_2x0) <= 0)%nat) by (vm_compute; lia).
  split; [exact H3|]. split; [exact F3|].
  split; [apply (proj1 (@outer_loop_count 6 batch_2x3 [0; 1000] H3 F3))|].
  split; [reflexivity|].
  destruct (@outer_loop_count 0 batch_2x0 [0; 32; 64] H0 F0) as (_ & _ & Hz).
  destruct (Hz eq_refl) as (_ & _ & _ & _ & Hmm & _).
  apply Hmm.
Defined.

(** * Where the specification and the code part *)

(** Two coincident points in identical numerator and denominator spaces
    ([D = 2], [M = N = 1]): the only ratio is 0/0, and the outputs are
    positive infinity and zero, not 1.0. *)
Lemma pdist_ratio_identical_counterexample :
  let mem' := DOUBLE_pdist_ratio_body mem_coincident 2 1 1 8 8 8 8 0 0 16 24 in
  2 <= 2 /\ 1 <= 1
  /\ (forall i k, 0 <= i < 2 -> 0 <= k < 1 ->
                  elem2 mem_coincident 0 8 8 i k = elem2 mem_coincident 0 8 8 i k)
  /\ load mem' 16 = d_inf /\ load mem' 24 = d_zero
  /\ ~ (load mem' 16 = d_one /\ load mem' 24 = d_one).
Proof.
  cbv zeta. split; [lia|]. split; [lia|]. split; [reflexivity|].
  split; [vm_compute; reflexivity|]. split; [vm_compute; reflexivity|].
  intros (H & _). vm_compute in H. discriminate.
Qed.

(** [X = [[-0.0]]] times the 1x1 identity is [[+0.0]], which is not the
    same bits; and in [X = [[inf 1]]] times the 2x2 identity the infinite
    entry turns the other cell of its row into NaN. *)
Lemma matmul_identity_counterexample :
  (let mem' := DOUBLE_matmul_body 1 1 1 8 8 8 8 8 8 mem_negzero 0 8 16 in
   elem2 mem_negzero 8 8 8 0 0 = d_one
   /\ elem2 mem' 16 8 8 0 0 = d_zero
   /\ elem2 mem' 16 8 8 0 0 <> elem2 mem_negzero 0 8 8 0 0)
  /\ (let mem' := DOUBLE_matmul_body 1 2 2 16 8 16 8 16 8 mem_infinite 0 16 48 in
      map (load mem_infinite) [16; 24; 32; 40] = [d_one; d_zero; d_zero; d_one]
      /\ elem2 mem_infinite 0 16 8 0 1 = d_one
      /\ elem2 mem' 48 16 8 0 1 = d_nan
      /\ elem2 mem' 48 16 8 0 1 <> elem2 mem_infinite 0 16 8 0 1).
Proof.
  cbv zeta. split.
  - split; [vm_compute; reflexivity|]. split; [vm_compute; reflexivity|].
    intros H. vm_compute in H. discriminate.
  - split; [vm_compute; reflexivity|]. split; [vm_compute; reflexivity|].
    split; [vm_compute; reflexivity|].
    intros H. vm_compute in H. discriminate.
Qed.

(** * More on the distance kernel *)

Lemma zrange_shift (lo hi : Z) :
  zrange lo hi = map (fun k => k + lo) (zrange 0 (hi - lo)).
Proof.
  unfold zrange. rewrite map_map. replace (hi - lo - 0) with (hi - lo) by lia.
  apply map_ext. intros k. lia.
Qed.

Lemma sq_dist_from_split (acc : npy_double) (x y : Z -> npy_double) (L1 L2 : Z) :
  0 <= L1 -> 0 <= L2 ->
  sq_dist_from acc x y (L1 + L2)
  = sq_dist_from (sq_dist_from acc x y L1)
      (fun k => x (k + L1)) (fun k => y (k + L1)) L2.
Proof.
  intros H1 H2. unfold sq_dist_from.
  rewrite (zrange_split (lo:=0) (mid:=L1) (hi:=L1 + L2)) by lia.
  rewrite fold_left_app, (zrange_shift L1 (L1 + L2)), fold_left_map_fuse.
  now replace (L1 + L2 - L1) with L2 by lia.
Qed.


Lemma sq_dist_from_sign (acc : npy_double) (x y : Z -> npy_double) (L : Z) :
  sign_clear acc = true -> sign_clear (sq_dist_from acc x y L) = true.
Proof.
  intros Hacc. unfold sq_dist_from.
  apply (fold_left_preserves (fun a => sign_clear a = true)); [|assumption].
  intros a k Ha. apply d_add_sign; [assumption|apply sq_diff_sign].
Qed.

(** * More on rounding and square roots *)

Lemma iter_pos_preserves (A : Type) (P : A -> Prop) (f : A -> A) :
  (forall x, P x -> P (f x)) -> forall n x, P x -> P (iter_pos f n x).
Proof.
  intros Hf. induction n as [n IH|n IH|]; intros x Hx; cbn; auto.
Qed.

Lemma shr_1_nonneg (mrs : shr_record) : 0 <= shr_m mrs -> 0 <= shr_m (shr_1 mrs).
Proof.
  destruct mrs as [m r s]. cbn [shr_m]. intros Hm.
  destruct m as [|[p|p|]|p]; cbn; lia.
Qed.

Lemma shr_fexp_nonneg (m e : Z) (l : location) :
  0 <= m -> 0 <= shr_m (fst (shr_fexp dbl_prec dbl_emax m e l)).
Proof.
  intros Hm. unfold shr_fexp, shr.
  assert (H0 : 0 <= shr_m (shr_record_of_loc m l))
    by (destruct l as [|[| |]]; exact Hm).
  destruct (fexp dbl_prec dbl_emax (Zdigits2 m + e) - e) as [|p|p]; cbn [fst];
    try assumption.
  apply iter_pos_preserves; [apply shr_1_nonneg|assumption].
Qed.

Lemma round_nearest_even_nonneg (m : Z) (l : location) :
  0 <= m -> 0 <= round_nearest_even m l.
Proof.
  intros Hm. destruct l as [|[| |]]; cbn; try lia. destruct (Z.even m); lia.
Qed.

(** Rounding a non-negative mantissa never gives NaN. *)
Lemma binary_round_aux_not_nan (s : bool) (m e : Z) (l : location) :
  0 <= m -> is_nan (binary_round_aux dbl_prec dbl_emax s m e l) = false.
Proof.
  intros Hm. unfold binary_round_aux.
  pose proof (shr_fexp_nonneg e l Hm) as H1.
  destruct (shr_fexp dbl_prec dbl_emax m e l) as [mrs' e']. cbn [fst] in H1.
  pose proof (shr_fexp_nonneg e' loc_Exact
                (round_nearest_even_nonneg (loc_of_shr_record mrs') H1)) as H2.
  destruct (shr_fexp dbl_prec dbl_emax _ e' loc_Exact) as [mrs'' e'']. cbn [fst] in H2.
  destruct (shr_m mrs'') as [|p|p]; try reflexivity; [|lia].
  now destruct (e'' <=? dbl_emax - dbl_prec).
Qed.

(** The square root of a number that is not negative is not negative and
    is not NaN. *)
Lemma npy_sqrt_sign (x : npy_double) :
  sign_clear x = true -> sign_clear (npy_sqrt x) = true.
Proof.
  destruct x as [s|s| |s m e]; cbn [sign_clear]; intros Hs;
    try (apply negb_true_iff in Hs; subst s); try reflexivity.
  unfold npy_sqrt, SFsqrt.
  destruct (SFsqrt_core_binary dbl_prec dbl_emax (Z.pos m) e) as [[mz ez] lz].
  destruct (binary_round_aux_cases false mz ez lz)
    as [H|[H|[H|(m' & e' & H)]]]; cbv zeta in H; now rewrite H.
Qed.

Lemma npy_sqrt_not_nan (x : npy_double) :
  sign_clear x = true -> is_nan x = false -> is_nan (npy_sqrt x) = false.
Proof.
  destruct x as [s|s| |s m e]; cbn [sign_clear is_nan]; intros Hs Hn;
    try (apply negb_true_iff in Hs; subst s); try reflexivity; try discriminate.
  unfold npy_sqrt, SFsqrt, SFsqrt_core_binary.
  set (m' := match e - 2 * _ with Z.pos _ => _ | 0 => Z.pos m | Z.neg _ => 0 end).
  assert (Hm' : 0 <= m').
  { unfold m'. destruct (e - 2 * _) as [|p|p]; try lia. apply Z.shiftl_nonneg. lia. }
  pose proof (Z.sqrtrem_spec m' Hm') as Hspec.
  destruct (Z.sqrtrem m') as [q r].
  apply binary_round_aux_not_nan. lia.
Qed.

(** * More on the running extrema *)

Lemma running_min_sign (l : list npy_double) :
  Forall (fun x => sign_clear x = true) l ->
  sign_clear (running_min l) = true /\ is_nan (running_min l) = false.
Proof.
  intros Hl.
  destruct (@running_char _ d_lt (fun x => sign_clear x = true) is_nan) with
    (l:=l) (m0:=d_inf) as (Hs & Hnan & _); try assumption; try reflexivity.
  - intros x y Hx. destruct x; try discriminate. reflexivity.
  - apply d_lt_irrefl.
  - apply d_lt_trans.
  - apply d_lt_total.
  - auto.
Qed.

Lemma running_max_sign (l : list npy_double) :
  Forall (fun x => sign_clear x = true) l ->
  sign_clear (running_max l) = true /\ is_nan (running_max l) = false.
Proof.
  intros Hl.
  destruct (@running_char _ d_gt (fun x => sign_clear x = true) is_nan) with
    (l:=l) (m0:=d_zero) as (Hs & Hnan & _); try assumption; try reflexivity.
  - intros x y Hx. destruct x; try discriminate. reflexivity.
  - intros x. rewrite d_gt_lt. apply d_lt_irrefl.
  - intros x y z Hx Hy Hz. rewrite !d_gt_lt. intros Hxy Hyz.
    now apply (@d_lt_trans z y x).
  - intros x y Hx Hy Hbx Hby. rewrite !d_gt_lt. intros Hxy Hyx.
    now apply d_lt_total.
  - auto.
Qed.

Lemma sq_ratio_sign (mem : memory) (len_m len_n : npy_intp)
    (num_fr num_to den_fr den_to : addr) (s1 s2 s3 s4 s5 s6 s7 s8 : npy_intp)
    (ij : Z * Z) :
  sign_clear (sq_ratio mem len_m len_n num_fr num_to den_fr den_to
                s1 s2 s3 s4 s5 s6 s7 s8 ij) = true.
Proof.
  destruct ij as [i j]. unfold sq_ratio. apply d_div_sign; apply sq_dist_sign.
Qed.

Lemma sq_ratios_sign (mem : memory) (len_m len_n : npy_intp)
    (num_fr num_to den_fr den_to : addr) (s1 s2 s3 s4 s5 s6 s7 s8 : npy_intp)
    (l : list (Z * Z)) :
  Forall (fun x => sign_clear x = true)
    (map (sq_ratio mem len_m len_n num_fr num_to den_fr den_to
            s1 s2 s3 s4 s5 s6 s7 s8) l).
Proof.
  apply Forall_forall. intros x Hx. apply in_map_iff in Hx as (ij & <- & _).
  apply sq_ratio_sign.
Qed.

(** Values that are NaN can be left out of a running extremum. *)
Lemma running_skip_nan (l : list npy_double) :
  Forall (fun x => sign_clear x = true) l ->
  running_min l = running_min (filter (fun x => negb (is_nan x)) l)
  /\ running_max l = running_max (filter (fun x => negb (is_nan x)) l).
Proof.
  intros Hl.
  assert (Hf : Forall (fun x => sign_clear x = true)
                 (filter (fun x => negb (is_nan x)) l)).
  { apply Forall_forall. intros x Hx. apply filter_In in Hx as (Hx & _).
    revert x Hx. now apply Forall_forall. }
  assert (Hsame : forall x, is_nan x = false ->
                    (In x l <-> In x (filter (fun x => negb (is_nan x)) l))).
  { intros x Hx. rewrite filter_In, Hx. cbn. tauto. }
  split; [apply running_min_same_values|apply running_max_same_values]; assumption.
Qed.

Lemma running_all_nan (l : list npy_double) :
  (forall x, In x l -> x = d_nan) ->
  running_min l = d_inf /\ running_max l = d_zero.
Proof.
  unfold running_min, running_max.
  generalize d_inf as a, d_zero as b.
  induction l as [|x l IH]; intros a b Hl; cbn [fold_left]; [auto|].
  rewrite (Hl x (or_introl eq_refl)). cbn.
  apply IH. intros y Hy. apply Hl. now right.
Qed.

Lemma load_store_store (P : npy_double -> Prop) (mem : memory) (a b : addr)
    (v w : npy_double) :
  P v -> P w ->
  P (load (store (store mem a v) b w) a) /\ P (load (store (store mem a v) b w) b).
Proof.
  intros Hv Hw. unfold load, store.
  destruct (Z.eq_dec a b), (Z.eq_dec a a), (Z.eq_dec b b); try contradiction; auto.
Qed.

Lemma update_min_first (r : npy_double) :
  sign_clear r = true -> update_min r d_inf = if is_nan r then d_inf else r.
Proof. destruct r as [[|]|[|]| |[|] m e]; intros H; try discriminate; reflexivity. Qed.

Lemma update_max_first (r : npy_double) :
  sign_clear r = true -> update_max r d_zero = if is_nan r then d_zero else r.
Proof. destruct r as [[|]|[|]| |[|] m e]; intros H; try discriminate; reflexivity. Qed.






(** * The ratio kernels and the order of the points *)

Section PermutedPoints.
Variables mem mem' : memory.
Variables len_d len_m len_n : npy_intp.
Variables num den num' den' : addr.
Variables stride_num_d stride_m stride_den_d stride_n : npy_intp.
Variables stride_num_d' stride_m' stride_den_d' stride_n' : npy_intp.
Variables sigma tau : Z -> Z.

Hypothesis sigma_range : forall i, 0 <= i < len_d -> 0 <= sigma i < len_d.
Hypothesis tau_range : forall i, 0 <= i < len_d -> 0 <= tau i < len_d.
Hypothesis sigma_tau : forall i, 0 <= i < len_d -> sigma (tau i) = i.
Hypothesis tau_sigma : forall i, 0 <= i < len_d -> tau (sigma i) = i.

Hypothesis num_permuted :
  forall i k, 0 <= i < len_d -> 0 <= k < len_m ->
              elem2 mem' num' stride_num_d' stride_m' i k
              = elem2 mem num stride_num_d stride_m (sigma i) k.
Hypothesis den_permuted :
  forall i k, 0 <= i < len_d -> 0 <= k < len_n ->
              elem2 mem' den' stride_den_d' stride_n' i k
              = elem2 mem den stride_den_d stride_n (sigma i) k.

Let ratio := pdist_sq_ratio mem len_m len_n num den
               stride_num_d stride_m stride_den_d stride_n.
Let ratio' := pdist_sq_ratio mem' len_m len_n num' den'
                stride_num_d' stride_m' stride_den_d' stride_n'.

Lemma permuted_ratio (i j : Z) :
  0 <= i < len_d -> 0 <= j < len_d -> ratio' (i, j) = ratio (sigma i, sigma j).
Proof.
  intros Hi Hj. unfold ratio', ratio, pdist_sq_ratio, sq_ratio, sq_dist.
  f_equal; apply sq_dist_from_ext; intros k Hk; auto.
Qed.

Lemma permuted_ratios_same (x : npy_double) :
  In x (map ratio' (pairs_lt len_d)) <-> In x (map ratio (pairs_lt len_d)).
Proof.
  rewrite !in_map_iff. split.
  - intros ([i j] & Hr & Hin). apply pairs_lt_In in Hin.
    rewrite permuted_ratio in Hr by lia.
    assert (Hne : sigma i <> sigma j).
    { intros Heq. assert (i = j); [|lia].
      rewrite <- (tau_sigma (i:=i)), <- (tau_sigma (i:=j)), Heq by lia. reflexivity. }
    pose proof (sigma_range (i:=i)). pose proof (sigma_range (i:=j)).
    destruct (Z_lt_ge_dec (sigma i) (sigma j)) as [Hlt|Hge].
    + exists (sigma i, sigma j). split; [assumption|]. apply pairs_lt_In. lia.
    + exists (sigma j, sigma i). split.
      * unfold ratio. now rewrite pdist_sq_ratio_sym.
      * apply pairs_lt_In. lia.
  - intros ([a b] & Hr & Hin). apply pairs_lt_In in Hin.
    assert (Hne : tau a <> tau b).
    { intros Heq. assert (a = b); [|lia].
      rewrite <- (sigma_tau (i:=a)), <- (sigma_tau (i:=b)), Heq by lia. reflexivity. }
    pose proof (tau_range (i:=a)). pose proof (tau_range (i:=b)).
    destruct (Z_lt_ge_dec (tau a) (tau b)) as [Hlt|Hge].
    + exists (tau a, tau b). split; [|apply pairs_lt_In; lia].
      rewrite permuted_ratio, !sigma_tau by lia. assumption.
    + exists (tau b, tau a). split; [|apply pairs_lt_In; lia].
      rewrite permuted_ratio, !sigma_tau by lia.
      unfold ratio. now rewrite pdist_sq_ratio_sym.
Qed.

Lemma permuted_extrema :
  running_min (map ratio' (pairs_lt len_d)) = running_min (map ratio (pairs_lt len_d))
  /\ running_max (map ratio' (pairs_lt len_d)) = running_max (map ratio (pairs_lt len_d)).
Proof.
  split; [apply running_min_same_values|apply running_max_same_values];
    try apply ratios_sign; intros x _; apply permuted_ratios_same.
Qed.
End PermutedPoints.

Section SwappedSets.
Variable mem : memory.
Variables len_fr_d len_to_d len_m len_n : npy_intp.
Variables args0 args1 args2 args3 : addr.
Variables stride_num_fr_d stride_fr_m stride_num_to_d stride_to_m : npy_intp.
Variables stride_den_fr_d stride_fr_n stride_den_to_d stride_to_n : npy_intp.

Let ratio := sq_ratio mem len_m len_n args0 args1 args2 args3
               stride_num_fr_d stride_fr_m stride_num_to_d stride_to_m
               stride_den_fr_d stride_fr_n stride_den_to_d stride_to_n.
Let swapped := sq_ratio mem len_m len_n args1 args0 args3 args2
                 stride_num_to_d stride_to_m stride_num_fr_d stride_fr_m
                 stride_den_to_d stride_to_n stride_den_fr_d stride_fr_n.

Lemma swapped_ratio (i j : Z) : swapped (j, i) = ratio (i, j).
Proof.
  unfold swapped, ratio, sq_ratio. f_equal; apply sq_dist_sym.
Qed.

Lemma swapped_ratios_same (x : npy_double) :
  In x (map swapped (cross len_to_d len_fr_d)) <-> In x (map ratio (cross len_fr_d len_to_d)).
Proof.
  rewrite !in_map_iff. split.
  - intros ([j i] & Hr & Hin). apply cross_In in Hin.
    exists (i, j). split; [now rewrite <- swapped_ratio|]. apply cross_In. lia.
  - intros ([i j] & Hr & Hin). apply cross_In in Hin.
    exists (j, i). split; [now rewrite swapped_ratio|]. apply cross_In. lia.
Qed.

Lemma swapped_extrema :
  running_min (map swapped (cross len_to_d len_fr_d))
  = running_min (map ratio (cross len_fr_d len_to_d))
  /\ running_max (map swapped (cross len_to_d len_fr_d))
     = running_max (map ratio (cross len_fr_d len_to_d)).
Proof.
  split; [apply running_min_same_values|apply running_max_same_values];
    try apply sq_ratios_sign; intros x _; apply swapped_ratios_same.
Qed.
End SwappedSets.

(** * More on matmul *)

Lemma for_loop_empty (St : Type) (lo hi : Z) (body : Z -> St -> St) (s : St) :
  hi <= lo -> for_loop lo hi body s = s.
Proof.
  intros H. unfold for_loop. replace (Z.to_nat (hi - lo)) with O by lia. reflexivity.
Qed.

(** With no row or no column to write, [matmul] stores nothing. *)
Lemma matmul_empty_output (len_m len_n len_p : npy_intp)
    (stride_x_m stride_x_n stride_y_n stride_y_p stride_z_m stride_z_p : npy_intp)
    (mem : memory) (X Y Zb : addr) :
  len_m <= 0 \/ len_p <= 0 ->
  DOUBLE_matmul_body len_m len_n len_p stride_x_m stride_x_n stride_y_n stride_y_p
    stride_z_m stride_z_p mem X Y Zb = mem.
Proof.
  intros [Hm|Hp]; unfold DOUBLE_matmul_body, matmul_loops.
  - now rewrite for_loop_empty by assumption.
  - pose (P := fun (_ : Z) (t : matmul_state) => mm_mem t = mem).
    match goal with |- mm_mem ?t = _ => assert (H : P (Z.max 0 len_m) t) end.
    { apply for_loop_invariant; unfold P; [reflexivity|].
      intros i t _ Ht. unfold matmul_m_step. cbn [mm_mem].
      now rewrite for_loop_empty by assumption. }
    exact H.
Qed.

(** The cursors of [matmul]: every rewind undoes the loop before it. *)
Section MatmulCursors.
Variables len_m len_n len_p : npy_intp.
Variables stride_x_m stride_x_n stride_y_n stride_y_p stride_z_m stride_z_p : npy_intp.

Hypothesis len_n_nonneg : 0 <= len_n.
Hypothesis len_p_nonneg : 0 <= len_p.

Lemma matmul_n_loop_cursors (s : matmul_state) :
  let s' := for_loop 0 len_n (fun _ => matmul_n_step stride_x_n stride_y_n) s in
  ip_x s' = ip_x s + len_n * stride_x_n
  /\ ip_y s' = ip_y s + len_n * stride_y_n
  /\ op_z s' = op_z s.
Proof.
  cbv zeta.
  pose (P := fun n t => ip_x t = ip_x s + n * stride_x_n
                        /\ ip_y t = ip_y s + n * stride_y_n
                        /\ op_z t = op_z s).
  match goal with |- ip_x ?t = _ /\ _ => assert (H : P (Z.max 0 len_n) t) end.
  { apply for_loop_invariant; unfold P.
    - repeat split; lia.
    - intros n t _ (Hx & Hy & Hz). unfold matmul_n_step. cbn [ip_x ip_y op_z].
      repeat split; lia. }
  unfold P in H. now rewrite Z.max_r in H by lia.
Qed.

Lemma matmul_p_step_cursors (s : matmul_state) :
  let s' := matmul_p_step len_n stride_x_n stride_y_n stride_y_p stride_z_p s in
  ip_x s' = ip_x s /\ ip_y s' = ip_y s + stride_y_p /\ op_z s' = op_z s + stride_z_p.
Proof.
  cbv zeta. unfold matmul_p_step.
  match goal with |- context [for_loop 0 len_n ?b ?s1] =>
    destruct (matmul_n_loop_cursors s1) as (Hx & Hy & Hz) end.
  cbv zeta in Hx, Hy, Hz. cbn [ip_x ip_y op_z] in *.
  rewrite Hx, Hy, Hz. unfold iback_x_n, iback_y_n. repeat split; lia.
Qed.

Lemma matmul_m_step_cursors (s : matmul_state) :
  let s' := matmul_m_step len_n len_p stride_x_m stride_x_n stride_y_n stride_y_p
              stride_z_m stride_z_p s in
  ip_x s' = ip_x s + stride_x_m /\ ip_y s' = ip_y s /\ op_z s' = op_z s + stride_z_m.
Proof.
  cbv zeta. unfold matmul_m_step.
  pose (P := fun p t => ip_x t = ip_x s /\ ip_y t = ip_y s + p * stride_y_p
                        /\ op_z t = op_z s + p * stride_z_p).
  match goal with |- context [for_loop 0 len_p ?b s] =>
    assert (H : P (Z.max 0 len_p) (for_loop 0 len_p b s)) end.
  { apply for_loop_invariant; unfold P.
    - repeat split; lia.
    - intros p t _ (Hx & Hy & Hz).
      destruct (matmul_p_step_cursors t) as (Hx' & Hy' & Hz'). cbv zeta in *.
      rewrite Hx', Hy', Hz'. repeat split; lia. }
  destruct H as (Hx & Hy & Hz). rewrite Z.max_r in * by lia.
  cbn [ip_x ip_y op_z]. rewrite Hx, Hy, Hz. unfold iback_y_p, iback_z_p.
  repeat split; lia.
Qed.

Lemma matmul_loops_cursors (mem : memory) (X Y Zb : addr) :
  0 <= len_m ->
  let s := matmul_loops len_m len_n len_p stride_x_m stride_x_n stride_y_n stride_y_p
             stride_z_m stride_z_p mem X Y Zb in
  ip_x s = X + len_m * stride_x_m /\ ip_y s = Y /\ op_z s = Zb + len_m * stride_z_m.
Proof.
  intros Hm. cbv zeta. unfold matmul_loops.
  pose (P := fun m t => ip_x t = X + m * stride_x_m /\ ip_y t = Y
                        /\ op_z t = Zb + m * stride_z_m).
  match goal with |- ip_x ?t = _ /\ _ => assert (H : P (Z.max 0 len_m) t) end.
  { apply for_loop_invariant; unfold P.
    - cbn. repeat split; lia.
    - intros m t _ (Hx & Hy & Hz).
      destruct (matmul_m_step_cursors t) as (Hx' & Hy' & Hz'). cbv zeta in *.
      rewrite Hx', Hy', Hz'. repeat split; lia. }
  unfold P in H. now rewrite Z.max_r in H by lia.
Qed.
End MatmulCursors.




(** An address is a cell of a strided array, or it is none of them. *)
Lemma in_range_or_not (P : Z -> Prop) (lo hi : Z) :
  (forall i, P i \/ ~ P i) ->
  (exists i, lo <= i < hi /\ P i) \/ (forall i, lo <= i < hi -> ~ P i).
Proof.
  intros Hdec. remember (Z.to_nat (hi - lo)) as n eqn:Hn.
  revert hi Hn. induction n as [|n IH]; intros hi Hn.
  - right. intros i Hi. lia.
  - destruct (IH (hi - 1)) as [(i & Hi & HP)|Hnone]; [lia| |].
    + left. exists i. split; [lia|assumption].
    + destruct (Hdec (hi - 1)) as [HP|HnP].
      * left. exists (hi - 1). split; [lia|assumption].
      * right. intros i Hi. destruct (Z.eq_dec i (hi - 1)) as [->|Hne]; [assumption|].
        apply Hnone. lia.
Qed.


(** What [matmul] leaves in memory when its output does not overlap its
    inputs: the products in the output cells, everything else as it was. *)
Lemma matmul_body_spec (len_m len_n len_p : npy_intp)
    (stride_x_m stride_x_n stride_y_n stride_y_p stride_z_m stride_z_p : npy_intp)
    (mem : memory) (X Y Zb : addr) :
  0 <= len_n ->
  0 <= len_p ->
  (forall m p m' p',
      0 <= m < len_m -> 0 <= p < len_p -> 0 <= m' < len_m -> 0 <= p' < len_p ->
      cell_addr Zb stride_z_m stride_z_p m p = cell_addr Zb stride_z_m stride_z_p m' p' ->
      m = m' /\ p = p') ->
  (forall m p m' n,
      0 <= m < len_m -> 0 <= p < len_p -> 0 <= m' < len_m -> 0 <= n < len_n ->
      cell_addr Zb stride_z_m stride_z_p m p <> cell_addr X stride_x_m stride_x_n m' n) ->
  (forall m p n p',
      0 <= m < len_m -> 0 <= p < len_p -> 0 <= n < len_n -> 0 <= p' < len_p ->
      cell_addr Zb stride_z_m stride_z_p m p <> cell_addr Y stride_y_n stride_y_p n p') ->
  let mem' :=
    DOUBLE_matmul_body len_m len_n len_p stride_x_m stride_x_n stride_y_n stride_y_p
      stride_z_m stride_z_p mem X Y Zb in
  (forall m p,
      0 <= m < len_m -> 0 <= p < len_p ->
      load mem' (cell_addr Zb stride_z_m stride_z_p m p)
      = matmul_cell mem len_n X Y stride_x_m stride_x_n stride_y_n stride_y_p m p)
  /\ (forall a,
         (forall m p, 0 <= m < len_m -> 0 <= p < len_p ->
                      a <> cell_addr Zb stride_z_m stride_z_p m p) ->
         load mem' a = load mem a).
Proof.
  intros Hn Hp Hzz Hzx Hzy mem'.
  destruct (@matmul_loops_spec len_m len_n len_p stride_x_m stride_x_n
              stride_y_n stride_y_p stride_z_m stride_z_p mem X Y Zb Hn Hp Hzz Hzx Hzy)
    as (Hcells & Hframe).
  split.
  - intros m p Hm Hp'. apply Hcells; try assumption. lia.
  - intros a Ha. apply Hframe. intros m p Hm Hp' _. now apply Ha.
Qed.

Lemma matmul_cell_no_terms (mem : memory) (X Y : addr)
    (stride_x_m stride_x_n stride_y_n stride_y_p : npy_intp) (m p : Z) :
  matmul_cell mem 0 X Y stride_x_m stride_x_n stride_y_n stride_y_p m p = d_zero.
Proof. reflexivity. Qed.

Lemma matmul_cell_sum_squares (mem : memory) (len_n : npy_intp) (X : addr)
    (stride_x_m stride_n stride_y_p : npy_intp) :
  matmul_cell mem len_n X X stride_x_m stride_n stride_n stride_y_p 0 0
  = sum_squares (elem1 mem X stride_n) len_n.
Proof.
  unfold matmul_cell, sum_squares. apply fold_left_ext_on. intros acc n _.
  unfold elem2, elem1, cell_addr. do 2 f_equal; f_equal; lia.
Qed.

(** * More on norm *)

(** A number that is not negative and not NaN. *)
Lemma d_mul_self_ok (x : npy_double) :
  is_nan x = false ->
  sign_clear (d_mul x x) = true /\ is_nan (d_mul x x) = false.
Proof.
  destruct x as [s|s| |s m e]; try discriminate; intros _;
    try (destruct s; split; reflexivity).
  unfold d_mul, SFmul. rewrite xorb_nilpotent. split.
  - destruct (binary_round_aux_cases false (Z.pos (m * m)) (e + e) loc_Exact)
      as [H|[H|[H|(m' & e' & H)]]]; cbv zeta in H; now rewrite H.
  - apply binary_round_aux_not_nan. lia.
Qed.

Lemma d_add_ok (a b : npy_double) :
  sign_clear a = true -> is_nan a = false ->
  sign_clear b = true -> is_nan b = false ->
  sign_clear (d_add a b) = true /\ is_nan (d_add a b) = false.
Proof.
  intros Ha Hna Hb Hnb. split; [now apply d_add_sign|].
  destruct a as [sa|sa| |sa ma ea], b as [sb|sb| |sb mb eb];
    try discriminate;
    cbn [sign_clear] in Ha, Hb;
    apply negb_true_iff in Ha; apply negb_true_iff in Hb; subst; try reflexivity.
  unfold d_add, SFadd. cbn [cond_Zopp Z.add binary_normalize]. unfold binary_round.
  destruct (shl_align _ _ _) as [mz ez]. apply binary_round_aux_not_nan. lia.
Qed.

Lemma d_add_nan_r (a : npy_double) : d_add a d_nan = d_nan.
Proof. now destruct a. Qed.

Lemma d_add_inf_r (a : npy_double) :
  sign_clear a = true -> is_nan a = false -> d_add a d_inf = d_inf.
Proof.
  destruct a as [s|s| |s m e]; try discriminate; cbn [sign_clear]; intros Hs _;
    apply negb_true_iff in Hs; subst; reflexivity.
Qed.

Lemma d_add_inf_l (b : npy_double) :
  sign_clear b = true -> is_nan b = false -> d_add d_inf b = d_inf.
Proof.
  destruct b as [s|s| |s m e]; try discriminate; cbn [sign_clear]; intros Hs _;
    apply negb_true_iff in Hs; subst; reflexivity.
Qed.

Lemma d_sub_zero_r (x : npy_double) : d_sub x d_zero = x.
Proof. destruct x as [[|]|[|]| |s m e]; reflexivity. Qed.

Lemma sum_squares_ok (x : Z -> npy_double) (L : Z) :
  (forall k, 0 <= k < L -> is_nan (x k) = false) ->
  sign_clear (sum_squares x L) = true /\ is_nan (sum_squares x L) = false.
Proof.
  intros Hx. unfold sum_squares.
  assert (G : forall l acc,
             (forall k, In k l -> is_nan (x k) = false) ->
             sign_clear acc = true /\ is_nan acc = false ->
             let r := fold_left (fun acc n => d_add acc (d_mul (x n) (x n))) l acc in
             sign_clear r = true /\ is_nan r = false).
  { induction l as [|k l IH]; intros acc Hl (Hs & Hn); cbn [fold_left]; [auto|].
    apply IH; [intros k' Hk'; apply Hl; now right|].
    destruct (d_mul_self_ok (x k)) as (Hs' & Hn'); [apply Hl; now left|].
    now apply d_add_ok. }
  apply G; [|split; reflexivity].
  intros k Hk. apply Hx. now apply zrange_In in Hk.
Qed.

Lemma sum_squares_sign (x : Z -> npy_double) (L : Z) :
  sign_clear (sum_squares x L) = true.
Proof.
  unfold sum_squares.
  apply (fold_left_preserves (fun a => sign_clear a = true)); [|reflexivity].
  intros a k Ha. apply d_add_sign; [assumption|].
  destruct (x k) as [s|s| |s m e]; try reflexivity; try (now destruct s).
  unfold d_mul, SFmul. rewrite xorb_nilpotent.
  destruct (binary_round_aux_cases false (Z.pos (m * m)) (e + e) loc_Exact)
    as [H|[H|[H|(m' & e' & H)]]]; cbv zeta in H; now rewrite H.
Qed.

Lemma sum_squares_nan (x : Z -> npy_double) (L k : Z) :
  0 <= k < L -> is_nan (x k) = true -> sum_squares x L = d_nan.
Proof.
  intros Hk Hnan. unfold sum_squares.
  rewrite (zrange_split (lo:=0) (mid:=k) (hi:=L)) by lia.
  rewrite (zrange_cons (lo:=k) (hi:=L)) by lia.
  rewrite fold_left_app. cbn [fold_left].
  destruct (x k); try discriminate. cbn [d_mul SFmul]. rewrite d_add_nan_r.
  apply (fold_left_preserves (fun a => a = d_nan)); [|reflexivity].
  intros a n ->. reflexivity.
Qed.

Lemma sum_squares_inf (x : Z -> npy_double) (L k : Z) :
  0 <= k < L ->
  (forall n, 0 <= n < L -> is_nan (x n) = false) ->
  is_finite (x k) = false ->
  sum_squares x L = d_inf.
Proof.
  intros Hk Hx Hinf.
  assert (Hpre := @sum_squares_ok x k).
  unfold sum_squares in *.
  rewrite (zrange_split (lo:=0) (mid:=k) (hi:=L)) by lia.
  rewrite (zrange_cons (lo:=k) (hi:=L)) by lia.
  rewrite fold_left_app. cbn [fold_left].
  destruct Hpre as (Hs & Hn); [intros n Hn; apply Hx; lia|].
  assert (Hsq : d_mul (x k) (x k) = d_inf).
  { specialize (Hx k Hk). destruct (x k) as [s|s| |s m e]; try discriminate.
    now destruct s. }
  rewrite Hsq, d_add_inf_r by assumption.
  assert (G : forall l, (forall n, In n l -> is_nan (x n) = false) ->
            fold_left (fun acc n => d_add acc (d_mul (x n) (x n))) l d_inf = d_inf).
  { induction l as [|n l IH]; intros Hl; cbn [fold_left]; [reflexivity|].
    destruct (d_mul_self_ok (x n)) as (Hs' & Hn'); [apply Hl; now left|].
    rewrite d_add_inf_l by assumption. apply IH. intros n' Hn''. apply Hl. now right. }
  apply G. intros n Hn'. apply zrange_In in Hn'. apply Hx. lia.
Qed.

Lemma norm_body_value (mem : memory) (len_n stride_n : npy_intp) (args0 args1 : addr) :
  load (DOUBLE_norm_body mem len_n stride_n args0 args1) args1
  = npy_sqrt (sum_squares (elem1 mem args0 stride_n) len_n).
Proof.
  unfold DOUBLE_norm_body. rewrite norm_loop_spec. apply load_store_same.
Qed.

(** * Further properties of the kernels *)

(** X1: [DOUBLE_dist] leaves its [X] cursor where it started, and its [Y]
    cursor too when the two views have the same length: the loop runs
    [x_in->len] times for both cursors, and each is rewound by its own
    [back_strides].  With different lengths the [Y] cursor ends
    [(len_x - len_y)] elements off. *)
Theorem DOUBLE_dist_cursors_rewind :
  forall (mem : memory) (X Y : addr) (dist : npy_double)
         (len_x stride_x len_y stride_y : npy_intp),
    0 <= len_x ->
    let s := DOUBLE_dist_run mem X Y dist (init_linearize_vdata len_x stride_x)
               (init_linearize_vdata len_y stride_y) in
    dist_X s = X
    /\ dist_Y s = Y + (len_x - len_y) * stride_y
    /\ (len_y = len_x -> dist_Y s = Y).
Proof.
  intros until stride_y. intros Hlen s.
  assert (H : dist_X s = X /\ dist_Y s = Y + (len_x - len_y) * stride_y).
  { unfold s, DOUBLE_dist_run.
    destruct (DOUBLE_dist_loop_spec mem X Y dist (init_linearize_vdata len_x stride_x)
                (init_linearize_vdata len_y stride_y)) as (HX & HY & _).
    cbn [dist_X dist_Y]. rewrite HX, HY.
    cbn [len strides back_strides init_linearize_vdata].
    rewrite Z.max_r by lia. split; lia. }
  destruct H as (HX & HY). repeat split; try assumption.
  intros ->. rewrite HY. lia.
Qed.

Lemma DOUBLE_dist_cursors_rewind_witness :
  0 <= 3
  /\ (let s := DOUBLE_dist_run mem_points 0 24 d_zero (init_linearize_vdata 3 8)
                 (init_linearize_vdata 3 8) in
      dist_X s = 0 /\ dist_Y s = 24 + (3 - 3) * 8 /\ (3 = 3 -> dist_Y s = 24)).
Proof.
  split; [lia|]. apply (@DOUBLE_dist_cursors_rewind mem_points 0 24 d_zero 3 8 3 8). lia.
Defined.



(** X3: a squared distance is never negative: started from an accumulator
    whose sign bit is clear (zero, as the kernels do), [DOUBLE_dist]
    returns positive zero, a positive number, positive infinity or NaN,
    whatever the memory holds. *)
Theorem DOUBLE_dist_never_negative :
  forall (mem : memory) (X Y : addr) (dist : npy_double) (x_in y_in : LINEARIZE_DATA_t),
    sign_clear dist = true ->
    sign_clear (DOUBLE_dist mem X Y dist x_in y_in) = true
    /\ sign_clear (DOUBLE_dist mem X Y d_zero x_in y_in) = true.
Proof.
  intros mem X Y dist x_in y_in Hd. rewrite !DOUBLE_dist_spec.
  split; apply sq_dist_from_sign; [assumption|reflexivity].
Qed.

Lemma DOUBLE_dist_never_negative_witness :
  sign_clear d_one = true
  /\ sign_clear (DOUBLE_dist mem_points 0 24 d_one (init_linearize_vdata 3 8)
                   (init_linearize_vdata 3 8)) = true.
Proof.
  split; [reflexivity|].
  apply (@DOUBLE_dist_never_negative mem_points 0 24 d_one (init_linearize_vdata 3 8)
           (init_linearize_vdata 3 8)).
  reflexivity.
Defined.


(** X5: because [DOUBLE_dist] adds into the accumulator it is given, a
    distance over [L1 + L2] coordinates can be taken in two calls: the
    first [L1] coordinates, then the remaining [L2] from cursors moved [L1]
    elements on, with the first result as accumulator.  The result is the
    same bit for bit. *)
Theorem DOUBLE_dist_in_two_calls :
  forall (mem : memory) (X Y : addr) (dist : npy_double)
         (L1 L2 stride_x stride_y : npy_intp),
    0 <= L1 -> 0 <= L2 ->
    DOUBLE_dist mem X Y dist (init_linearize_vdata (L1 + L2) stride_x)
      (init_linearize_vdata (L1 + L2) stride_y)
    = DOUBLE_dist mem (X + L1 * stride_x) (Y + L1 * stride_y)
        (DOUBLE_dist mem X Y dist (init_linearize_vdata L1 stride_x)
           (init_linearize_vdata L1 stride_y))
        (init_linearize_vdata L2 stride_x) (init_linearize_vdata L2 stride_y).
Proof.
  intros until stride_y. intros H1 H2. rewrite !DOUBLE_dist_spec.
  cbn [len strides init_linearize_vdata].
  rewrite sq_dist_from_split by assumption.
  apply sq_dist_from_ext; intros k _; unfold elem1; f_equal; lia.
Qed.

Lemma DOUBLE_dist_in_two_calls_witness :
  0 <= 1 /\ 0 <= 2
  /\ DOUBLE_dist mem_points 0 24 d_zero (init_linearize_vdata (1 + 2) 8)
       (init_linearize_vdata (1 + 2) 8)
     = DOUBLE_dist mem_points (0 + 1 * 8) (24 + 1 * 8)
         (DOUBLE_dist mem_points 0 24 d_zero (init_linearize_vdata 1 8)
            (init_linearize_vdata 1 8))
         (init_linearize_vdata 2 8) (init_linearize_vdata 2 8).
Proof.
  split; [lia|]. split; [lia|].
  apply (@DOUBLE_dist_in_two_calls mem_points 0 24 d_zero 1 2 8 8); lia.
Defined.


(** X6: [pdist_ratio] and [cdist_ratio] never write NaN and never write a
    negative number, whatever the memory holds (coincident points,
    infinities and NaN coordinates included): a NaN ratio fails both
    comparisons, so the extrema stay among positive infinity, zero and the
    ratios that are not NaN, and the square root keeps them so. *)
Theorem dist_ratio_outputs_never_nan :
  forall (mem : memory) (len_d len_m len_n : npy_intp)
         (stride_num_d stride_m stride_den_d stride_n : npy_intp)
         (args0 args1 args2 args3 : addr)
         (len_fr_d len_to_d len_cm len_cn : npy_intp)
         (stride_num_fr_d stride_fr_m stride_num_to_d stride_to_m : npy_intp)
         (stride_den_fr_d stride_fr_n stride_den_to_d stride_to_n : npy_intp)
         (cargs0 cargs1 cargs2 cargs3 cargs4 cargs5 : addr),
    let ok v := is_nan v = false /\ sign_clear v = true in
    let pmem :=
      DOUBLE_pdist_ratio_body mem len_d len_m len_n
        stride_num_d stride_m stride_den_d stride_n args0 args1 args2 args3 in
    let cmem :=
      DOUBLE_cdist_ratio_body mem len_fr_d len_cm len_to_d len_cn
        stride_num_fr_d stride_fr_m stride_num_to_d stride_to_m
        stride_den_fr_d stride_fr_n stride_den_to_d stride_to_n
        cargs0 cargs1 cargs2 cargs3 cargs4 cargs5 in
    (ok (load pmem args2) /\ ok (load pmem args3))
    /\ (ok (load cmem cargs4) /\ ok (load cmem cargs5)).
Proof.
  intros. unfold pmem, cmem, DOUBLE_pdist_ratio_body, DOUBLE_cdist_ratio_body.
  destruct (pdist_ratio_loops_spec mem len_d len_m len_n
              stride_num_d stride_m stride_den_d stride_n args0 args1) as (-> & ->).
  destruct (cdist_ratio_loops_spec mem len_fr_d len_cm len_to_d len_cn
              stride_num_fr_d stride_fr_m stride_num_to_d stride_to_m
              stride_den_fr_d stride_fr_n stride_den_to_d stride_to_n
              cargs0 cargs1 cargs2 cargs3) as (-> & ->).
  assert (Hok_min : forall l, Forall (fun x => sign_clear x = true) l ->
                      ok (npy_sqrt (running_min l))).
  { intros l Hl. destruct (running_min_sign Hl) as (Hs & Hn).
    split; [now apply npy_sqrt_not_nan|now apply npy_sqrt_sign]. }
  assert (Hok_max : forall l, Forall (fun x => sign_clear x = true) l ->
                      ok (npy_sqrt (running_max l))).
  { intros l Hl. destruct (running_max_sign Hl) as (Hs & Hn).
    split; [now apply npy_sqrt_not_nan|now apply npy_sqrt_sign]. }
  split; apply load_store_store;
    (apply Hok_min || apply Hok_max); (apply ratios_sign || apply sq_ratios_sign).
Qed.

(** X7: the pairs whose ratio is NaN (coincident points in denominator
    space with coincident points in numerator space, infinite distances
    over infinite distances, NaN coordinates) have no influence on what
    [pdist_ratio] and [cdist_ratio] write: the outputs are those of the
    ratios that are not NaN alone. *)
Theorem dist_ratio_skips_nan_pairs :
  forall (mem : memory) (len_d len_m len_n : npy_intp)
         (stride_num_d stride_m stride_den_d stride_n : npy_intp)
         (args0 args1 args2 args3 : addr)
         (len_fr_d len_to_d len_cm len_cn : npy_intp)
         (stride_num_fr_d stride_fr_m stride_num_to_d stride_to_m : npy_intp)
         (stride_den_fr_d stride_fr_n stride_den_to_d stride_to_n : npy_intp)
         (cargs0 cargs1 cargs2 cargs3 cargs4 cargs5 : addr),
    let not_nan x := negb (is_nan x) in
    let ratios :=
      map (pdist_sq_ratio mem len_m len_n args0 args1
             stride_num_d stride_m stride_den_d stride_n)
          (pairs_lt len_d) in
    let cratios :=
      map (sq_ratio mem len_cm len_cn cargs0 cargs1 cargs2 cargs3
             stride_num_fr_d stride_fr_m stride_num_to_d stride_to_m
             stride_den_fr_d stride_fr_n stride_den_to_d stride_to_n)
          (cross len_fr_d len_to_d) in
    DOUBLE_pdist_ratio_body mem len_d len_m len_n
      stride_num_d stride_m stride_den_d stride_n args0 args1 args2 args3
    = store (store mem args2 (npy_sqrt (running_min (filter not_nan ratios))))
        args3 (npy_sqrt (running_max (filter not_nan ratios)))
    /\ DOUBLE_cdist_ratio_body mem len_fr_d len_cm len_to_d len_cn
         stride_num_fr_d stride_fr_m stride_num_to_d stride_to_m
         stride_den_fr_d stride_fr_n stride_den_to_d stride_to_n
         cargs0 cargs1 cargs2 cargs3 cargs4 cargs5
       = store (store mem cargs4 (npy_sqrt (running_min (filter not_nan cratios))))
           cargs5 (npy_sqrt (running_max (filter not_nan cratios))).
Proof.
  intros. unfold DOUBLE_pdist_ratio_body, DOUBLE_cdist_ratio_body.
  destruct (pdist_ratio_loops_spec mem len_d len_m len_n
              stride_num_d stride_m stride_den_d stride_n args0 args1) as (-> & ->).
  destruct (cdist_ratio_loops_spec mem len_fr_d len_cm len_to_d len_cn
              stride_num_fr_d stride_fr_m stride_num_to_d stride_to_m
              stride_den_fr_d stride_fr_n stride_den_to_d stride_to_n
              cargs0 cargs1 cargs2 cargs3) as (-> & ->).
  fold ratios. fold cratios. unfold not_nan.
  destruct (running_skip_nan (l:=ratios)) as (<- & <-); [apply ratios_sign|].
  destruct (running_skip_nan (l:=cratios)) as (<- & <-); [apply sq_ratios_sign|].
  split; reflexivity.
Qed.

(** X8: with exactly two points there is one ratio, and [pdist_ratio]
    writes its square root to both outputs, unless the ratio is NaN, in
    which case it writes positive infinity and zero. *)
Theorem pdist_ratio_two_points :
  forall (mem : memory) (len_m len_n : npy_intp)
         (stride_num_d stride_m stride_den_d stride_n : npy_intp)
         (args0 args1 args2 args3 : addr),
    let r := pdist_sq_ratio mem len_m len_n args0 args1
               stride_num_d stride_m stride_den_d stride_n (0, 1) in
    DOUBLE_pdist_ratio_body mem 2 len_m len_n
      stride_num_d stride_m stride_den_d stride_n args0 args1 args2 args3
    = if is_nan r
      then store (store mem args2 d_inf) args3 d_zero
      else store (store mem args2 (npy_sqrt r)) args3 (npy_sqrt r).
Proof.
  intros. unfold DOUBLE_pdist_ratio_body.
  destruct (pdist_ratio_loops_spec mem 2 len_m len_n
              stride_num_d stride_m stride_den_d stride_n args0 args1) as (-> & ->).
  change (pairs_lt 2) with [(0, 1)]. cbn [map]. fold r.
  unfold running_min, running_max. cbn [fold_left].
  rewrite update_min_first, update_max_first by apply pdist_sq_ratio_sign.
  destruct (is_nan r); reflexivity.
Qed.





(** X11: [pdist_ratio] does not depend on the order in which the points
    are stored: on a second pair of arrays that holds the same points
    permuted, both spaces by the same permutation, it writes the same two
    values, bit for bit.  A negative stride, which walks the same array
    backwards, is one such permutation. *)
Theorem pdist_ratio_permutation_invariant :
  forall (mem mem' : memory) (len_d len_m len_n : npy_intp)
         (num den num' den' : addr)
         (stride_num_d stride_m stride_den_d stride_n : npy_intp)
         (stride_num_d' stride_m' stride_den_d' stride_n' : npy_intp)
         (sigma tau : Z -> Z) (args2 args3 args2' args3' : addr),
    (forall i, 0 <= i < len_d -> 0 <= sigma i < len_d) ->
    (forall i, 0 <= i < len_d -> 0 <= tau i < len_d) ->
    (forall i, 0 <= i < len_d -> sigma (tau i) = i) ->
    (forall i, 0 <= i < len_d -> tau (sigma i) = i) ->
    (forall i k, 0 <= i < len_d -> 0 <= k < len_m ->
                 elem2 mem' num' stride_num_d' stride_m' i k
                 = elem2 mem num stride_num_d stride_m (sigma i) k) ->
    (forall i k, 0 <= i < len_d -> 0 <= k < len_n ->
                 elem2 mem' den' stride_den_d' stride_n' i k
                 = elem2 mem den stride_den_d stride_n (sigma i) k) ->
    exists drmin drmax,
      DOUBLE_pdist_ratio_body mem len_d len_m len_n
        stride_num_d stride_m stride_den_d stride_n num den args2 args3
      = store (store mem args2 drmin) args3 drmax
      /\ DOUBLE_pdist_ratio_body mem' len_d len_m len_n
           stride_num_d' stride_m' stride_den_d' stride_n' num' den' args2' args3'
         = store (store mem' args2' drmin) args3' drmax.
Proof.
  intros until args3'. intros Hs Ht Hst Hts Hnum Hden.
  unfold DOUBLE_pdist_ratio_body.
  destruct (pdist_ratio_loops_spec mem len_d len_m len_n
              stride_num_d stride_m stride_den_d stride_n num den) as (-> & ->).
  destruct (pdist_ratio_loops_spec mem' len_d len_m len_n
              stride_num_d' stride_m' stride_den_d' stride_n' num' den') as (-> & ->).
  destruct (@permuted_extrema mem mem' len_d len_m len_n num den num' den'
              stride_num_d stride_m stride_den_d stride_n
              stride_num_d' stride_m' stride_den_d' stride_n'
              sigma tau Hs Ht Hst Hts Hnum Hden) as (-> & ->).
  eauto.
Qed.

Lemma pdist_ratio_permutation_invariant_witness :
  (forall i, 0 <= i < 3 -> 0 <= 2 - i < 3)
  /\ exists drmin drmax,
       DOUBLE_pdist_ratio_body mem_points 3 1 1 8 8 8 8 0 24 48 56
       = store (store mem_points 48 drmin) 56 drmax
       /\ DOUBLE_pdist_ratio_body mem_points 3 1 1 (-8) 8 (-8) 8 16 40 48 56
          = store (store mem_points 48 drmin) 56 drmax.
Proof.
  split; [intros; lia|].
  apply (@pdist_ratio_permutation_invariant mem_points mem_points 3 1 1
           0 24 16 40 8 8 8 8 (-8) 8 (-8) 8
           (fun i => 2 - i) (fun i => 2 - i) 48 56 48 56);
    try (intros; lia);
    intros i k Hi Hk; unfold elem2, cell_addr; f_equal; lia.
Defined.

(** X12: [cdist_ratio] does not depend on which set is called "from" and
    which "to": with the two sets exchanged, in numerator and in
    denominator space, it writes the same memory. *)
Theorem cdist_ratio_swap_sets :
  forall (mem : memory) (len_fr_d len_to_d len_m len_n : npy_intp)
         (stride_num_fr_d stride_fr_m stride_num_to_d stride_to_m : npy_intp)
         (stride_den_fr_d stride_fr_n stride_den_to_d stride_to_n : npy_intp)
         (args0 args1 args2 args3 args4 args5 : addr),
    DOUBLE_cdist_ratio_body mem len_to_d len_m len_fr_d len_n
      stride_num_to_d stride_to_m stride_num_fr_d stride_fr_m
      stride_den_to_d stride_to_n stride_den_fr_d stride_fr_n
      args1 args0 args3 args2 args4 args5
    = DOUBLE_cdist_ratio_body mem len_fr_d len_m len_to_d len_n
        stride_num_fr_d stride_fr_m stride_num_to_d stride_to_m
        stride_den_fr_d stride_fr_n stride_den_to_d stride_to_n
        args0 args1 args2 args3 args4 args5.
Proof.
  intros. unfold DOUBLE_cdist_ratio_body.
  destruct (cdist_ratio_loops_spec mem len_to_d len_m len_fr_d len_n
              stride_num_to_d stride_to_m stride_num_fr_d stride_fr_m
              stride_den_to_d stride_to_n stride_den_fr_d stride_fr_n
              args1 args0 args3 args2) as (-> & ->).
  destruct (cdist_ratio_loops_spec mem len_fr_d len_m len_to_d len_n
              stride_num_fr_d stride_fr_m stride_num_to_d stride_to_m
              stride_den_fr_d stride_fr_n stride_den_to_d stride_to_n
              args0 args1 args2 args3) as (-> & ->).
  destruct (swapped_extrema mem len_fr_d len_to_d len_m len_n args0 args1 args2 args3
              stride_num_fr_d stride_fr_m stride_num_to_d stride_to_m
              stride_den_fr_d stride_fr_n stride_den_to_d stride_to_n) as (-> & ->).
  reflexivity.
Qed.

(** X13: with no row or no column in the output ([len_m <= 0] or
    [len_p <= 0]) [matmul] stores nothing: the memory is returned as it
    was, whatever the other dimensions and the strides are. *)
Theorem matmul_empty_output_untouched :
  forall (len_m len_n len_p : npy_intp)
         (stride_x_m stride_x_n stride_y_n stride_y_p stride_z_m stride_z_p : npy_intp)
         (mem : memory) (X Y Zb : addr),
    len_m <= 0 \/ len_p <= 0 ->
    DOUBLE_matmul_body len_m len_n len_p stride_x_m stride_x_n stride_y_n stride_y_p
      stride_z_m stride_z_p mem X Y Zb = mem.
Proof. intros. now apply matmul_empty_output. Qed.

Lemma matmul_empty_output_untouched_witness :
  (2 <= 0 \/ 0 <= 0)
  /\ DOUBLE_matmul_body 2 2 0 16 8 16 8 16 8 mem_matrices 0 32 64 = mem_matrices.
Proof.
  split; [right; lia|].
  apply (@matmul_empty_output_untouched 2 2 0 16 8 16 8 16 8 mem_matrices 0 32 64).
  right. lia.
Defined.

(** X14: with an inner dimension of zero ([len_n = 0]) [matmul] reads
    nothing and writes positive zero to every output cell, the empty sum,
    leaving the rest of the memory as it was. *)
Theorem matmul_no_inner_dimension :
  forall (len_m len_p : npy_intp)
         (stride_x_m stride_x_n stride_y_n stride_y_p stride_z_m stride_z_p : npy_intp)
         (mem : memory) (X Y Zb : addr),
    0 <= len_p ->
    (forall m p m' p',
        0 <= m < len_m -> 0 <= p < len_p -> 0 <= m' < len_m -> 0 <= p' < len_p ->
        cell_addr Zb stride_z_m stride_z_p m p = cell_addr Zb stride_z_m stride_z_p m' p' ->
        m = m' /\ p = p') ->
    let mem' :=
      DOUBLE_matmul_body len_m 0 len_p stride_x_m stride_x_n stride_y_n stride_y_p
        stride_z_m stride_z_p mem X Y Zb in
    (forall m p, 0 <= m < len_m -> 0 <= p < len_p ->
                 elem2 mem' Zb stride_z_m stride_z_p m p = d_zero)
    /\ (forall a,
           (forall m p, 0 <= m < len_m -> 0 <= p < len_p ->
                        a <> cell_addr Zb stride_z_m stride_z_p m p) ->
           load mem' a = load mem a).
Proof.
  intros until Zb. intros Hp Hzz mem'.
  destruct (@matmul_body_spec len_m 0 len_p stride_x_m stride_x_n stride_y_n stride_y_p
              stride_z_m stride_z_p mem X Y Zb) as (Hcells & Hframe);
    try assumption; try lia.
  split; [|exact Hframe].
  intros m p Hm Hp'. unfold elem2. fold mem'. rewrite Hcells by assumption.
  apply matmul_cell_no_terms.
Qed.

Lemma matmul_no_inner_dimension_witness :
  0 <= 2
  /\ (forall m p, 0 <= m < 2 -> 0 <= p < 2 ->
        elem2 (DOUBLE_matmul_body 2 0 2 16 8 16 8 16 8 mem_matrices 0 32 64)
          64 16 8 m p = d_zero).
Proof.
  split; [lia|].
  apply (@matmul_no_inner_dimension 2 2 16 8 16 8 16 8 mem_matrices 0 32 64);
    unfold cell_addr; intros; lia.
Defined.



(** X16: the cursors of [matmul] after the three loops: each rewind by
    [iback] undoes the loop before it, so [ip_y] is back at the start of
    [Y] while [ip_x] and [op_z] have moved [len_m] rows on. *)
Theorem matmul_cursors_rewind :
  forall (len_m len_n len_p : npy_intp)
         (stride_x_m stride_x_n stride_y_n stride_y_p stride_z_m stride_z_p : npy_intp)
         (mem : memory) (X Y Zb : addr),
    0 <= len_m ->
    0 <= len_n ->
    0 <= len_p ->
    let s := matmul_loops len_m len_n len_p stride_x_m stride_x_n stride_y_n stride_y_p
               stride_z_m stride_z_p mem X Y Zb in
    ip_x s = X + len_m * stride_x_m /\ ip_y s = Y /\ op_z s = Zb + len_m * stride_z_m.
Proof.
  intros until Zb. intros Hm Hn Hp. now apply matmul_loops_cursors.
Qed.

Lemma matmul_cursors_rewind_witness :
  0 <= 2
  /\ (let s := matmul_loops 2 2 2 16 8 16 8 16 8 mem_matrices 0 32 64 in
      ip_x s = 0 + 2 * 16 /\ ip_y s = 32 /\ op_z s = 64 + 2 * 16).
Proof.
  split; [lia|].
  apply (@matmul_cursors_rewind 2 2 2 16 8 16 8 16 8 mem_matrices 0 32 64); lia.
Defined.

(** X17: [norm] is the square root of the product of the vector, as a row,
    by itself, as a column: the value [norm] writes is the square root of
    the single cell that [matmul] computes for the 1 x N by N x 1 product
    of the same strided vector (into a cell that is not one of its
    elements). *)
Theorem norm_is_sqrt_of_matmul :
  forall (mem : memory) (len_n stride_n : npy_intp) (X out Zc : addr)
         (stride_x_m stride_y_p stride_z_m stride_z_p : npy_intp),
    0 <= len_n ->
    (forall n, 0 <= n < len_n -> Zc <> X + n * stride_n) ->
    load (DOUBLE_norm_body mem len_n stride_n X out) out
    = npy_sqrt (load (DOUBLE_matmul_body 1 len_n 1 stride_x_m stride_n stride_n stride_y_p
                        stride_z_m stride_z_p mem X X Zc) Zc).
Proof.
  intros until stride_z_p. intros Hn Hz. rewrite norm_body_value.
  destruct (@matmul_body_spec 1 len_n 1 stride_x_m stride_n stride_n stride_y_p
              stride_z_m stride_z_p mem X X Zc) as (Hcells & _).
  - assumption.
  - lia.
  - intros m p m' p' Hm Hp Hm' Hp' _. lia.
  - intros m p m' n Hm Hp Hm' Hn'.
    assert (m = 0) by lia. assert (p = 0) by lia. assert (m' = 0) by lia. subst.
    unfold cell_addr. specialize (Hz n Hn'). lia.
  - intros m p n p' Hm Hp Hn' Hp'.
    assert (m = 0) by lia. assert (p = 0) by lia. assert (p' = 0) by lia. subst.
    unfold cell_addr. specialize (Hz n Hn'). lia.
  - specialize (Hcells 0 0). unfold cell_addr at 1 in Hcells.
    replace (Zc + 0 * stride_z_m + 0 * stride_z_p) with Zc in Hcells by lia.
    rewrite Hcells by lia. now rewrite matmul_cell_sum_squares.
Qed.

Lemma norm_is_sqrt_of_matmul_witness :
  0 <= 2
  /\ load (DOUBLE_norm_body mem_vector 2 8 0 16) 16
     = npy_sqrt (load (DOUBLE_matmul_body 1 2 1 16 8 8 8 8 8 mem_vector 0 0 24) 24).
Proof.
  split; [lia|].
  apply (@norm_is_sqrt_of_matmul mem_vector 2 8 0 16 24 16 8 8 8); intros; lia.
Defined.

(** X18: [norm] is the square root of the squared distance from the
    vector to the origin: what [norm] writes is the square root of what
    [DOUBLE_dist], started at zero, returns between the vector and any
    vector of positive zeros. *)
Theorem norm_is_dist_to_origin :
  forall (mem : memory) (len_n stride_n stride_o : npy_intp) (X O out : addr),
    (forall k, 0 <= k < len_n -> elem1 mem O stride_o k = d_zero) ->
    load (DOUBLE_norm_body mem len_n stride_n X out) out
    = npy_sqrt (DOUBLE_dist mem X O d_zero (init_linearize_vdata len_n stride_n)
                  (init_linearize_vdata len_n stride_o)).
Proof.
  intros mem len_n stride_n stride_o X O out Hzero.
  rewrite norm_body_value, DOUBLE_dist_spec. f_equal.
  cbn [len strides init_linearize_vdata].
  unfold sum_squares, sq_dist_from. apply fold_left_ext_on.
  intros acc k Hk. apply zrange_In in Hk.
  unfold sq_diff. now rewrite Hzero, d_sub_zero_r by assumption.
Qed.

Lemma norm_is_dist_to_origin_witness :
  (forall k, 0 <= k < 1 -> elem1 mem_points 0 8 k = d_zero)
  /\ load (DOUBLE_norm_body mem_points 1 8 8 48) 48
     = npy_sqrt (DOUBLE_dist mem_points 8 0 d_zero (init_linearize_vdata 1 8)
                   (init_linearize_vdata 1 8)).
Proof.
  assert (H : forall k, 0 <= k < 1 -> elem1 mem_points 0 8 k = d_zero).
  { intros k Hk. assert (k = 0) by lia. subst k. reflexivity. }
  split; [exact H|].
  apply (@norm_is_dist_to_origin mem_points 1 8 8 8 0 48 H).
Defined.

(** X19: [norm] is NaN exactly when an element of the vector is NaN: a NaN
    element makes it NaN, and without one it is a number that is not
    negative (an overflowing sum gives positive infinity, never NaN). *)
Theorem norm_nan_iff_element_nan :
  forall (mem : memory) (len_n stride_n : npy_intp) (X out : addr),
    let r := load (DOUBLE_norm_body mem len_n stride_n X out) out in
    sign_clear r = true
    /\ (is_nan r = true
        <-> exists k, 0 <= k < len_n /\ is_nan (elem1 mem X stride_n k) = true).
Proof.
  intros mem len_n stride_n X out r. unfold r. rewrite norm_body_value.
  split; [apply npy_sqrt_sign, sum_squares_sign|].
  split.
  - intros Hnan.
    destruct (@in_range_or_not (fun k => is_nan (elem1 mem X stride_n k) = true) 0 len_n)
      as [H|H]; [|assumption|].
    + intros k. destruct (is_nan (elem1 mem X stride_n k)); auto.
    + exfalso.
      destruct (@sum_squares_ok (elem1 mem X stride_n) len_n) as (Hs & Hn).
      * intros k Hk. specialize (H k Hk).
        now destruct (is_nan (elem1 mem X stride_n k)).
      * rewrite npy_sqrt_not_nan in Hnan by assumption. discriminate.
  - intros (k & Hk & Hnan). now rewrite (sum_squares_nan _ Hk Hnan).
Qed.

(** X20: an infinite element, of either sign, makes [norm] positive
    infinity when no element is NaN. *)
Theorem norm_infinite_element :
  forall (mem : memory) (len_n stride_n : npy_intp) (X out : addr) (k : Z),
    0 <= k < len_n ->
    (forall n, 0 <= n < len_n -> is_nan (elem1 mem X stride_n n) = false) ->
    is_finite (elem1 mem X stride_n k) = false ->
    load (DOUBLE_norm_body mem len_n stride_n X out) out = d_inf.
Proof.
  intros mem len_n stride_n X out k Hk Hx Hinf.
  now rewrite norm_body_value, (sum_squares_inf _ Hk Hx Hinf).
Qed.

Lemma norm_infinite_element_witness :
  0 <= 0 < 2
  /\ load (DOUBLE_norm_body mem_infinite 2 8 0 48) 48 = d_inf.
Proof.
  split; [lia|].
  apply (@norm_infinite_element mem_infinite 2 8 0 48 0); [lia| |reflexivity].
  intros n Hn. assert (Hc : n = 0 \/ n = 1) by lia.
  destruct Hc as [-> | ->]; reflexivity.
Defined.



(** X22: [fortran_int_min] and [fortran_int_max] return their two
    arguments, the smaller one and the larger one: the minimum is the
    greatest integer below both, the maximum the least integer above both,
    and both stay in the range of [fortran_int] when the arguments are. *)
Theorem fortran_int_min_max :
  forall x y : gufunc_fortran.fortran_int,
    let lo := gufunc_fortran.fortran_int_min x y in
    let hi := gufunc_fortran.fortran_int_max x y in
    ((lo = x /\ hi = y) \/ (lo = y /\ hi = x))
    /\ lo <= hi
    /\ (forall z, z <= x -> z <= y -> z <= lo)
    /\ (forall z, x <= z -> y <= z -> hi <= z)
    /\ (gufunc_fortran.in_fortran_int x -> gufunc_fortran.in_fortran_int y ->
        gufunc_fortran.in_fortran_int lo /\ gufunc_fortran.in_fortran_int hi).
Proof.
  intros x y lo hi. unfold lo, hi, gufunc_fortran.fortran_int_min,
    gufunc_fortran.fortran_int_max, gufunc_fortran.in_fortran_int.
  destruct (Z.ltb_spec x y), (Z.gtb_spec x y); repeat split; intros; try lia.
Qed.
